(** * supersprite: the transform-and-render pipeline of [build/main.js]

    A shallow embedding of the rendering core bundled in [build/main.js]
    (classes [Color], [Matrix], [Shader], the [draw] functions and
    [resizeCanvas], the text functions and the [Ball] of the example) and
    the properties its specification states about it.  [Shader.render],
    the atlas loader and the DOM part of [initialize] are left out.

    Conventions of the model.
    - A JavaScript number is a rational [Q].  [===] on numbers is [Qeq].
      A run in which a NaN or an infinity would arise (a division by zero,
      [x % 0], an arithmetic operand read out of an array's range) ends in
      the outcome [NonFinite]: the model does not follow it further.
      Rounding, and so [Float32Array], is the identity, except where the
      code takes a decision from a rounded result: the product that
      [drawSpriteSpeed] turns into an image index, and the differences of
      [Color.invert], are rounded to the nearest double ([to_double]).
    - Objects that the code mutates or compares by identity ([Matrix] and
      [Shader] instances) live in a store, and are passed around by
      reference.  Arrays are never updated in place by this code, and are
      values.
    - The WebGL context and the 2D context are collaborators: every command
      sent to them is recorded in [calls] (most recent first), and every
      answer the code branches on is given by the [Host], as are
      [Math.cos], [Math.sin] and [Math.PI].
    - An exception ends the run in the outcome [Throw], with the world as
      it is at the throw. *)

From Stdlib Require Import QArith Qround Qabs Qpower ZArith Lia Lqa Ascii.
From stdpp Require Import gmap strings list.

Local Open Scope Q_scope.

(** ** Values *)

(** [class Color]: four channels; [alpha] defaults to 1. *)
Record Color := mkColor { red : Q; green : Q; blue : Q; alpha : Q }.

Definition Color_new (r g b : Q) (a : option Q) : Color :=
  {| red := r; green := g; blue := b;
     alpha := match a with None => 1 | Some a => a end |}.

(** The values the drawing functions receive in their colour arguments. *)
Inductive jsval :=
| VUndefined
| VNull
| VNum (q : Q)
| VColor (c : Color).

(** [v instanceof Color] *)
Definition instanceof_Color (v : jsval) : option Color :=
  match v with VColor c => Some c | _ => None end.

(** [v !== undefined] *)
Definition defined (v : jsval) : bool :=
  match v with VUndefined => false | _ => true end.


(** [(a === undefined) ? 1 : a] *)
Definition alpha_or_1 (a : jsval) : jsval :=
  match a with VUndefined => VNum 1 | _ => a end.

(** ** Numbers *)

(** [Math.floor] *)
Definition Math_floor (q : Q) : Q := inject_Z (Qfloor q).

(** [Math.max] *)
Definition Math_max (a b : Q) : Q := if Qle_bool a b then b else a.

(** Rounding towards zero, as [%] and integer conversion do. *)
Definition Qtrunc (q : Q) : Z := if Qle_bool 0 q then Qfloor q else Qceiling q.

(** [x / y]; [None] when the quotient is not finite. *)
Definition js_div (x y : Q) : option Q :=
  if Qeq_bool y 0 then None else Some (x / y).

(** [x % y]: the remainder takes the sign of the dividend; [None] is NaN. *)
Definition js_rem (x y : Q) : option Q :=
  if Qeq_bool y 0 then None else Some (x - y * inject_Z (Qtrunc (x / y))).

(** [arr[i]] for a number [i]: defined for the integers [0 .. length-1]. *)
Definition js_index {A} (arr : list A) (i : Q) : option A :=
  let z := Qfloor i in
  if Qeq_bool i (inject_Z z) && (0 <=? z)%Z then arr !! Z.to_nat z else None.

(** [arr.length] as a number *)
Definition js_length {A} (arr : list A) : Q := inject_Z (Z.of_nat (length arr)).

(** *** Doubles *)

(** The integer nearest to [q], the even one of two that are equally
    near. *)
Definition round_half_even (q : Q) : Z :=
  let f := Qfloor q in
  match Qcompare (q - inject_Z f) (1 # 2) with
  | Lt => f
  | Gt => (f + 1)%Z
  | Eq => if Z.even f then f else (f + 1)%Z
  end.

(** The exponent [e] with [2 ^ e <= |q| < 2 ^ (e + 1)], for [q] other than
    0. *)
Definition binade (q : Q) : Z :=
  let e := (Z.log2 (Z.abs (Qnum q)) - Z.log2 (Zpos (Qden q)))%Z in
  if Qle_bool (2 ^ e) (Qabs q) then e else (e - 1)%Z.

(** The distance between the doubles around [q]: 53 bits of precision, and
    the exponents below -1022 denormalised. *)
Definition ulp (q : Q) : Q := 2 ^ (Z.max (binade q) (-1022) - 52).

(** The double that a result [q] is rounded to: the nearest, ties to even;
    [None] is an infinity. *)
Definition to_double (q : Q) : option Q :=
  if Qeq_bool q 0 then Some 0
  else
    let r := Qred (inject_Z (round_half_even (q / ulp q)) * ulp q) in
    if Qle_bool (2 ^ 1024) (Qabs r) then None else Some r.

Definition js_sub (x y : Q) : option Q := to_double (x - y).

(** The double that a decimal literal of the source stands for. *)
Definition literal (q : Q) : Q := default 0 (to_double q).

(** ** The WebGL and 2D-context collaborators *)

Inductive ShaderType := VERTEX_SHADER | FRAGMENT_SHADER.
Inductive Usage := STATIC_DRAW | DYNAMIC_DRAW.
Inductive Mode :=
  POINTS | LINES | LINE_LOOP | LINE_STRIP | TRIANGLES | TRIANGLE_STRIP | TRIANGLE_FAN.
Inductive Capability := DEPTH_TEST | BLEND.
Inductive TexParam := TEXTURE_MAG_FILTER | TEXTURE_MIN_FILTER | TEXTURE_WRAP_S | TEXTURE_WRAP_T.
Inductive TexValue := NEAREST | CLAMP_TO_EDGE.

Record WebGLShader := { sh_type : ShaderType; sh_source : string }.
Record WebGLProgram := { pr_vertex : WebGLShader; pr_fragment : WebGLShader }.
Record WebGLUniformLocation := { ul_program : WebGLProgram; ul_name : string }.
(** Buffers, textures and framebuffers are told apart by identity. *)
Definition WebGLObject := positive.

(** The answers of the host: [Math], and the queries of the GL context. *)
Record Host := {
  h_cos : Q -> Q;
  h_sin : Q -> Q;
  h_PI : Q;
  h_createShader : ShaderType -> bool;
  h_COMPILE_STATUS : WebGLShader -> bool;
  h_shaderInfoLog : WebGLShader -> string;
  h_createProgram : bool;
  h_LINK_STATUS : WebGLProgram -> bool;
  h_programInfoLog : WebGLProgram -> string;
  h_attribLocation : WebGLProgram -> string -> Z;
  h_hasUniform : WebGLProgram -> string -> bool;
  h_createBuffer : bool;
  h_createTexture : bool;
  h_createFramebuffer : bool
}.

(** Commands sent to the GL context ([gl_]) and to the 2D context ([ctx_]). *)
Inductive Call :=
| gl_shaderSource (s : WebGLShader)
| gl_compileShader (s : WebGLShader)
| gl_deleteShader (s : WebGLShader)
| gl_attachShader (s : WebGLShader)
| gl_linkProgram (p : WebGLProgram)
| gl_deleteProgram (p : WebGLProgram)
| gl_useProgram (p : WebGLProgram)
| gl_bindBuffer (b : WebGLObject)
| gl_bufferData (data : list Q) (usage : Usage)
| gl_enableVertexAttribArray (a : Z)
| gl_vertexAttribPointer (a : Z)
| gl_uniform4f (u : WebGLUniformLocation) (r g b a : jsval)
| gl_uniformMatrix3fv (u : option WebGLUniformLocation) (values : list Q)
| gl_drawArrays (mode : Mode) (first : Q) (count : Q)
| gl_bindFramebuffer (f : option WebGLObject)
| gl_framebufferTexture2D (t : WebGLObject)
| gl_viewport (x y w h : Q)
| gl_clearColor (r g b a : Q)
| gl_clear
| gl_disable (c : Capability)
| gl_enable (c : Capability)
| gl_blendFunc
| gl_bindTexture (t : option WebGLObject)
| gl_texImage2D (w h : Q)
| gl_texParameteri (p : TexParam) (v : TexValue)
| ctx_clearRect (x y w h : Q)
| ctx_save
| ctx_setTransform
| ctx_scale (sx sy : Q)
| ctx_imageSmoothingEnabled (b : bool).

Definition is_draw (c : Call) : bool :=
  match c with gl_drawArrays _ _ _ => true | _ => false end.

(** The number of GPU draw calls among the recorded commands. *)
Definition draw_calls (cs : list Call) : nat := length (filter is_draw cs).

(** ** Sprites (the atlas data of [spr]) *)

(** One image of a sprite: its pixel offset in the atlas and its texture
    matrix [t]. *)
Record Image := { img_x : Q; img_y : Q; img_t : list Q }.

Record Sprite := {
  width : Q;
  height : Q;
  originX : Q;
  originY : Q;
  images : list Image
}.

(** ** The state of the program *)

(** References to [Matrix] and [Shader] instances. *)
Definition ref := positive.

(** The fields of a constructed [Shader] instance. *)
Record ShaderObj := {
  program : WebGLProgram;
  positionAttribute : Z;
  positionMatrix : WebGLUniformLocation;
  blendUniform : WebGLUniformLocation;
  textureAttribute : option Z;
  textureMatrix : option WebGLUniformLocation;
  buffer : WebGLObject
}.

Inductive Responsive := responsive_static | responsive_stretch | responsive_scale.

Record RGB := { bg_red : Q; bg_green : Q; bg_blue : Q }.

(** The static properties of [Shader]. *)
Record Statics := {
  positionOrder : list Q;
  triangleOrder : list Q;
  currentProgram : option ref;
  internalTimer : Z;
  imageShader : option ref;
  primitiveShader : option ref;
  gameTexture : option WebGLObject;
  atlasTexture : option WebGLObject;
  frameBuffer : option WebGLObject;
  viewWidth : Q;
  viewHeight : Q;
  displayWidth : Q;
  displayHeight : Q;
  projection : option ref;
  backgroundColor : option RGB;
  responsive : Responsive;
  maintainAspectRatio : bool;
  scalePerfectly : bool;
  contextImageSmoothing : bool
}.

Record world := {
  host : Host;
  (** commands sent to the contexts, most recent first *)
  calls : list Call;
  (** the next GL object to be created *)
  gl_fresh : WebGLObject;
  (** [Matrix] instances: the array held in [values] *)
  matrices : gmap ref (list Q);
  (** [Shader] instances *)
  shaders : gmap ref ShaderObj;
  (** [window.innerWidth], [window.innerHeight] *)
  innerWidth : Q;
  innerHeight : Q;
  (** the size of the two canvases ([cv2] always follows [cv1]) *)
  cv_width : Q;
  cv_height : Q;
  Shader : Statics
}.

Definition with_calls (f : list Call -> list Call) (w : world) : world :=
  {| host := host w; calls := f (calls w); gl_fresh := gl_fresh w;
     matrices := matrices w; shaders := shaders w;
     innerWidth := innerWidth w; innerHeight := innerHeight w;
     cv_width := cv_width w; cv_height := cv_height w; Shader := Shader w |}.

Definition with_gl_fresh (f : WebGLObject -> WebGLObject) (w : world) : world :=
  {| host := host w; calls := calls w; gl_fresh := f (gl_fresh w);
     matrices := matrices w; shaders := shaders w;
     innerWidth := innerWidth w; innerHeight := innerHeight w;
     cv_width := cv_width w; cv_height := cv_height w; Shader := Shader w |}.

Definition with_matrices (f : gmap ref (list Q) -> gmap ref (list Q)) (w : world) : world :=
  {| host := host w; calls := calls w; gl_fresh := gl_fresh w;
     matrices := f (matrices w); shaders := shaders w;
     innerWidth := innerWidth w; innerHeight := innerHeight w;
     cv_width := cv_width w; cv_height := cv_height w; Shader := Shader w |}.

Definition with_shaders (f : gmap ref ShaderObj -> gmap ref ShaderObj) (w : world) : world :=
  {| host := host w; calls := calls w; gl_fresh := gl_fresh w;
     matrices := matrices w; shaders := f (shaders w);
     innerWidth := innerWidth w; innerHeight := innerHeight w;
     cv_width := cv_width w; cv_height := cv_height w; Shader := Shader w |}.

Definition with_canvas (cw ch : Q) (w : world) : world :=
  {| host := host w; calls := calls w; gl_fresh := gl_fresh w;
     matrices := matrices w; shaders := shaders w;
     innerWidth := innerWidth w; innerHeight := innerHeight w;
     cv_width := cw; cv_height := ch; Shader := Shader w |}.

Definition with_Shader (f : Statics -> Statics) (w : world) : world :=
  {| host := host w; calls := calls w; gl_fresh := gl_fresh w;
     matrices := matrices w; shaders := shaders w;
     innerWidth := innerWidth w; innerHeight := innerHeight w;
     cv_width := cv_width w; cv_height := cv_height w; Shader := f (Shader w) |}.

(** Assignments to the static properties. *)
Definition set_orders (po to : list Q) (s : Statics) : Statics :=
  {| positionOrder := po; triangleOrder := to;
     currentProgram := currentProgram s; internalTimer := internalTimer s;
     imageShader := imageShader s; primitiveShader := primitiveShader s;
     gameTexture := gameTexture s; atlasTexture := atlasTexture s;
     frameBuffer := frameBuffer s;
     viewWidth := viewWidth s; viewHeight := viewHeight s;
     displayWidth := displayWidth s; displayHeight := displayHeight s;
     projection := projection s; backgroundColor := backgroundColor s;
     responsive := responsive s; maintainAspectRatio := maintainAspectRatio s;
     scalePerfectly := scalePerfectly s;
     contextImageSmoothing := contextImageSmoothing s |}.

Definition set_currentProgram (p : option ref) (s : Statics) : Statics :=
  {| positionOrder := positionOrder s; triangleOrder := triangleOrder s;
     currentProgram := p; internalTimer := internalTimer s;
     imageShader := imageShader s; primitiveShader := primitiveShader s;
     gameTexture := gameTexture s; atlasTexture := atlasTexture s;
     frameBuffer := frameBuffer s;
     viewWidth := viewWidth s; viewHeight := viewHeight s;
     displayWidth := displayWidth s; displayHeight := displayHeight s;
     projection := projection s; backgroundColor := backgroundColor s;
     responsive := responsive s; maintainAspectRatio := maintainAspectRatio s;
     scalePerfectly := scalePerfectly s;
     contextImageSmoothing := contextImageSmoothing s |}.

Definition set_internalTimer (t : Z) (s : Statics) : Statics :=
  {| positionOrder := positionOrder s; triangleOrder := triangleOrder s;
     currentProgram := currentProgram s; internalTimer := t;
     imageShader := imageShader s; primitiveShader := primitiveShader s;
     gameTexture := gameTexture s; atlasTexture := atlasTexture s;
     frameBuffer := frameBuffer s;
     viewWidth := viewWidth s; viewHeight := viewHeight s;
     displayWidth := displayWidth s; displayHeight := displayHeight s;
     projection := projection s; backgroundColor := backgroundColor s;
     responsive := responsive s; maintainAspectRatio := maintainAspectRatio s;
     scalePerfectly := scalePerfectly s;
     contextImageSmoothing := contextImageSmoothing s |}.

Definition set_imageShader (r : ref) (s : Statics) : Statics :=
  {| positionOrder := positionOrder s; triangleOrder := triangleOrder s;
     currentProgram := currentProgram s; internalTimer := internalTimer s;
     imageShader := Some r; primitiveShader := primitiveShader s;
     gameTexture := gameTexture s; atlasTexture := atlasTexture s;
     frameBuffer := frameBuffer s;
     viewWidth := viewWidth s; viewHeight := viewHeight s;
     displayWidth := displayWidth s; displayHeight := displayHeight s;
     projection := projection s; backgroundColor := backgroundColor s;
     responsive := responsive s; maintainAspectRatio := maintainAspectRatio s;
     scalePerfectly := scalePerfectly s;
     contextImageSmoothing := contextImageSmoothing s |}.

Definition set_primitiveShader (r : ref) (s : Statics) : Statics :=
  {| positionOrder := positionOrder s; triangleOrder := triangleOrder s;
     currentProgram := currentProgram s; internalTimer := internalTimer s;
     imageShader := imageShader s; primitiveShader := Some r;
     gameTexture := gameTexture s; atlasTexture := atlasTexture s;
     frameBuffer := frameBuffer s;
     viewWidth := viewWidth s; viewHeight := viewHeight s;
     displayWidth := displayWidth s; displayHeight := displayHeight s;
     projection := projection s; backgroundColor := backgroundColor s;
     responsive := responsive s; maintainAspectRatio := maintainAspectRatio s;
     scalePerfectly := scalePerfectly s;
     contextImageSmoothing := contextImageSmoothing s |}.

Definition set_gameTexture (t : WebGLObject) (s : Statics) : Statics :=
  {| positionOrder := positionOrder s; triangleOrder := triangleOrder s;
     currentProgram := currentProgram s; internalTimer := internalTimer s;
     imageShader := imageShader s; primitiveShader := primitiveShader s;
     gameTexture := Some t; atlasTexture := atlasTexture s;
     frameBuffer := frameBuffer s;
     viewWidth := viewWidth s; viewHeight := viewHeight s;
     displayWidth := displayWidth s; displayHeight := displayHeight s;
     projection := projection s; backgroundColor := backgroundColor s;
     responsive := responsive s; maintainAspectRatio := maintainAspectRatio s;
     scalePerfectly := scalePerfectly s;
     contextImageSmoothing := contextImageSmoothing s |}.

Definition set_frameBuffer (f : WebGLObject) (s : Statics) : Statics :=
  {| positionOrder := positionOrder s; triangleOrder := triangleOrder s;
     currentProgram := currentProgram s; internalTimer := internalTimer s;
     imageShader := imageShader s; primitiveShader := primitiveShader s;
     gameTexture := gameTexture s; atlasTexture := atlasTexture s;
     frameBuffer := Some f;
     viewWidth := viewWidth s; viewHeight := viewHeight s;
     displayWidth := displayWidth s; displayHeight := displayHeight s;
     projection := projection s; backgroundColor := backgroundColor s;
     responsive := responsive s; maintainAspectRatio := maintainAspectRatio s;
     scalePerfectly := scalePerfectly s;
     contextImageSmoothing := contextImageSmoothing s |}.

Definition set_view (vw vh dw dh : Q) (s : Statics) : Statics :=
  {| positionOrder := positionOrder s; triangleOrder := triangleOrder s;
     currentProgram := currentProgram s; internalTimer := internalTimer s;
     imageShader := imageShader s; primitiveShader := primitiveShader s;
     gameTexture := gameTexture s; atlasTexture := atlasTexture s;
     frameBuffer := frameBuffer s;
     viewWidth := vw; viewHeight := vh;
     displayWidth := dw; displayHeight := dh;
     projection := projection s; backgroundColor := backgroundColor s;
     responsive := responsive s; maintainAspectRatio := maintainAspectRatio s;
     scalePerfectly := scalePerfectly s;
     contextImageSmoothing := contextImageSmoothing s |}.

Definition set_projection (p : ref) (s : Statics) : Statics :=
  {| positionOrder := positionOrder s; triangleOrder := triangleOrder s;
     currentProgram := currentProgram s; internalTimer := internalTimer s;
     imageShader := imageShader s; primitiveShader := primitiveShader s;
     gameTexture := gameTexture s; atlasTexture := atlasTexture s;
     frameBuffer := frameBuffer s;
     viewWidth := viewWidth s; viewHeight := viewHeight s;
     displayWidth := displayWidth s; displayHeight := displayHeight s;
     projection := Some p; backgroundColor := backgroundColor s;
     responsive := responsive s; maintainAspectRatio := maintainAspectRatio s;
     scalePerfectly := scalePerfectly s;
     contextImageSmoothing := contextImageSmoothing s |}.

Definition set_backgroundColor (c : RGB) (s : Statics) : Statics :=
  {| positionOrder := positionOrder s; triangleOrder := triangleOrder s;
     currentProgram := currentProgram s; internalTimer := internalTimer s;
     imageShader := imageShader s; primitiveShader := primitiveShader s;
     gameTexture := gameTexture s; atlasTexture := atlasTexture s;
     frameBuffer := frameBuffer s;
     viewWidth := viewWidth s; viewHeight := viewHeight s;
     displayWidth := displayWidth s; displayHeight := displayHeight s;
     projection := projection s; backgroundColor := Some c;
     responsive := responsive s; maintainAspectRatio := maintainAspectRatio s;
     scalePerfectly := scalePerfectly s;
     contextImageSmoothing := contextImageSmoothing s |}.

(** ** Exceptions and the monad of runs *)

(** The sites at which a [ShaderError] is thrown. *)
Inductive ShaderErrorMessage :=
| FailedToCreateShader
| FailedToCompileShader (err : string)
| FailedToCreateProgram
| FailedToLinkProgram (err : string)
| PositionAttributeNotFound (name : string)
| PositionUniformNotFound (name : string)
| BlendUniformNotFound (name : string)
| TextureAttributeNotFound (name : option string)
| TextureUniformNotFound (name : option string)
| FailedToCreateBuffer
| FailedToCreateTexture
| FailedToCreateFrameBuffer.

Inductive exn :=
| ShaderError (msg : ShaderErrorMessage)
(** [Illegal color arguments! R: .., G: .., B: .., A: ..] *)
| DrawError (rcol g b a : jsval)
(** a property read of, or a call on, [undefined] *)
| TypeError.

Inductive outcome (A : Type) :=
| Ret (a : A) (w : world)
| Throw (e : exn) (w : world)
| NonFinite (w : world).
Arguments Ret {A} a w.
Arguments Throw {A} e w.
Arguments NonFinite {A} w.

Definition M (A : Type) : Type := world -> outcome A.

Definition ret {A} (a : A) : M A := fun w => Ret a w.

Definition bind {A B} (m : M A) (f : A -> M B) : M B := fun w =>
  match m w with
  | Ret a w' => f a w'
  | Throw e w' => Throw e w'
  | NonFinite w' => NonFinite w'
  end.

Declare Scope M_scope.
Delimit Scope M_scope with M.
Bind Scope M_scope with M.
Notation "x ← y ; z" := (bind y (fun x => z))
  (at level 20, y at level 100, z at level 200, only parsing) : M_scope.
Notation "' x ← y ; z" := (bind y (fun x => z))
  (at level 20, x pattern, y at level 100, z at level 200, only parsing) : M_scope.
Notation "y ;; z" := (bind y (fun _ => z))
  (at level 100, z at level 200, only parsing, right associativity) : M_scope.
Local Open Scope M_scope.

Definition throw {A} (e : exn) : M A := fun w => Throw e w.
Definition nonfinite {A} : M A := fun w => NonFinite w.
Definition gets {A} (f : world -> A) : M A := fun w => Ret (f w) w.
Definition modify (f : world -> world) : M unit := fun w => Ret tt (f w).

(** Send a command to the GL or 2D context. *)
Definition call (c : Call) : M unit := modify (with_calls (cons c)).

(** The value of an arithmetic expression, which must be finite. *)
Definition finite (o : option Q) : M Q :=
  match o with Some q => ret q | None => nonfinite end.

(** Reading a property of a value that may be [undefined]. *)
Definition deref {A} (o : option A) : M A :=
  match o with Some a => ret a | None => throw TypeError end.

(** The world in which a run ends. *)
Definition final {A} (o : outcome A) : world :=
  match o with Ret _ w | Throw _ w | NonFinite w => w end.

(** ** [class Matrix] *)

Module Matrix.

(** [new Matrix(values)]: a fresh instance holding the array. *)
Definition new (values : list Q) : M ref := fun w =>
  let r := fresh (dom (matrices w)) in
  Ret r (with_matrices (insert r values) w).

(** [m.values] *)
Definition values (m : ref) : M (list Q) :=
  ms ← gets matrices; deref (ms !! m).

(** [m.values = vs] *)
Definition set_values (m : ref) (vs : list Q) : M unit :=
  modify (with_matrices (insert m vs)).

(** [arr[i]] used as an operand of arithmetic. *)
Definition at_ (arr : list Q) (i : nat) : M Q := finite (arr !! i).

Definition copy (this : ref) : M ref :=
  vs ← values this; new vs.

Definition multiply (this mat : ref) : M ref :=
  a ← values this;
  a00 ← at_ a (0 * 3 + 0);
  a01 ← at_ a (0 * 3 + 1);
  a02 ← at_ a (0 * 3 + 2);
  a10 ← at_ a (1 * 3 + 0);
  a11 ← at_ a (1 * 3 + 1);
  a12 ← at_ a (1 * 3 + 2);
  a20 ← at_ a (2 * 3 + 0);
  a21 ← at_ a (2 * 3 + 1);
  a22 ← at_ a (2 * 3 + 2);
  b ← values mat;
  b00 ← at_ b (0 * 3 + 0);
  b01 ← at_ b (0 * 3 + 1);
  b02 ← at_ b (0 * 3 + 2);
  b10 ← at_ b (1 * 3 + 0);
  b11 ← at_ b (1 * 3 + 1);
  b12 ← at_ b (1 * 3 + 2);
  b20 ← at_ b (2 * 3 + 0);
  b21 ← at_ b (2 * 3 + 1);
  b22 ← at_ b (2 * 3 + 2);
  set_values this [
    b00 * a00 + b01 * a10 + b02 * a20;
    b00 * a01 + b01 * a11 + b02 * a21;
    b00 * a02 + b01 * a12 + b02 * a22;
    b10 * a00 + b11 * a10 + b12 * a20;
    b10 * a01 + b11 * a11 + b12 * a21;
    b10 * a02 + b11 * a12 + b12 * a22;
    b20 * a00 + b21 * a10 + b22 * a20;
    b20 * a01 + b21 * a11 + b22 * a21;
    b20 * a02 + b21 * a12 + b22 * a22
  ];;
  ret this.

(** The elementary matrices built by [translate], [rotate] and [scale]. *)
Definition translation (tx ty : Q) : list Q :=
  [ 1; 0; 0;
    0; 1; 0;
    tx; ty; 1 ].

Definition rotation (c s : Q) : list Q :=
  [ c; - s; 0;
    s; c; 0;
    0; 0; 1 ].

Definition scaling (sx sy : Q) : list Q :=
  [ sx; 0; 0;
    0; sy; 0;
    0; 0; 1 ].

Definition translate (this : ref) (tx ty : Q) : M ref :=
  e ← new (translation tx ty); multiply this e.

Definition rotate (this : ref) (radians : Q) : M ref :=
  h ← gets host;
  let c := h_cos h radians in
  let s := h_sin h radians in
  e ← new (rotation c s); multiply this e.

Definition scale (this : ref) (sx sy : Q) : M ref :=
  e ← new (scaling sx sy); multiply this e.

(** [Matrix.projection] *)
Definition projection (viewWidth viewHeight : Q) : M ref :=
  sx ← finite (js_div 2 viewWidth);
  sy ← finite (js_div (-2) viewHeight);
  new [ sx; 0; 0;
        0; sy; 0;
        -1; 1; 1 ].

(** [Matrix.identity] (a bare array, not an instance) *)
Definition identity : list Q :=
  [ 1; 0; 0;
    0; 1; 0;
    0; 0; 1 ].

End Matrix.

(** *** Reading the nine coefficients as a matrix *)

(** The coefficient in row [i], column [j] of the array read row-major. *)
Definition entry (m : list Q) (i j : nat) : Q := nth (i * 3 + j) m 0.

(** The matrix product [x · y] of two arrays read row-major, as an array
    read row-major. *)
Definition mat_product (x y : list Q) : list Q :=
  flat_map (fun i =>
    map (fun j =>
      entry x i 0 * entry y 0 j + entry x i 1 * entry y 1 j + entry x i 2 * entry y 2 j)
      [0; 1; 2]%nat)
    [0; 1; 2]%nat.

(** The product of a matrix (read row-major) and a column vector. *)
Definition mat_vec (m : list Q) (v : Q * Q * Q) : Q * Q * Q :=
  let '(x, y, z) := v in
  (entry m 0 0 * x + entry m 0 1 * y + entry m 0 2 * z,
   entry m 1 0 * x + entry m 1 1 * y + entry m 1 2 * z,
   entry m 2 0 * x + entry m 2 1 * y + entry m 2 2 * z).

(** What the vertex shader computes,
    [(u_positionMatrix * vec3(a_position, 1)).xy]: [uniformMatrix3fv] is
    called with [transpose = false], so the nine coefficients are the
    columns of [u_positionMatrix], one after the other. *)
Definition shader_position (values : list Q) (p : Q * Q) : Q * Q :=
  let '(x, y) := p in
  (nth 0 values 0 * x + nth 3 values 0 * y + nth 6 values 0 * 1,
   nth 1 values 0 * x + nth 4 values 0 * y + nth 7 values 0 * 1).

(** A chain [m.op1(..).op2(..)...] of transformations. *)
Inductive transformation :=
| Translate (tx ty : Q)
| Rotate (radians : Q)
| Scale (sx sy : Q).

Definition transform (t : transformation) (m : ref) : M ref :=
  match t with
  | Translate tx ty => Matrix.translate m tx ty
  | Rotate r => Matrix.rotate m r
  | Scale sx sy => Matrix.scale m sx sy
  end.

Fixpoint chain (m : ref) (ts : list transformation) : M ref :=
  match ts with
  | [] => ret m
  | t :: ts => m' ← transform t m; chain m' ts
  end.

(** The elementary matrix of a transformation. *)
Definition elementary (h : Host) (t : transformation) : list Q :=
  match t with
  | Translate tx ty => Matrix.translation tx ty
  | Rotate r => Matrix.rotation (h_cos h r) (h_sin h r)
  | Scale sx sy => Matrix.scaling sx sy
  end.

(** ** [class Shader] *)

Module Names.
(** [opt.names]: the attribute and uniform names of a shader program. *)
Record t := {
  positionAttribute : string;
  positionUniform : string;
  blendUniform : string;
  textureAttribute : option string;
  textureUniform : option string
}.
End Names.

Record ShaderOptions := {
  vertexSource : string;
  fragmentSource : string;
  useTexture : bool;
  names : Names.t
}.

(** [name || ''] *)
Definition or_empty (name : option string) : string :=
  match name with Some s => s | None => "" end.

(** [gl.getUniformLocation]: a location, or [null]. *)
Definition getUniformLocation (h : Host) (p : WebGLProgram) (name : string)
  : option WebGLUniformLocation :=
  if h_hasUniform h p name then Some {| ul_program := p; ul_name := name |} else None.

(** A GL object just created by the context. *)
Definition gl_create : M WebGLObject := fun w =>
  Ret (gl_fresh w) (with_gl_fresh Pos.succ w).

(** [Shader.createShader] *)
Definition createShader (type : ShaderType) (source : string) : M WebGLShader :=
  h ← gets host;
  if negb (h_createShader h type) then throw (ShaderError FailedToCreateShader) else
  let shader := {| sh_type := type; sh_source := source |} in
  call (gl_shaderSource shader);;
  call (gl_compileShader shader);;
  if negb (h_COMPILE_STATUS h shader) then
    let err := h_shaderInfoLog h shader in
    call (gl_deleteShader shader);;
    throw (ShaderError (FailedToCompileShader err))
  else
    ret shader.

(** The texture part of the constructor: [this.textureAttribute] and
    [this.textureMatrix], looked up only for image shaders. *)
Definition texture_slots (h : Host) (opt : ShaderOptions) (program : WebGLProgram)
  : M (option Z * option WebGLUniformLocation) :=
  if useTexture opt then
    let tempAttribute :=
      h_attribLocation h program (or_empty (Names.textureAttribute (names opt))) in
    if (tempAttribute =? -1)%Z then
      throw (ShaderError (TextureAttributeNotFound (Names.textureAttribute (names opt))))
    else
      match getUniformLocation h program (or_empty (Names.textureUniform (names opt))) with
      | None =>
          throw (ShaderError (TextureUniformNotFound (Names.textureUniform (names opt))))
      | Some tempUniform => ret (Some tempAttribute, Some tempUniform)
      end
  else ret (None, None).

(** [new Shader(opt)].  The instance under construction is [this]; it
    becomes an object of the store, with a reference to it, when the
    constructor returns. *)
Definition Shader_new (opt : ShaderOptions) : M ref :=
  h ← gets host;
  vertexShader ← createShader VERTEX_SHADER (vertexSource opt);
  fragmentShader ← createShader FRAGMENT_SHADER (fragmentSource opt);
  if negb (h_createProgram h) then throw (ShaderError FailedToCreateProgram) else
  let program := {| pr_vertex := vertexShader; pr_fragment := fragmentShader |} in
  call (gl_attachShader vertexShader);;
  call (gl_attachShader fragmentShader);;
  call (gl_linkProgram program);;
  if negb (h_LINK_STATUS h program) then
    let err := h_programInfoLog h program in
    call (gl_deleteProgram program);;
    throw (ShaderError (FailedToLinkProgram err))
  else
  (* Link success, now get attributes and uniforms *)
  let tempAttribute := h_attribLocation h program (Names.positionAttribute (names opt)) in
  if (tempAttribute =? -1)%Z then
    throw (ShaderError (PositionAttributeNotFound (Names.positionAttribute (names opt))))
  else
  match getUniformLocation h program (Names.positionUniform (names opt)) with
  | None => throw (ShaderError (PositionUniformNotFound (Names.positionUniform (names opt))))
  | Some positionMatrix_ =>
  match getUniformLocation h program (Names.blendUniform (names opt)) with
  | None => throw (ShaderError (BlendUniformNotFound (Names.blendUniform (names opt))))
  | Some blendUniform_ =>
  (* Only set up texture stuff for image shaders *)
  '(textureAttribute_, textureMatrix_) ← texture_slots h opt program;
  (* Found all our attributes/uniforms, now put data into each attribute *)
  if negb (h_createBuffer h) then throw (ShaderError FailedToCreateBuffer) else
  buffer_ ← gl_create;
  call (gl_bindBuffer buffer_);;
  (if useTexture opt then
     data ← gets (positionOrder ∘ Shader); call (gl_bufferData data STATIC_DRAW)
   else
     data ← gets (triangleOrder ∘ Shader); call (gl_bufferData data DYNAMIC_DRAW));;
  call (gl_enableVertexAttribArray tempAttribute);;
  call (gl_vertexAttribPointer tempAttribute);;
  match textureAttribute_ with
  | Some a =>
      if (a =? 0)%Z then ret tt
      else call (gl_enableVertexAttribArray a);; call (gl_vertexAttribPointer a)
  | None => ret tt
  end;;
  fun w =>
    let this := fresh (dom (shaders w)) in
    Ret this (with_shaders (insert this
      {| program := program;
         positionAttribute := tempAttribute;
         positionMatrix := positionMatrix_;
         blendUniform := blendUniform_;
         textureAttribute := textureAttribute_;
         textureMatrix := textureMatrix_;
         buffer := buffer_ |}) w)
  end end.

(** The fields of a [Shader] instance. *)
Definition shader (this : ref) : M ShaderObj :=
  ss ← gets shaders; deref (ss !! this).

(** [this.use(positions = Shader.positionOrder)] *)
Definition use (this : ref) (positions : option (list Q)) : M unit :=
  positions ← match positions with
              | Some p => ret p
              | None => gets (positionOrder ∘ Shader)
              end;
  s ← shader this;
  call (gl_bindBuffer (buffer s));;
  call (gl_bufferData positions STATIC_DRAW);;
  call (gl_vertexAttribPointer (positionAttribute s));;
  (* Update used program *)
  cur ← gets (currentProgram ∘ Shader);
  if decide (cur = Some this) then ret tt
  else
    modify (with_Shader (set_currentProgram (Some this)));;
    call (gl_useProgram (program s)).

(** [a || b] on numbers, where [a] may be absent. *)
Definition num_or (a : option Q) (b : Q) : Q :=
  match a with
  | Some a => if Qeq_bool a 0 then b else a
  | None => b
  end.

(** [Shader.setProjection] *)
Definition setProjection (viewWidth_ viewHeight_ : Q) (displayWidth_ displayHeight_ : option Q)
  : M unit :=
  modify (with_Shader (set_view viewWidth_ viewHeight_
                         (num_or displayWidth_ viewWidth_)
                         (num_or displayHeight_ viewHeight_)));;
  p ← Matrix.projection viewWidth_ viewHeight_;
  modify (with_Shader (set_projection p));;
  (* Initialize primitive shader w/ new position uniforms. *)
  prim ← gets (primitiveShader ∘ Shader);
  prim ← deref prim;
  use prim None;;
  s ← shader prim;
  vs ← Matrix.values p;
  call (gl_uniformMatrix3fv (Some (positionMatrix s)) vs);;
  (* Resize canvases *)
  modify (with_canvas (num_or displayWidth_ viewWidth_) (num_or displayHeight_ viewHeight_));;
  (* Resize texture *)
  tex ← gets (gameTexture ∘ Shader);
  call (gl_bindTexture tex);;
  call (gl_texImage2D viewWidth_ viewHeight_);;
  (* Fix context *)
  smooth ← gets (contextImageSmoothing ∘ Shader);
  call (ctx_imageSmoothingEnabled smooth);;
  call ctx_setTransform;;
  dw ← gets (displayWidth ∘ Shader);
  dh ← gets (displayHeight ∘ Shader);
  sx ← finite (js_div dw viewWidth_);
  sy ← finite (js_div dh viewHeight_);
  call (ctx_scale sx sy).

(** [Shader.setBackgroundColor] *)
Definition setBackgroundColor (r g b : Q) : M unit :=
  modify (with_Shader (set_backgroundColor {| bg_red := r; bg_green := g; bg_blue := b |})).

(** The default image and primitive shaders of [Shader.init]. *)
Definition defaultImageOptions : ShaderOptions :=
  {| vertexSource := "attribute vec2 a_position;
attribute vec2 a_texcoord;
uniform mat3 u_positionMatrix;
uniform mat3 u_texcoordMatrix;
varying vec2 v_texcoord;
void main() {
    gl_Position = vec4((u_positionMatrix*vec3(a_position,1)).xy,0,1);
    v_texcoord = (u_texcoordMatrix*vec3(a_texcoord,1.0)).xy;
}";
     fragmentSource := "precision mediump float;
uniform sampler2D u_image;
uniform vec4 u_blend;
varying vec2 v_texcoord;
void main() {
    gl_FragColor = texture2D(u_image,v_texcoord)*u_blend;
}";
     useTexture := true;
     names := {| Names.positionAttribute := "a_position";
                 Names.positionUniform := "u_positionMatrix";
                 Names.blendUniform := "u_blend";
                 Names.textureAttribute := Some "a_texcoord";
                 Names.textureUniform := Some "u_texcoordMatrix" |} |}.

Definition defaultPrimitiveOptions : ShaderOptions :=
  {| vertexSource := "attribute vec2 a_position;
uniform mat3 u_positionMatrix;
void main() {
    gl_Position = vec4((u_positionMatrix*vec3(a_position,1)).xy,0,1);
}";
     fragmentSource := "precision mediump float;
uniform vec4 u_blend;
void main() {
    gl_FragColor = u_blend;
}";
     useTexture := false;
     names := {| Names.positionAttribute := "a_position";
                 Names.positionUniform := "u_positionMatrix";
                 Names.blendUniform := "u_blend";
                 Names.textureAttribute := Some "a_texcoord";
                 Names.textureUniform := None |} |}.

Definition defaultPositionOrder : list Q := [0; 0; 0; 1; 1; 1; 1; 1; 1; 0; 0; 0].
Definition defaultTriangleOrder : list Q := [0; 0; 1 # 2; 1 # 2].

(** [Shader.init] *)
Definition init (viewWidth_ viewHeight_ : Q) (displayWidth_ displayHeight_ : option Q)
    (imageOptions primitiveOptions : option ShaderOptions)
    (positionOrder_ triangleOrder_ : option (list Q)) : M unit :=
  (* Call before your animation loop begins *)
  modify (with_Shader (set_orders (default defaultPositionOrder positionOrder_)
                                  (default defaultTriangleOrder triangleOrder_)));;
  modify (with_Shader (set_currentProgram None));;
  modify (with_Shader (set_internalTimer 0));;
  img ← Shader_new (default defaultImageOptions imageOptions);
  modify (with_Shader (set_imageShader img));;
  prim ← Shader_new (default defaultPrimitiveOptions primitiveOptions);
  modify (with_Shader (set_primitiveShader prim));;
  (* Init gl *)
  smooth ← gets (contextImageSmoothing ∘ Shader);
  call (ctx_imageSmoothingEnabled smooth);;
  call (gl_clearColor 0 0 0 1);;
  call gl_clear;;
  call (gl_disable DEPTH_TEST);;
  call (gl_enable BLEND);;
  call gl_blendFunc;;
  (* Set up game texture *)
  h ← gets host;
  if negb (h_createTexture h) then throw (ShaderError FailedToCreateTexture) else
  tex ← gl_create;
  modify (with_Shader (set_gameTexture tex));;
  setProjection viewWidth_ viewHeight_ displayWidth_ displayHeight_;;
  call (gl_texParameteri TEXTURE_MAG_FILTER NEAREST);;
  call (gl_texParameteri TEXTURE_MIN_FILTER NEAREST);;
  call (gl_texParameteri TEXTURE_WRAP_S CLAMP_TO_EDGE);;
  call (gl_texParameteri TEXTURE_WRAP_T CLAMP_TO_EDGE);;
  if negb (h_createFramebuffer h) then throw (ShaderError FailedToCreateFrameBuffer) else
  fb ← gl_create;
  modify (with_Shader (set_frameBuffer fb));;
  call (gl_bindFramebuffer (Some fb));;
  call (gl_framebufferTexture2D tex).

(** [Shader.beginRender] *)
Definition beginRender : M unit :=
  (* Call at the start of each frame *)
  fb ← gets (frameBuffer ∘ Shader);
  call (gl_bindFramebuffer fb);;
  vw ← gets (viewWidth ∘ Shader);
  vh ← gets (viewHeight ∘ Shader);
  call (gl_viewport 0 0 vw vh);;
  bg ← gets (backgroundColor ∘ Shader);
  bg ← deref bg;
  call (gl_clearColor (bg_red bg) (bg_green bg) (bg_blue bg) 1);;
  call gl_clear;;
  call (ctx_clearRect 0 0 vw vh);;
  call ctx_save;;
  atlas ← gets (atlasTexture ∘ Shader);
  call (gl_bindTexture atlas);;
  img ← gets (imageShader ∘ Shader);
  img ← deref img;
  use img None;;
  s ← shader img;
  call (gl_uniform4f (blendUniform s) (VNum 1) (VNum 1) (VNum 1) (VNum 1));;
  modify (with_Shader (fun s => set_internalTimer (internalTimer s + 1) s));;
  t ← gets (internalTimer ∘ Shader);
  if (4096 <? t)%Z then modify (with_Shader (set_internalTimer 0)) else ret tt.

(** ** The [draw] functions *)

(** The primitive shader, or the image shader, of [Shader]. *)
Definition the_primitiveShader : M ref :=
  s ← gets (primitiveShader ∘ Shader); deref s.

Definition the_imageShader : M ref :=
  s ← gets (imageShader ∘ Shader); deref s.

Definition preparePrimitive (positions : list Q) (rcol g b a : jsval) : M unit :=
  prim ← the_primitiveShader;
  use prim (Some positions);;
  s ← shader prim;
  match instanceof_Color rcol with
  | Some c =>
      call (gl_uniform4f (blendUniform s)
              (VNum (red c)) (VNum (green c)) (VNum (blue c)) (VNum (alpha c)))
  | None =>
      if defined g && defined b then
        call (gl_uniform4f (blendUniform s) rcol g b (alpha_or_1 a))
      else
        throw (DrawError rcol g b a)
  end.

Definition drawLine (x y x2 y2 : Q) (rcol g b a : jsval) : M unit :=
  let positions := [x; y; x2; y2] in
  preparePrimitive positions rcol g b a;;
  call (gl_drawArrays LINES 0 2).

Definition drawRect (x y x2 y2 : Q) (rcol g b a : jsval) : M unit :=
  let positions := [
    x; y2; x; y; x2; y;
    x2; y; x2; y2; x; y2
  ] in
  preparePrimitive positions rcol g b a;;
  call (gl_drawArrays TRIANGLES 0 6).

(** [theta + step], where either may already be infinite. *)
Definition advance (theta step : option Q) : option Q :=
  match theta, step with
  | Some t, Some d => Some (t + d)
  | _, _ => None
  end.

(** The loop of [drawCircle]: [n] more rounds of
    [for (let i = 0; i <= segments; i++)]. *)
Fixpoint circle_loop (h : Host) (x y radius : Q) (step : option Q)
    (n : nat) (theta : option Q) (positions : list Q) : M (list Q) :=
  match n with
  | O => ret positions
  | S n =>
      t ← finite theta;
      let positions := positions ++ [x + radius * h_cos h t] in
      let positions := positions ++ [y + radius * h_sin h t] in
      circle_loop h x y radius step n (advance theta step) positions
  end.

Definition drawCircle (x y radius : Q) (segments : Z) (rcol g b a : jsval) : M unit :=
  h ← gets host;
  let positions := [x; y] in
  (* Push each successive segment onto position attribute *)
  let theta := Some 0 in
  positions ← circle_loop h x y radius (js_div (h_PI h * 2) (inject_Z segments))
                 (Z.to_nat (segments + 1)) theta positions;
  preparePrimitive positions rcol g b a;;
  call (gl_drawArrays TRIANGLE_FAN 0 (inject_Z segments + 2)).

Definition drawPrimitive (mode : Mode) (positions : list Q) (rcol g b a : jsval) : M unit :=
  preparePrimitive positions rcol g b a;;
  call (gl_drawArrays mode 0 (js_length positions / 2)).

(** The image that a sprite draw selects, the step [Limit our image] of
    [drawSprite]:
    [image = Math.floor(image);
     if (!sprite.images[image]) { image %= sprite.images.length; }] *)
Definition limitImage (sprite : Sprite) (image : Q) : M Q :=
  let image := Math_floor image in
  match js_index (images sprite) image with
  | Some _ => ret image
  | None => finite (js_rem image (js_length (images sprite)))
  end.

Definition drawSprite (sprite : Sprite) (image x y : Q)
    (transformFn : option (ref -> M ref)) (rcol g b a : jsval) : M unit :=
  img ← the_imageShader;
  use img None;;
  (* Limit our image *)
  image ← limitImage sprite image;
  (* Set position matrix *)
  proj ← gets (projection ∘ Shader);
  proj ← deref proj;
  mat ← Matrix.copy proj;
  mat ← Matrix.translate mat x y;
  mat ← Matrix.scale mat (width sprite) (height sprite);
  (* Chain more transformations here! *)
  mat ← match transformFn with
        | Some f => f mat
        | None => ret mat
        end;
  (* Move by sprite's origin - do after transformations so its still relevant in clipspace *)
  (if negb (Qeq_bool (originX sprite) 0) || negb (Qeq_bool (originY sprite) 0) then
     ox ← finite (js_div (- originX sprite) (width sprite));
     oy ← finite (js_div (- originY sprite) (height sprite));
     Matrix.translate mat ox oy;; ret tt
   else ret tt);;
  s ← shader img;
  vs ← Matrix.values mat;
  call (gl_uniformMatrix3fv (Some (positionMatrix s)) vs);;
  i ← deref (js_index (images sprite) image);
  call (gl_uniformMatrix3fv (textureMatrix s) (img_t i));;
  match instanceof_Color rcol with
  | Some c =>
      call (gl_uniform4f (blendUniform s)
              (VNum (red c)) (VNum (green c)) (VNum (blue c)) (VNum (alpha c)))
  | None =>
      if defined rcol && defined g && defined b then
        call (gl_uniform4f (blendUniform s) rcol g b (alpha_or_1 a))
      else
        call (gl_uniform4f (blendUniform s) (VNum 1) (VNum 1) (VNum 1) (VNum 1))
  end;;
  call (gl_drawArrays TRIANGLES 0 6).



(** ** [resizeCanvas] *)

Definition resizeCanvas : M unit :=
  r ← gets (responsive ∘ Shader);
  aspect ← gets (maintainAspectRatio ∘ Shader);
  vw ← gets (viewWidth ∘ Shader);
  vh ← gets (viewHeight ∘ Shader);
  iw ← gets innerWidth;
  ih ← gets innerHeight;
  match r with
  | responsive_stretch =>
      if aspect then
        ratio ← finite (js_div vw vh);
        if negb (Qle_bool iw ih) then
          let newHeight := ih in
          let newWidth := newHeight * ratio in
          setProjection newWidth newHeight None None
        else
          let newWidth := iw in
          newHeight ← finite (js_div newWidth ratio);
          setProjection newWidth newHeight None None
      else
        setProjection iw ih None None
  | responsive_scale =>
      if aspect then
        scale ← (if negb (Qle_bool ih iw) then finite (js_div iw vw)
                 else finite (js_div ih vh));
        let scale := Math_max scale 1 in
        perfect ← gets (scalePerfectly ∘ Shader);
        let scale := if perfect then Math_floor scale else scale in
        setProjection vw vh (Some (vw * scale)) (Some (vh * scale))
      else
        setProjection vw vh (Some iw) (Some ih)
  | responsive_static => ret tt
  end.

(** ** Notions used to state the properties *)

(** *** Matrices *)

(** Equality of homogeneous vectors and of points, coefficient by
    coefficient. *)
Definition vec_eq (u v : Q * Q * Q) : Prop :=
  u.1.1 == v.1.1 /\ u.1.2 == v.1.2 /\ u.2 == v.2.

Definition point_eq (p q : Q * Q) : Prop := p.1 == q.1 /\ p.2 == q.2.

(** The coefficients of a matrix after a chain of transformations: every
    call multiplies by its elementary matrix on the left. *)
Definition chain_product (h : Host) (ts : list transformation) (a : list Q) : list Q :=
  fold_left (fun acc t => mat_product (elementary h t) acc) ts a.

(** The elementary matrices of a chain acting on a vector one after the
    other, in the order in which the calls are written. *)
Definition chain_action (h : Host) (ts : list transformation) (v : Q * Q * Q) : Q * Q * Q :=
  fold_left (fun v t => mat_vec (elementary h t) v) ts v.

(** The world after [m.translate(..)], [m.rotate(..)] or [m.scale(..)] on
    the instance [m] with coefficients [a]: one new instance holds the
    elementary matrix, and [m] holds the product. *)
Definition transformed (t : transformation) (m : ref) (a : list Q) (w : world) : world :=
  with_matrices (insert m (mat_product (elementary (host w) t) a))
    (with_matrices (insert (fresh (dom (matrices w))) (elementary (host w) t)) w).

(** Affine form as the code stores it: the coefficients at indices 2, 5
    and 8 are 0, 0 and 1. *)
Definition affine (vs : list Q) : Prop :=
  (9 <= length vs)%nat /\ nth 2 vs 0 == 0 /\ nth 5 vs 0 == 0 /\ nth 8 vs 0 == 1.

(** The coefficients at indices 6, 7 and 8 are 0, 0 and 1. *)
Definition last_three_001 (vs : list Q) : Prop :=
  nth 6 vs 0 == 0 /\ nth 7 vs 0 == 0 /\ nth 8 vs 0 == 1.

(** The matrices that the exposed operations build, starting from the
    identity or from a projection. *)
Inductive mexpr :=
| Identity
| Projection (viewWidth viewHeight : Q)
| Copied (e : mexpr)
| Transformed (e : mexpr) (t : transformation)
| Multiplied (e1 e2 : mexpr).

(** [new Matrix(Matrix.identity)], [Matrix.projection(w, h)], [e.copy()],
    [e.translate(..)] (or [rotate], [scale]) and [e1.multiply(e2)]. *)
Fixpoint build (e : mexpr) : M ref :=
  match e with
  | Identity => Matrix.new Matrix.identity
  | Projection vw vh => Matrix.projection vw vh
  | Copied e => m ← build e; Matrix.copy m
  | Transformed e t => m ← build e; transform t m
  | Multiplied e1 e2 => m1 ← build e1; m2 ← build e2; Matrix.multiply m1 m2
  end.

(** Every projection in the expression has a width and a height other
    than zero. *)
Fixpoint sized (e : mexpr) : Prop :=
  match e with
  | Identity => True
  | Projection vw vh => ~ vw == 0 /\ ~ vh == 0
  | Copied e | Transformed e _ => sized e
  | Multiplied e1 e2 => sized e1 /\ sized e2
  end.

(** *** Frames *)

(** [n] frames, each of which starts with [Shader.beginRender()]. *)
Fixpoint frames (n : nat) : M unit :=
  match n with
  | O => ret tt
  | S n => beginRender;; frames n
  end.

(** [Shader.init] has set up the image shader (and a background colour is
    set), or the primitive shader. *)
Definition image_ready (w : world) : Prop :=
  exists (r : ref) (s : ShaderObj) (bg : RGB),
    imageShader (Shader w) = Some r /\ shaders w !! r = Some s /\
    backgroundColor (Shader w) = Some bg.

Definition primitive_ready (w : world) : Prop :=
  exists (r : ref) (s : ShaderObj),
    primitiveShader (Shader w) = Some r /\ shaders w !! r = Some s.

(** *** Primitive draws *)

Inductive primitive :=
| Line (x y x2 y2 : Q)
| Rect (x y x2 y2 : Q)
| Circle (x y radius : Q) (segments : Z)
| Primitive (mode : Mode) (positions : list Q).

(** [draw.line], [draw.rect], [draw.circle], [draw.primitive] *)
Definition draw_primitive (p : primitive) (rcol g b a : jsval) : M unit :=
  match p with
  | Line x y x2 y2 => drawLine x y x2 y2 rcol g b a
  | Rect x y x2 y2 => drawRect x y x2 y2 rcol g b a
  | Circle x y radius segments => drawCircle x y radius segments rcol g b a
  | Primitive mode positions => drawPrimitive mode positions rcol g b a
  end.

(** The colour arguments cannot be parsed: the first is not a [Color] and
    the green or the blue component is [undefined]. *)
Definition unparseable (rcol g b : jsval) : bool :=
  match instanceof_Color rcol with
  | Some _ => false
  | None => negb (defined g) || negb (defined b)
  end.

(** *** Sprite draws *)




(** [u_positionMatrix * vec3(a_position, 1)], all three coordinates of it,
    where [v] is the vector. *)
Definition shader_vec3 (values : list Q) (v : Q * Q * Q) : Q * Q * Q :=
  let '(x, y, z) := v in
  (nth 0 values 0 * x + nth 3 values 0 * y + nth 6 values 0 * z,
   nth 1 values 0 * x + nth 4 values 0 * y + nth 7 values 0 * z,
   nth 2 values 0 * x + nth 5 values 0 * y + nth 8 values 0 * z).

(** *** Responsive scaling *)

(** The factor of the [scale] strategy as the code computes it: the height
    ratio unless the window is taller than wide, then at least 1, then
    floored if [scalePerfectly]. *)
Definition scale_factor (vw vh iw ih : Q) (perfect : bool) : Q :=
  let scale := if negb (Qle_bool ih iw) then iw / vw else ih / vh in
  let scale := Math_max scale 1 in
  if perfect then Math_floor scale else scale.


(** ** A concrete run: the example application *)

(** A host on which the default shaders compile, link and resolve.  (Its
    [Math] is a rational stand-in, exact at the angle 0.) *)
Definition example_host : Host :=
  {| h_cos := fun _ => 1;
     h_sin := fun _ => 0;
     h_PI := 355 # 113;
     h_createShader := fun _ => true;
     h_COMPILE_STATUS := fun _ => true;
     h_shaderInfoLog := fun _ => "";
     h_createProgram := true;
     h_LINK_STATUS := fun _ => true;
     h_programInfoLog := fun _ => "";
     h_attribLocation := fun _ name =>
       if String.eqb name "a_position" then 0%Z
       else if String.eqb name "a_texcoord" then 1%Z
       else (-1)%Z;
     h_hasUniform := fun _ name =>
       String.eqb name "u_positionMatrix" || String.eqb name "u_texcoordMatrix"
       || String.eqb name "u_blend" || String.eqb name "u_image";
     h_createBuffer := true;
     h_createTexture := true;
     h_createFramebuffer := true |}.

(** The state in which [initialize] calls [Shader.init], for the options of
    [src/main.js], in a window of the given size. *)
Definition before_init (h : Host) (iw ih : Q) : world :=
  {| host := h; calls := []; gl_fresh := 1%positive;
     matrices := ∅; shaders := ∅;
     innerWidth := iw; innerHeight := ih;
     cv_width := 400; cv_height := 240;
     Shader :=
       {| positionOrder := []; triangleOrder := [];
          currentProgram := None; internalTimer := 0;
          imageShader := None; primitiveShader := None;
          gameTexture := None; atlasTexture := None; frameBuffer := None;
          viewWidth := 0; viewHeight := 0; displayWidth := 0; displayHeight := 0;
          projection := None;
          backgroundColor := Some {| bg_red := 1 # 10; bg_green := 5 # 100; bg_blue := 5 # 100 |};
          responsive := responsive_scale;
          maintainAspectRatio := true;
          scalePerfectly := true;
          contextImageSmoothing := false |} |}.

(** [Shader.init(gl, ctx, 400, 240, undefined, undefined, ...)] *)
Definition example_init (iw ih : Q) : outcome unit :=
  init 400 240 None None None None None None (before_init example_host iw ih).

(** The world after [Shader.init], in a window of 850 by 500. *)
Definition example_world : world := final (example_init 850 500).

(** [spr.mario] and [spr.bowser] *)
Definition mario : Sprite :=
  {| width := 16; height := 32; originX := 8; originY := 0;
     images := [
       {| img_x := 32; img_y := 0; img_t := [1 # 32; 0; 0; 0; 1 # 16; 0; 1 # 16; 0; 1] |};
       {| img_x := 64; img_y := 0; img_t := [1 # 32; 0; 0; 0; 1 # 16; 0; 1 # 8; 0; 1] |};
       {| img_x := 96; img_y := 0; img_t := [1 # 32; 0; 0; 0; 1 # 16; 0; 3 # 16; 0; 1] |};
       {| img_x := 128; img_y := 0; img_t := [1 # 32; 0; 0; 0; 1 # 16; 0; 1 # 4; 0; 1] |}
     ] |}.

Definition bowser : Sprite :=
  {| width := 28; height := 42; originX := 0; originY := 0;
     images := [
       {| img_x := 0; img_y := 0; img_t := [7 # 128; 0; 0; 0; 21 # 256; 0; 0; 0; 1] |}
     ] |}.

(** A store with two matrices: the identity, and a translation by (2, 3). *)
Definition two_matrices : world :=
  with_matrices (insert 2%positive (Matrix.translation 2 3))
    (with_matrices (insert 1%positive Matrix.identity) (before_init example_host 850 500)).

(** ** Worlds reached by the operations *)

(** Every instance of the store [w] is an instance of [w'], with the
    coefficients it had. *)
Definition kept (w w' : world) : Prop :=
  forall (r : ref) (vs : list Q), matrices w !! r = Some vs -> matrices w' !! r = Some vs.

(** The world after [this.use(positions)] on the instance [this] with
    fields [s]: the buffer is bound, filled and wired to the position
    attribute, and the program is made current, by [gl.useProgram] unless it
    is current already. *)
Definition used (this : ref) (s : ShaderObj) (positions : list Q) (w : world) : world :=
  with_calls (fun cs =>
      (if decide (currentProgram (Shader w) = Some this) then []
       else [gl_useProgram (program s)])
      ++ gl_vertexAttribPointer (positionAttribute s)
      :: gl_bufferData positions STATIC_DRAW
      :: gl_bindBuffer (buffer s) :: cs)
    (with_Shader (set_currentProgram (Some this)) w).

(** The frame timer after one more [beginRender]. *)
Definition next_timer (t : Z) : Z := if (4096 <? t + 1)%Z then 0%Z else (t + 1)%Z.

(** ** Shader construction *)

(** The program that the constructor links from the sources of [opt]. *)
Definition program_of (opt : ShaderOptions) : WebGLProgram :=
  {| pr_vertex := {| sh_type := VERTEX_SHADER; sh_source := vertexSource opt |};
     pr_fragment := {| sh_type := FRAGMENT_SHADER; sh_source := fragmentSource opt |} |}.

(** Both shaders are created and compile, and the program is created and
    links. *)
Definition compiles_and_links (h : Host) (opt : ShaderOptions) : Prop :=
  h_createShader h VERTEX_SHADER = true
  /\ h_COMPILE_STATUS h (pr_vertex (program_of opt)) = true
  /\ h_createShader h FRAGMENT_SHADER = true
  /\ h_COMPILE_STATUS h (pr_fragment (program_of opt)) = true
  /\ h_createProgram h = true
  /\ h_LINK_STATUS h (program_of opt) = true.

(** The linked program lacks a required name: the position attribute, the
    position-matrix uniform or the blend uniform, or, for a shader that
    uses a texture, the texture attribute or the texture-matrix uniform. *)
Definition lacks_required_slot (h : Host) (opt : ShaderOptions) : Prop :=
  let p := program_of opt in
  let n := names opt in
  h_attribLocation h p (Names.positionAttribute n) = (-1)%Z
  \/ h_hasUniform h p (Names.positionUniform n) = false
  \/ h_hasUniform h p (Names.blendUniform n) = false
  \/ (useTexture opt = true
      /\ (h_attribLocation h p (or_empty (Names.textureAttribute n)) = (-1)%Z
          \/ h_hasUniform h p (or_empty (Names.textureUniform n)) = false)).

(** The messages of the [ShaderError]s about a name that is not found. *)
Definition not_found (m : ShaderErrorMessage) : bool :=
  match m with
  | PositionAttributeNotFound _ | PositionUniformNotFound _ | BlendUniformNotFound _
  | TextureAttributeNotFound _ | TextureUniformNotFound _ => true
  | _ => false
  end.

(** The commands that compile the two shaders and link the program. *)
Definition linked (opt : ShaderOptions) (w : world) : world :=
  let p := program_of opt in
  with_calls (fun cs =>
      gl_linkProgram p
      :: gl_attachShader (pr_fragment p) :: gl_attachShader (pr_vertex p)
      :: gl_compileShader (pr_fragment p) :: gl_shaderSource (pr_fragment p)
      :: gl_compileShader (pr_vertex p) :: gl_shaderSource (pr_vertex p) :: cs) w.

(** A host whose programs have no [u_blend]. *)
Definition blendless_host : Host :=
  {| h_cos := h_cos example_host;
     h_sin := h_sin example_host;
     h_PI := h_PI example_host;
     h_createShader := h_createShader example_host;
     h_COMPILE_STATUS := h_COMPILE_STATUS example_host;
     h_shaderInfoLog := h_shaderInfoLog example_host;
     h_createProgram := h_createProgram example_host;
     h_LINK_STATUS := h_LINK_STATUS example_host;
     h_programInfoLog := h_programInfoLog example_host;
     h_attribLocation := h_attribLocation example_host;
     h_hasUniform := fun p name =>
       negb (String.eqb name "u_blend") && h_hasUniform example_host p name;
     h_createBuffer := h_createBuffer example_host;
     h_createTexture := h_createTexture example_host;
     h_createFramebuffer := h_createFramebuffer example_host |}.

(** * More of [build/main.js] *)

(** ** [Color.prototype.invert] *)

(** Each difference is rounded to a double; [None] where one of them is
    an infinity. *)
Definition invert (this : Color) : option Color :=
  match js_sub 1 (red this), js_sub 1 (green this), js_sub 1 (blue this) with
  | Some r, Some g, Some b => Some (Color_new r g b (Some (alpha this)))
  | _, _, _ => None
  end.

(** Every channel lies between 0 and 1. *)
Definition in_gamut (c : Color) : Prop :=
  0 <= red c <= 1 /\ 0 <= green c <= 1 /\ 0 <= blue c <= 1 /\ 0 <= alpha c <= 1.

(** ** [Color.fromHex] *)

(** Strings are read as their characters, one code unit each (the
    characters below 256). *)

(** [hex.replace('#', '')]: the first ['#'] is removed. *)
Fixpoint remove_first_hash (hex : string) : string :=
  match hex with
  | EmptyString => EmptyString
  | String c rest => if Ascii.eqb c "#" then rest else String c (remove_first_hash rest)
  end.

(** The value of a digit in radix 16. *)
Definition hex_digit (c : ascii) : option Z :=
  let n := Z.of_N (N_of_ascii c) in
  if (48 <=? n)%Z && (n <=? 57)%Z then Some (n - 48)%Z
  else if (97 <=? n)%Z && (n <=? 102)%Z then Some (n - 87)%Z
  else if (65 <=? n)%Z && (n <=? 70)%Z then Some (n - 55)%Z
  else None.

(** The white space that [parseInt] skips, among the characters below 256:
    TAB, LF, VT, FF, CR, SP and NBSP. *)
Definition is_whitespace (c : ascii) : bool :=
  let n := Z.of_N (N_of_ascii c) in
  ((9 <=? n)%Z && (n <=? 13)%Z) || (n =? 32)%Z || (n =? 160)%Z.

Fixpoint skip_whitespace (s : string) : string :=
  match s with
  | EmptyString => EmptyString
  | String c rest => if is_whitespace c then skip_whitespace rest else s
  end.

(** The digits of the longest prefix of [s] made of digits in radix 16. *)
Fixpoint hex_prefix (s : string) : list Z :=
  match s with
  | EmptyString => []
  | String c rest =>
      match hex_digit c with
      | Some v => v :: hex_prefix rest
      | None => []
      end
  end.

(** [parseInt(s, 16)]: white space is skipped, then a sign, then [0x] or
    [0X], and the longest prefix of digits is read; [None] is NaN. *)
Definition parseInt16 (s : string) : option Z :=
  let s := skip_whitespace s in
  let '(sign, s) :=
    match s with
    | String c rest =>
        if Ascii.eqb c "-" then ((-1)%Z, rest)
        else if Ascii.eqb c "+" then (1%Z, rest)
        else (1%Z, s)
    | EmptyString => (1%Z, s)
    end in
  let s :=
    match s with
    | String c0 (String c1 rest) =>
        if Ascii.eqb c0 "0" && (Ascii.eqb c1 "x" || Ascii.eqb c1 "X") then rest else s
    | _ => s
    end in
  match hex_prefix s with
  | [] => None
  | digits => Some (sign * fold_left (fun acc d => 16 * acc + d) digits 0)%Z
  end.

(** What [Color.fromHex] does: it returns a colour, or throws a
    [ColorError]; [FromHex_NaN] stands for a colour with a channel that is
    not a number. *)
Inductive fromHex_result :=
| FromHex (c : Color)
| FromHex_NaN
| FromHex_ColorError.

Definition fromHex (hex : string) (alpha : option Q) : fromHex_result :=
  let hex := remove_first_hash hex in
  match hex with
  | String h0 (String h1 (String h2 (String h3 (String h4 (String h5 EmptyString))))) =>
      match parseInt16 (String h0 (String h1 EmptyString)),
            parseInt16 (String h2 (String h3 EmptyString)),
            parseInt16 (String h4 (String h5 EmptyString)) with
      | Some r, Some g, Some b =>
          FromHex (Color_new (inject_Z r / 255) (inject_Z g / 255) (inject_Z b / 255) alpha)
      | _, _, _ => FromHex_NaN
      end
  | _ =>
      (* hex.length !== 6 *)
      FromHex_ColorError
  end.

(** ** Callbacks of [drawSprite] *)

(** A [transformFn] that chains transformations:
    [mat => mat.op1(..).op2(..)...] *)
Definition callback (ts : list transformation) : ref -> M ref := fun m => chain m ts.

(** [mat => mat.scale(-1, 1)] and
    [m => m.translate(0.5, 0.5).rotate(n).scale(newScale, newScale).translate(-0.5, -0.5)],
    the callbacks of [main]. *)
Definition flip_horizontally : list transformation := [Scale (-1) 1].

Definition spin_about_centre (n newScale : Q) : list transformation :=
  [Translate (1 # 2) (1 # 2); Rotate n; Scale newScale newScale;
   Translate (- (1 # 2)) (- (1 # 2))].

(** How the shader reads a chain: the transformation written last acts on
    the point first. *)
Definition chain_shader (h : Host) (ts : list transformation) (q : Q * Q) : Q * Q :=
  fold_right (fun t q => shader_position (elementary h t) q) q ts.

(** The image shader and the projection are in place. *)
Definition sprite_ready (w : world) : Prop :=
  exists (r : ref) (s : ShaderObj) (p : ref) (vs : list Q),
    imageShader (Shader w) = Some r /\ shaders w !! r = Some s /\
    projection (Shader w) = Some p /\ matrices w !! p = Some vs /\ (9 <= length vs)%nat.

(** Nothing but the store of matrices differs. *)
Definition same_but_matrices (w w' : world) : Prop :=
  host w' = host w /\ calls w' = calls w /\ gl_fresh w' = gl_fresh w
  /\ shaders w' = shaders w /\ Shader w' = Shader w.

(** The blend that [drawSprite] sets. *)
Definition sprite_blend (rcol g b a : jsval) : jsval * jsval * jsval * jsval :=
  match instanceof_Color rcol with
  | Some c => (VNum (red c), VNum (green c), VNum (blue c), VNum (alpha c))
  | None =>
      if defined rcol && defined g && defined b then (rcol, g, b, alpha_or_1 a)
      else (VNum 1, VNum 1, VNum 1, VNum 1)
  end.

(** [sprite.originX !== 0 || sprite.originY !== 0] *)
Definition has_origin (sprite : Sprite) : bool :=
  negb (Qeq_bool (originX sprite) 0) || negb (Qeq_bool (originY sprite) 0).

(** The position matrix that [drawSprite] uploads, from the coefficients
    [vs] of the projection. *)
Definition sprite_matrix (h : Host) (sprite : Sprite) (x y : Q) (ts : list transformation)
    (vs : list Q) : list Q :=
  let m := chain_product h ts
             (mat_product (Matrix.scaling (width sprite) (height sprite))
                (mat_product (Matrix.translation x y) vs)) in
  if has_origin sprite then
    mat_product (Matrix.translation (- originX sprite / width sprite)
                                    (- originY sprite / height sprite)) m
  else m.

(** ** Programs and shader instances *)

Definition is_useProgram (c : Call) : bool :=
  match c with gl_useProgram _ => true | _ => false end.

(** How often [gl.useProgram] was called. *)
Definition program_binds (cs : list Call) : nat := length (filter is_useProgram cs).

(** The host compiles and links the program of [opt], the program has
    every required name, and a buffer can be created. *)
Definition constructible (h : Host) (opt : ShaderOptions) : Prop :=
  compiles_and_links h opt /\ ~ lacks_required_slot h opt /\ h_createBuffer h = true.

(** The fields of the instance that [new Shader(opt)] builds on the host
    [h], around the buffer [b]. *)
Definition shader_object (h : Host) (opt : ShaderOptions) (b : WebGLObject) : ShaderObj :=
  let p := program_of opt in
  {| program := p;
     positionAttribute := h_attribLocation h p (Names.positionAttribute (names opt));
     positionMatrix := {| ul_program := p; ul_name := Names.positionUniform (names opt) |};
     blendUniform := {| ul_program := p; ul_name := Names.blendUniform (names opt) |};
     textureAttribute :=
       if useTexture opt
       then Some (h_attribLocation h p (or_empty (Names.textureAttribute (names opt))))
       else None;
     textureMatrix :=
       if useTexture opt
       then Some {| ul_program := p; ul_name := or_empty (Names.textureUniform (names opt)) |}
       else None;
     buffer := b |}.

(** The world after a successful [new Shader(opt)]. *)
Definition constructed (opt : ShaderOptions) (w : world) : world :=
  let s := shader_object (host w) opt (gl_fresh w) in
  with_shaders (insert (fresh (dom (shaders w))) s)
    (with_calls (fun cs =>
         match textureAttribute s with
         | Some a =>
             if (a =? 0)%Z then []
             else [gl_vertexAttribPointer a; gl_enableVertexAttribArray a]
         | None => []
         end
         ++ gl_vertexAttribPointer (positionAttribute s)
         :: gl_enableVertexAttribArray (positionAttribute s)
         :: (if useTexture opt then gl_bufferData (positionOrder (Shader w)) STATIC_DRAW
             else gl_bufferData (triangleOrder (Shader w)) DYNAMIC_DRAW)
         :: gl_bindBuffer (gl_fresh w) :: cs)
       (with_gl_fresh Pos.succ (linked opt w))).

(** The world after [Shader.setProjection], where [prim] with fields [s]
    is the primitive shader. *)
Definition projected (vw vh : Q) (dw dh : option Q) (prim : ref) (s : ShaderObj)
    (w : world) : world :=
  let p := fresh (dom (matrices w)) in
  let vs := [2 / vw; 0; 0; 0; -2 / vh; 0; -1; 1; 1] in
  with_calls (cons (ctx_scale (num_or dw vw / vw) (num_or dh vh / vh)))
   (with_calls (cons ctx_setTransform)
   (with_calls (cons (ctx_imageSmoothingEnabled (contextImageSmoothing (Shader w))))
   (with_calls (cons (gl_texImage2D vw vh))
   (with_calls (cons (gl_bindTexture (gameTexture (Shader w))))
    (with_canvas (num_or dw vw) (num_or dh vh)
       (with_calls (cons (gl_uniformMatrix3fv (Some (positionMatrix s)) vs))
          (used prim s (positionOrder (Shader w))
             (with_Shader (set_projection p)
                (with_matrices (insert p vs)
                   (with_Shader (set_view vw vh (num_or dw vw) (num_or dh vh)) w)))))))))).

(** ** Sizes after [resizeCanvas] *)

(** The logical size that [resizeCanvas] asks for. *)
Definition resized_view (r : Responsive) (aspect : bool) (vw vh iw ih : Q) : Q * Q :=
  match r with
  | responsive_stretch =>
      if aspect then
        if negb (Qle_bool iw ih) then (ih * (vw / vh), ih) else (iw, iw / (vw / vh))
      else (iw, ih)
  | _ => (vw, vh)
  end.

(** The display size that [resizeCanvas] asks for. *)
Definition resized_display (r : Responsive) (aspect perfect : bool) (vw vh iw ih dw dh : Q)
  : Q * Q :=
  match r with
  | responsive_stretch => resized_view r aspect vw vh iw ih
  | responsive_scale =>
      if aspect then (vw * scale_factor vw vh iw ih perfect, vh * scale_factor vw vh iw ih perfect)
      else (iw, ih)
  | responsive_static => (dw, dh)
  end.

(** [Shader.responsive = ..; Shader.maintainAspectRatio = ..], as
    [initialize] assigns them from its options. *)
Definition set_responsive (r : Responsive) (aspect : bool) (s : Statics) : Statics :=
  {| positionOrder := positionOrder s;
     triangleOrder := triangleOrder s;
     currentProgram := currentProgram s;
     internalTimer := internalTimer s;
     imageShader := imageShader s;
     primitiveShader := primitiveShader s;
     gameTexture := gameTexture s;
     atlasTexture := atlasTexture s;
     frameBuffer := frameBuffer s;
     viewWidth := viewWidth s;
     viewHeight := viewHeight s;
     displayWidth := displayWidth s;
     displayHeight := displayHeight s;
     projection := projection s;
     backgroundColor := backgroundColor s;
     responsive := r;
     maintainAspectRatio := aspect;
     scalePerfectly := scalePerfectly s;
     contextImageSmoothing := contextImageSmoothing s |}.

(** ** The example application: [class Ball] *)

Module Ball.
Record t := {
  x : Q;
  y : Q;
  hspeed : Q;
  vspeed : Q;
  radius : Q;
  color : Color
}.

Definition set_x (v : Q) (this : t) : t :=
  {| x := v; y := y this; hspeed := hspeed this; vspeed := vspeed this;
     radius := radius this; color := color this |}.

Definition set_y (v : Q) (this : t) : t :=
  {| x := x this; y := v; hspeed := hspeed this; vspeed := vspeed this;
     radius := radius this; color := color this |}.

Definition set_hspeed (v : Q) (this : t) : t :=
  {| x := x this; y := y this; hspeed := v; vspeed := vspeed this;
     radius := radius this; color := color this |}.

Definition set_vspeed (v : Q) (this : t) : t :=
  {| x := x this; y := y this; hspeed := hspeed this; vspeed := v;
     radius := radius this; color := color this |}.

(** [a < b] *)
Definition lt (a b : Q) : bool := negb (Qle_bool b a).

(** [step()] *)
Definition step (this : t) : M t :=
  vw ← gets (viewWidth ∘ Shader);
  vh ← gets (viewHeight ∘ Shader);
  let this :=
    if lt (x this - radius this) 0 then
      set_hspeed (- hspeed this) (set_x (radius this + 1) this)
    else if lt vw (x this + radius this) then
      set_hspeed (- hspeed this) (set_x (vw - radius this - 1) this)
    else
      set_x (x this + hspeed this) this in
  let this :=
    if lt (y this - radius this) (vh / 2) then
      set_vspeed (- vspeed this) (set_y (vh / 2 + radius this + 1) this)
    else if lt vh (y this + radius this) then
      set_vspeed (- vspeed this) (set_y (vh - radius this - 1) this)
    else
      set_y (y this + vspeed this) this in
  drawCircle (x this) (y this) (radius this) 20 (VColor (color this))
    VUndefined VUndefined VUndefined;;
  ret this.
End Ball.

(** ** Text on the 2D context *)

(** The options of [drawText] and [drawTextWrap].  [lineBreakCharacters]
    is the pattern, as [char.match] decides it on a single character. *)
Record TextOptions := {
  hAlign : option string;
  vAlign : option string;
  fontSize : option Q;
  fontName : option string;
  drawShadow : bool;
  shadowOffsetX : option Q;
  shadowOffsetY : option Q;
  color : option string;
  maxWidth : option Q;
  lineSeparation : option Q;
  lineBreakCharacters : option (ascii -> bool)
}.

(** [opt?.field] *)
Definition opt_field {A} (field : TextOptions -> option A) (opt : option TextOptions)
  : option A :=
  match opt with Some o => field o | None => None end.

(** [s || d] on strings, where [s] may be absent. *)
Definition str_or (s : option string) (d : string) : string :=
  match s with
  | Some s => if String.eqb s "" then d else s
  | None => d
  end.

(** What is set and drawn on the 2D context, in the order of the calls. *)
Inductive CtxCommand :=
| ctx_textAlign (v : string)
| ctx_textBaseline (v : string)
| ctx_font (px : Q) (name : string)
| ctx_fillStyle (v : string)
| ctx_fillText (text : string) (x y : Q) (maxWidth : option Q).

Definition drawText (x y : Q) (text : string) (opt : option TextOptions) : list CtxCommand :=
  [ ctx_textAlign (str_or (opt_field hAlign opt) "left");
    ctx_textBaseline (str_or (opt_field vAlign opt) "top");
    ctx_font (num_or (opt_field fontSize opt) 10)
             (str_or (opt_field fontName opt) "sans-serif") ]
  ++ match opt with
     | Some o =>
         if drawShadow o then
           [ ctx_fillStyle "black";
             ctx_fillText text (x + default 1 (shadowOffsetX o))
                               (y + default 1 (shadowOffsetY o)) (maxWidth o) ]
         else []
     | None => []
     end
  ++ [ ctx_fillStyle (str_or (opt_field color opt) "white");
       ctx_fillText text x y (opt_field maxWidth opt) ].

(** [/ |\/|\\|-/g] tried on one character *)
Definition default_break (char : ascii) : bool :=
  Ascii.eqb char " " || Ascii.eqb char "/" || Ascii.eqb char "\" || Ascii.eqb char "-".

(** [char.match(opt?.lineBreakCharacters || / |\/|\\|-/g)] *)
Definition is_break (opt : option TextOptions) (char : ascii) : bool :=
  match opt_field lineBreakCharacters opt with
  | Some pattern => pattern char
  | None => default_break char
  end.

(** The loop [Figure out the text for each line] of [drawTextWrap], on the
    text from [position] on; [measureText s] is
    [ctx.measureText(s).width]. *)
Fixpoint wrap_loop (measureText : string -> Q) (opt : option TextOptions) (width : Q)
    (text : string) (current : string) (lines : list string) : list string :=
  match text with
  | EmptyString =>
      (* End of text *)
      lines ++ [current]
  | String char text =>
      if negb (Qle_bool (measureText current) width) && is_break opt char then
        (* Include all characters but spaces *)
        let current := if Ascii.eqb char " " then current else current +:+ String char "" in
        (* Reset to write the next line *)
        wrap_loop measureText opt width text "" (lines ++ [current])
      else
        (* Not a breaking character, or not wide enough yet *)
        wrap_loop measureText opt width text (current +:+ String char "") lines
  end.

(** Where each line is drawn: the [y] and the text of every call of
    [drawText]. *)
Definition line_positions (y : Q) (lines : list string) (opt : option TextOptions)
  : list (Q * string) :=
  let sep := num_or (opt_field lineSeparation opt) 16 in
  let startY :=
    match opt_field vAlign opt with
    | Some v =>
        if String.eqb v "middle" then y - ((js_length lines - 1) * sep) / 2
        else if String.eqb v "bottom" then y - (js_length lines - 1) * sep
        else y
    | None => y
    end in
  imap (fun l line => (startY + inject_Z (Z.of_nat l) * sep, line)) lines.

Definition drawTextWrap (measureText : string -> Q) (x y : Q) (text : string) (width : Q)
    (opt : option TextOptions) : list CtxCommand :=
  let lines := wrap_loop measureText opt width text "" [] in
  flat_map (fun '(yl, line) => drawText x yl line opt) (line_positions y lines opt).

(** The text that the lines were cut from: the lines one after the other,
    each but the last followed by a space where [dropped] says that one was
    dropped at its end. *)
Fixpoint restore (lines : list string) (dropped : list bool) : string :=
  match lines with
  | [] => ""
  | line :: lines =>
      match dropped with
      | d :: dropped => line +:+ (if d : bool then " " else "") +:+ restore lines dropped
      | [] => line +:+ restore lines []
      end
  end.

(** How a line was ended: at a space, which was dropped, or at another
    breaking character, which the line keeps as its last character; in
    both cases after what was written of the line had measured wider than
    [width]. *)
Definition line_end (measureText : string -> Q) (opt : option TextOptions) (width : Q)
    (line : string) (dropped : bool) : Prop :=
  if dropped then is_break opt " " = true /\ width < measureText line
  else
    exists (written : string) (char : ascii),
      line = written +:+ String char "" /\ char ≠ " "%char
      /\ is_break opt char = true /\ width < measureText written.

(** The line was ended at a breaking character, after what was written of it
    had measured wider than [width]. *)
Definition broken_after (measureText : string -> Q) (opt : option TextOptions) (width : Q)
    (line : string) : Prop :=
  exists written : string,
    width < measureText written
    /\ (line = written
        \/ exists char, is_break opt char = true /\ line = written +:+ String char "").

(** ** More of the example application *)

(** The image shader, the primitive shader and the projection of
    [example_world]. *)
Definition example_image : ShaderObj :=
  shader_object example_host defaultImageOptions 1%positive.

Definition example_primitive : ShaderObj :=
  shader_object example_host defaultPrimitiveOptions 2%positive.

Definition example_projection : list Q := [2 # 400; 0; 0; 0; -2 # 240; 0; -1; 1; 1].



(** A font in which every character is six pixels wide. *)
Definition example_measure (s : string) : Q := 6 * inject_Z (Z.of_nat (String.length s)).


(** * Properties *)

(** ** Running the monad *)

Lemma bind_Ret {A B} (m : M A) (f : A -> M B) (w w' : world) (a : A) :
  m w = Ret a w' -> bind m f w = f a w'.
Proof. intros H. unfold bind. by rewrite H. Qed.

Lemma bind_Throw {A B} (m : M A) (f : A -> M B) (w w' : world) (e : exn) :
  m w = Throw e w' -> bind m f w = Throw e w'.
Proof. intros H. unfold bind. by rewrite H. Qed.

Section Run.
Context {A B : Type}.
Implicit Types (k : A -> M B) (w : world).

Lemma run_ret (a : A) k w : bind (ret a) k w = k a w.
Proof. reflexivity. Qed.

Lemma run_throw (e : exn) k w : bind (throw e) k w = Throw e w.
Proof. reflexivity. Qed.

Lemma run_gets (f : world -> A) k w : bind (gets f) k w = k (f w) w.
Proof. reflexivity. Qed.

Lemma run_deref (a : A) k w : bind (deref (Some a)) k w = k a w.
Proof. reflexivity. Qed.

Lemma run_deref_None k w : bind (deref None) k w = Throw TypeError w.
Proof. reflexivity. Qed.

Lemma run_assoc {C} (m : M C) (f : C -> M A) k w :
  bind (bind m f) k w = bind m (fun c => bind (f c) k) w.
Proof. unfold bind. by destruct (m w). Qed.
End Run.

Section RunUnit.
Context {B : Type}.
Implicit Types (k : unit -> M B) (w : world).

Lemma run_call (c : Call) k w : bind (call c) k w = k tt (with_calls (cons c) w).
Proof. reflexivity. Qed.

Lemma run_modify (f : world -> world) k w : bind (modify f) k w = k tt (f w).
Proof. reflexivity. Qed.
End RunUnit.

Lemma run_finite {B} (q : Q) (k : Q -> M B) (w : world) :
  bind (finite (Some q)) k w = k q w.
Proof. reflexivity. Qed.

Lemma run_finite_None {B} (k : Q -> M B) (w : world) :
  bind (finite None) k w = NonFinite w.
Proof. reflexivity. Qed.

(** One step of a run, and a run as far as it is determined. *)
Ltac run_step :=
  first [ rewrite run_assoc | rewrite run_ret | rewrite run_gets | rewrite run_call
        | rewrite run_modify | rewrite run_deref | rewrite run_finite
        | rewrite run_throw | rewrite run_deref_None | rewrite run_finite_None ];
  cbv beta.

Ltac run := repeat run_step.

(** Projections of a world after assignments. *)
Ltac proj :=
  unfold compose;
  cbn [host calls gl_fresh matrices shaders innerWidth innerHeight cv_width cv_height Shader
       with_calls with_gl_fresh with_matrices with_shaders with_canvas with_Shader used
       positionOrder triangleOrder currentProgram internalTimer imageShader primitiveShader
       gameTexture atlasTexture frameBuffer viewWidth viewHeight displayWidth displayHeight
       projection backgroundColor responsive maintainAspectRatio scalePerfectly
       contextImageSmoothing
       set_orders set_currentProgram set_internalTimer set_imageShader set_primitiveShader
       set_gameTexture set_frameBuffer set_view set_projection set_backgroundColor].

Lemma js_div_Some (x y : Q) : ~ y == 0 -> js_div x y = Some (x / y).
Proof.
  intros H. unfold js_div. destruct (Qeq_bool y 0) eqn:E; [|done].
  apply Qeq_bool_iff in E. contradiction.
Qed.

(** ** [Matrix] *)

Lemma at_least9 {A} (l : list A) :
  (9 <= length l)%nat ->
  exists a0 a1 a2 a3 a4 a5 a6 a7 a8 tl,
    l = a0 :: a1 :: a2 :: a3 :: a4 :: a5 :: a6 :: a7 :: a8 :: tl.
Proof.
  intros H. do 9 (destruct l as [|? l]; [simpl in H; lia|]). eauto 12.
Qed.

Ltac nine a :=
  match goal with
  | H : (9 <= length a)%nat |- _ =>
      let E := fresh in
      destruct (at_least9 a H) as (?&?&?&?&?&?&?&?&?&?&E); subst a; clear H
  end.

Lemma mat_product_length (x y : list Q) : length (mat_product x y) = 9%nat.
Proof. reflexivity. Qed.

Lemma elementary_length (h : Host) (t : transformation) : length (elementary h t) = 9%nat.
Proof. by destruct t. Qed.

Lemma multiply_spec (A B : ref) (a b : list Q) (w : world) :
  matrices w !! A = Some a -> matrices w !! B = Some b ->
  (9 <= length a)%nat -> (9 <= length b)%nat ->
  Matrix.multiply A B w = Ret A (with_matrices (insert A (mat_product b a)) w).
Proof.
  intros HA HB La Lb. nine a. nine b.
  unfold Matrix.multiply, Matrix.values, bind, gets, deref. simpl.
  rewrite HA. simpl. rewrite HB. reflexivity.
Qed.

Lemma fresh_ne (w : world) (A : ref) (a : list Q) :
  matrices w !! A = Some a -> fresh (dom (matrices w)) ≠ A.
Proof.
  intros H E. apply (is_fresh (dom (matrices w))). rewrite E.
  apply elem_of_dom. eauto.
Qed.

Lemma multiply_new (A : ref) (a e : list Q) (w : world) :
  matrices w !! A = Some a -> (9 <= length a)%nat -> (9 <= length e)%nat ->
  bind (Matrix.new e) (Matrix.multiply A) w =
  Ret A (with_matrices (insert A (mat_product e a))
          (with_matrices (insert (fresh (dom (matrices w))) e) w)).
Proof.
  intros HA La Le. unfold bind at 1. simpl.
  apply multiply_spec; simpl; auto.
  - rewrite lookup_insert_ne; [done|]. by eapply fresh_ne.
  - by rewrite lookup_insert_eq.
Qed.

Lemma transform_spec (t : transformation) (A : ref) (a : list Q) (w : world) :
  matrices w !! A = Some a -> (9 <= length a)%nat ->
  transform t A w = Ret A (transformed t A a w).
Proof.
  intros HA La. destruct t; simpl.
  - unfold Matrix.translate. apply multiply_new; simpl; auto.
  - unfold Matrix.rotate. unfold bind at 1. simpl. apply multiply_new; simpl; auto.
  - unfold Matrix.scale. apply multiply_new; simpl; auto.
Qed.

Lemma transformed_lookup (t : transformation) (A : ref) (a : list Q) (w : world) :
  matrices (transformed t A a w) !! A = Some (mat_product (elementary (host w) t) a).
Proof. simpl. by rewrite lookup_insert_eq. Qed.

Lemma chain_spec (ts : list transformation) : forall (A : ref) (a : list Q) (w : world),
  matrices w !! A = Some a -> (9 <= length a)%nat ->
  exists w', chain A ts w = Ret A w' /\ host w' = host w /\
    matrices w' !! A = Some (chain_product (host w) ts a).
Proof.
  induction ts as [|t ts IH]; intros A a w HA La; simpl.
  - exists w. auto.
  - erewrite bind_Ret by (by apply transform_spec).
    destruct (IH A (mat_product (elementary (host w) t) a) (transformed t A a w))
      as (w' & E & Hh & Hm).
    + apply transformed_lookup.
    + by rewrite mat_product_length.
    + exists w'. split; [done|]. split; [by rewrite Hh|]. by rewrite Hm.
Qed.

(** The product of matrices acts as the composition. *)
Lemma mat_vec_product (x y : list Q) (v : Q * Q * Q) :
  vec_eq (mat_vec (mat_product x y) v) (mat_vec x (mat_vec y v)).
Proof.
  destruct v as [[vx vy] vz].
  unfold vec_eq, mat_vec, mat_product, entry.
  cbn [flat_map map app fst snd Nat.mul Nat.add nth].
  repeat split; ring.
Qed.

Lemma mat_vec_proper (m : list Q) (u v : Q * Q * Q) :
  vec_eq u v -> vec_eq (mat_vec m u) (mat_vec m v).
Proof.
  destruct u as [[ux uy] uz], v as [[vx vy] vz]. unfold vec_eq, mat_vec. simpl.
  intros (Hx & Hy & Hz). rewrite Hx, Hy, Hz. repeat split; reflexivity.
Qed.

Lemma vec_eq_refl (u : Q * Q * Q) : vec_eq u u.
Proof. unfold vec_eq. repeat split; reflexivity. Qed.

Lemma vec_eq_trans (u v x : Q * Q * Q) : vec_eq u v -> vec_eq v x -> vec_eq u x.
Proof.
  unfold vec_eq. intros (?&?&?) (?&?&?). repeat split; etransitivity; eauto.
Qed.

Lemma chain_action_proper (h : Host) (ts : list transformation) :
  forall u v, vec_eq u v -> vec_eq (chain_action h ts u) (chain_action h ts v).
Proof.
  induction ts as [|t ts IH]; intros u v H; simpl; [done|].
  apply IH. by apply mat_vec_proper.
Qed.

Lemma chain_product_action (h : Host) (ts : list transformation) :
  forall a v, vec_eq (mat_vec (chain_product h ts a) v) (chain_action h ts (mat_vec a v)).
Proof.
  induction ts as [|t ts IH]; intros a v; simpl.
  - apply vec_eq_refl.
  - eapply vec_eq_trans; [apply IH|].
    apply chain_action_proper, mat_vec_product.
Qed.

(** C1. [A.multiply(B)] returns [A], whose nine coefficients are now those
    of the product [B · A] of the two arrays read row-major, and changes
    nothing else.  So [translate], [rotate] and [scale] replace [this] by
    [E · this], for [E] the elementary matrix they build, and after a chain
    of such calls [this] holds the product of the elementary matrices with
    the first call innermost: acting on a vector, they apply in the order in
    which the calls are written. *)
Theorem multiply_post_multiplies (A B : ref) (a b : list Q) (w : world) :
  matrices w !! A = Some a -> matrices w !! B = Some b ->
  length a = 9%nat -> length b = 9%nat ->
  Matrix.multiply A B w = Ret A (with_matrices (insert A (mat_product b a)) w)
  /\ (forall t : transformation,
        transform t A w = Ret A (transformed t A a w)
        /\ matrices (transformed t A a w) !! A
           = Some (mat_product (elementary (host w) t) a))
  /\ (forall ts : list transformation, exists w',
        chain A ts w = Ret A w'
        /\ matrices w' !! A = Some (chain_product (host w) ts a)
        /\ forall v, vec_eq (mat_vec (chain_product (host w) ts a) v)
                            (chain_action (host w) ts (mat_vec a v))).
Proof.
  intros HA HB La Lb. split; [|split].
  - apply multiply_spec; auto; lia.
  - intros t. split; [apply transform_spec; auto; lia | apply transformed_lookup].
  - intros ts. destruct (chain_spec ts A a w HA ltac:(lia)) as (w' & E & _ & Hm).
    exists w'. split; [done|]. split; [done|]. intros v. apply chain_product_action.
Qed.

Lemma multiply_post_multiplies_witness :
  Matrix.multiply 1%positive 2%positive two_matrices
  = Ret 1%positive
      (with_matrices (insert 1%positive (mat_product (Matrix.translation 2 3) Matrix.identity))
         two_matrices).
Proof.
  refine (proj1 (multiply_post_multiplies 1%positive 2%positive
                   Matrix.identity (Matrix.translation 2 3) two_matrices _ _ _ _));
    vm_compute; reflexivity.
Defined.

Lemma projection_spec (vw vh : Q) (w : world) :
  ~ vw == 0 -> ~ vh == 0 ->
  Matrix.projection vw vh w
  = Ret (fresh (dom (matrices w)))
      (with_matrices (insert (fresh (dom (matrices w)))
                        [2 / vw; 0; 0; 0; -2 / vh; 0; -1; 1; 1]) w).
Proof.
  intros Hw Hh. unfold Matrix.projection.
  rewrite (js_div_Some _ _ Hw), (js_div_Some _ _ Hh). reflexivity.
Qed.

(** C4. For a positive width and height, [Matrix.projection(w, h)] returns
    a new matrix which, applied to a logical point as the vertex shader
    applies [u_positionMatrix], sends [(0, 0)] to the corner [(-1, 1)] of
    clip space and [(w, h)] to the opposite corner [(1, -1)]; in general
    [(x, y)] goes to [(2x/w - 1, 1 - 2y/h)], so the logical origin is the
    top-left corner and [y] grows downwards. *)
Theorem projection_corners (vw vh : Q) (w : world) :
  0 < vw -> 0 < vh ->
  exists (p : ref) (vs : list Q),
    Matrix.projection vw vh w = Ret p (with_matrices (insert p vs) w)
    /\ point_eq (shader_position vs (0, 0)) (-1, 1)
    /\ point_eq (shader_position vs (vw, vh)) (1, -1)
    /\ forall x y, point_eq (shader_position vs (x, y)) (2 * x / vw - 1, 1 - 2 * y / vh).
Proof.
  intros Hw Hh.
  assert (Hw' : ~ vw == 0) by (intros E; rewrite E in Hw; discriminate).
  assert (Hh' : ~ vh == 0) by (intros E; rewrite E in Hh; discriminate).
  eexists _, _. split; [by apply projection_spec|].
  unfold point_eq, shader_position; simpl.
  repeat split; try intros x y; try split; field; auto.
Qed.

Lemma projection_corners_witness :
  exists (p : ref) (vs : list Q),
    Matrix.projection 400 240 (before_init example_host 850 500)
    = Ret p (with_matrices (insert p vs) (before_init example_host 850 500))
    /\ point_eq (shader_position vs (0, 0)) (-1, 1)
    /\ point_eq (shader_position vs (400, 240)) (1, -1)
    /\ forall x y, point_eq (shader_position vs (x, y)) (2 * x / 400 - 1, 1 - 2 * y / 240).
Proof.
  apply (projection_corners 400 240 (before_init example_host 850 500)); reflexivity.
Defined.

(** ** Affine form *)

Lemma affine_product (x y : list Q) : affine x -> affine y -> affine (mat_product x y).
Proof.
  intros (Lx & X2 & X5 & X8) (Ly & Y2 & Y5 & Y8). nine x. nine y.
  simpl in *. unfold affine, mat_product, entry. simpl.
  split; [lia|]. rewrite X2, X5, X8, Y2, Y5, Y8. repeat split; ring.
Qed.

(** In the vertex shader, which reads the array column-major, the product
    [e · a] applies [e] to the point first and [a] to the result: a call
    transforms relative to the frame set up by the calls before it. *)
Lemma shader_position_product (e a : list Q) (p : Q * Q) :
  affine e -> (9 <= length a)%nat ->
  point_eq (shader_position (mat_product e a) p)
           (shader_position a (shader_position e p)).
Proof.
  intros (Le & E2 & E5 & E8) La. nine e. nine a. destruct p as [px py].
  simpl in E2, E5, E8. unfold point_eq, shader_position, mat_product, entry. simpl.
  rewrite E2, E5, E8. split; ring.
Qed.

Lemma affine_elementary (h : Host) (t : transformation) : affine (elementary h t).
Proof. destruct t; unfold affine; simpl; repeat split; (lia || reflexivity). Qed.

Lemma affine_identity : affine Matrix.identity.
Proof. unfold affine; simpl; repeat split; (lia || reflexivity). Qed.

Lemma affine_projection (sx sy : Q) : affine [sx; 0; 0; 0; sy; 0; -1; 1; 1].
Proof. unfold affine; simpl; repeat split; (lia || reflexivity). Qed.

Lemma affine_length (vs : list Q) : affine vs -> (9 <= length vs)%nat.
Proof. by intros [? _]. Qed.

Lemma kept_refl (w : world) : kept w w.
Proof. by intros r vs. Qed.

Lemma kept_trans (w1 w2 w3 : world) : kept w1 w2 -> kept w2 w3 -> kept w1 w3.
Proof. intros H1 H2 r vs Hr. by apply H2, H1. Qed.

Lemma kept_new (w0 w : world) (vs : list Q) :
  kept w0 w -> kept w0 (with_matrices (insert (fresh (dom (matrices w))) vs) w).
Proof.
  intros H r a Hr. apply H in Hr. simpl.
  rewrite lookup_insert_ne; [done|]. by eapply fresh_ne.
Qed.

Lemma fresh_None (w0 w : world) :
  kept w0 w -> matrices w0 !! fresh (dom (matrices w)) = None.
Proof.
  intros H. destruct (matrices w0 !! fresh (dom (matrices w))) as [vs|] eqn:E; [|done].
  apply H in E. by apply fresh_ne in E.
Qed.

(** A transformation of an instance that [w0] does not have leaves the
    instances of [w0] as they are. *)
Lemma kept_transformed (t : transformation) (m : ref) (a : list Q) (w0 w : world) :
  kept w0 w -> matrices w0 !! m = None -> kept w0 (transformed t m a w).
Proof.
  intros H Hm r vs Hr. unfold transformed. simpl.
  rewrite lookup_insert_ne by (intros <-; congruence).
  apply H in Hr. rewrite lookup_insert_ne; [done|]. by eapply fresh_ne.
Qed.

(** Building a matrix returns a new instance in affine form, leaves the
    instances that there were as they are, and fails only by a division by
    zero. *)
Lemma build_spec (e : mexpr) : forall w : world,
  match build e w with
  | Ret m w' =>
      matrices w !! m = None /\ kept w w'
      /\ exists vs, matrices w' !! m = Some vs /\ affine vs
  | Throw _ _ => False
  | NonFinite _ => ~ sized e
  end.
Proof.
  induction e as [|vw vh|e IH|e IH t|e1 IH1 e2 IH2]; intros w; simpl.
  - split; [apply fresh_None, kept_refl|]. split; [apply kept_new, kept_refl|].
    exists Matrix.identity. rewrite lookup_insert_eq. auto using affine_identity.
  - unfold Matrix.projection, js_div.
    destruct (Qeq_bool vw 0) eqn:Ew; simpl.
    { apply Qeq_bool_iff in Ew. tauto. }
    unfold bind at 1. simpl.
    destruct (Qeq_bool vh 0) eqn:Eh; simpl.
    { apply Qeq_bool_iff in Eh. tauto. }
    split; [apply fresh_None, kept_refl|]. split; [apply kept_new, kept_refl|].
    eexists. rewrite lookup_insert_eq. split; [done|]. apply affine_projection.
  - specialize (IH w). unfold bind at 1. destruct (build e w) as [m w'| |]; auto.
    destruct IH as (Hnew & Hk & vs & Hm & Ha).
    unfold Matrix.copy, Matrix.values, bind, gets, deref. simpl. rewrite Hm. simpl.
    split; [by apply fresh_None|]. split; [by apply kept_new|].
    exists vs. by rewrite lookup_insert_eq.
  - specialize (IH w). unfold bind at 1. destruct (build e w) as [m w'| |]; auto.
    destruct IH as (Hnew & Hk & vs & Hm & Ha).
    rewrite (transform_spec t m vs w' Hm) by (by apply affine_length).
    split; [done|]. split; [by apply kept_transformed|].
    eexists. split; [apply transformed_lookup|].
    apply affine_product; auto using affine_elementary.
  - specialize (IH1 w). unfold bind at 1.
    destruct (build e1 w) as [m1 w1| |]; [|done|tauto].
    destruct IH1 as (Hnew1 & Hk1 & a & Hm1 & Ha).
    specialize (IH2 w1). unfold bind at 1.
    destruct (build e2 w1) as [m2 w2| |]; [|done|tauto].
    destruct IH2 as (Hnew2 & Hk2 & b & Hm2 & Hb).
    rewrite (multiply_spec m1 m2 a b w2 (Hk2 _ _ Hm1) Hm2)
      by (by apply affine_length).
    split; [done|]. split.
    + intros r vs Hr. simpl. rewrite lookup_insert_ne by (intros <-; congruence).
      by apply Hk2, Hk1.
    + eexists. simpl. rewrite lookup_insert_eq. split; [done|]. by apply affine_product.
Qed.

(** In affine form the vertex shader keeps the third coordinate at 1, and
    adds the coefficients at the indices 6 and 7 to the point. *)
Lemma affine_shader_vec3 (vs : list Q) (x y : Q) :
  affine vs ->
  vec_eq (shader_vec3 vs (x, y, 1))
         (nth 0 vs 0 * x + nth 3 vs 0 * y + nth 6 vs 0,
          nth 1 vs 0 * x + nth 4 vs 0 * y + nth 7 vs 0,
          1).
Proof.
  intros (_ & V2 & V5 & V8). unfold vec_eq, shader_vec3. cbn [fst snd].
  rewrite V2, V5, V8. repeat split; ring.
Qed.

(** C6, as amended.  Every matrix built from the identity or from
    projections of a width and a height other than 0 by [copy],
    [translate], [rotate], [scale] and [multiply], in whatever store, is
    built without failure and has the coefficients 0, 0 and 1 at the
    indices 2, 5 and 8: the right column of the array read row-major.  The
    indices 6 and 7 hold the translation: the vertex shader, which takes
    the array column by column, sends the vector (x, y, 1) to
    (a0 x + a3 y + a6, a1 x + a4 y + a7, 1), and so the origin to
    (a6, a7). *)
Theorem reachable_matrices_affine (e : mexpr) (w : world) :
  sized e ->
  exists (m : ref) (w' : world) (vs : list Q),
    build e w = Ret m w'
    /\ matrices w' !! m = Some vs
    /\ affine vs
    /\ (forall x y : Q,
          vec_eq (shader_vec3 vs (x, y, 1))
                 (nth 0 vs 0 * x + nth 3 vs 0 * y + nth 6 vs 0,
                  nth 1 vs 0 * x + nth 4 vs 0 * y + nth 7 vs 0,
                  1))
    /\ vec_eq (shader_vec3 vs (0, 0, 1)) (nth 6 vs 0, nth 7 vs 0, 1).
Proof.
  intros He. pose proof (build_spec e w) as H.
  destruct (build e w) as [m w'| |]; [|done|tauto].
  destruct H as (_ & _ & vs & Hm & Ha).
  exists m, w', vs. split; [done|]. split; [done|]. split; [done|].
  split; [intros x y; by apply affine_shader_vec3|].
  eapply vec_eq_trans; [by apply affine_shader_vec3|].
  unfold vec_eq. cbn [fst snd]. repeat split; ring.
Qed.

Lemma reachable_matrices_affine_witness :
  exists (m : ref) (w' : world) (vs : list Q),
    build (Multiplied (Transformed (Projection 400 240) (Translate 100 100))
             (Transformed Identity (Rotate 1)))
      example_world = Ret m w'
    /\ matrices w' !! m = Some vs
    /\ affine vs
    /\ (forall x y : Q,
          vec_eq (shader_vec3 vs (x, y, 1))
                 (nth 0 vs 0 * x + nth 3 vs 0 * y + nth 6 vs 0,
                  nth 1 vs 0 * x + nth 4 vs 0 * y + nth 7 vs 0,
                  1))
    /\ vec_eq (shader_vec3 vs (0, 0, 1)) (nth 6 vs 0, nth 7 vs 0, 1).
Proof.
  apply (reachable_matrices_affine
           (Multiplied (Transformed (Projection 400 240) (Translate 100 100))
              (Transformed Identity (Rotate 1)))
           example_world).
  vm_compute. repeat split; discriminate.
Defined.

(** C6, as stated, fails: [new Matrix(Matrix.identity).translate(1, 0)]
    holds 1, 0, 1 at the indices 6, 7 and 8, and [Matrix.projection(400,
    240)] holds -1, 1, 1 there. *)
Lemma bottom_row_counterexample :
  (exists (m : ref) (w' : world) (vs : list Q),
      build (Transformed Identity (Translate 1 0)) (before_init example_host 850 500)
      = Ret m w'
      /\ matrices w' !! m = Some vs
      /\ ~ last_three_001 vs)
  /\ (exists (m : ref) (w' : world) (vs : list Q),
        build (Projection 400 240) (before_init example_host 850 500) = Ret m w'
        /\ matrices w' !! m = Some vs
        /\ ~ last_three_001 vs).
Proof.
  split; vm_compute; eexists _, _, _; (split; [reflexivity|]); (split; [reflexivity|]);
    intros (H6 & _); discriminate.
Qed.

(** C7. On a matrix with 0, 0, 1 at the indices 2, 5 and 8, each of
    [translate], [rotate], [scale], and [multiply] by another matrix of that
    shape, leaves a matrix of that shape, and [Matrix.projection] returns
    one.  [translate(tx, ty)] multiplies by a matrix that holds [tx] and
    [ty] at the indices 6 and 7, which the vertex shader adds to the
    point. *)
Theorem operations_preserve_affine (A : ref) (a : list Q) (w : world) :
  matrices w !! A = Some a -> affine a ->
  (forall t : transformation, exists w' a',
      transform t A w = Ret A w' /\ matrices w' !! A = Some a' /\ affine a')
  /\ (forall (B : ref) (b : list Q), matrices w !! B = Some b -> affine b ->
        exists w' a',
          Matrix.multiply A B w = Ret A w' /\ matrices w' !! A = Some a' /\ affine a')
  /\ (forall vw vh : Q, ~ vw == 0 -> ~ vh == 0 ->
        exists p w' vs,
          Matrix.projection vw vh w = Ret p w' /\ matrices w' !! p = Some vs /\ affine vs)
  /\ (forall tx ty : Q,
        nth 6 (Matrix.translation tx ty) 0 = tx
        /\ nth 7 (Matrix.translation tx ty) 0 = ty
        /\ forall x y, point_eq (shader_position (Matrix.translation tx ty) (x, y))
                                (x + tx, y + ty)).
Proof.
  intros HA Ha. split; [|split; [|split]].
  - intros t. exists (transformed t A a w), (mat_product (elementary (host w) t) a).
    split; [apply transform_spec; auto using affine_length|].
    split; [apply transformed_lookup|]. apply affine_product; auto using affine_elementary.
  - intros B b HB Hb.
    exists (with_matrices (insert A (mat_product b a)) w), (mat_product b a).
    split; [apply multiply_spec; auto using affine_length|].
    split; [simpl; apply lookup_insert_eq|]. by apply affine_product.
  - intros vw vh Hw Hh. eexists _, _, _. split; [by apply projection_spec|].
    split; [simpl; apply lookup_insert_eq|]. apply affine_projection.
  - intros tx ty. split; [done|]. split; [done|]. intros x y.
    unfold point_eq, shader_position; simpl. split; ring.
Qed.

Lemma operations_preserve_affine_witness :
  exists w' a',
    transform (Translate 100 100) 1%positive two_matrices = Ret 1%positive w'
    /\ matrices w' !! 1%positive = Some a' /\ affine a'.
Proof.
  refine (proj1 (operations_preserve_affine 1%positive Matrix.identity two_matrices _ _)
            (Translate 100 100)).
  - vm_compute. reflexivity.
  - apply affine_identity.
Defined.

(** ** [Shader.use] and the primitive draws *)

Lemma set_currentProgram_same (s : Statics) (p : option ref) :
  currentProgram s = p -> set_currentProgram p s = s.
Proof. destruct s; simpl. by intros ->. Qed.

Lemma with_Shader_same (f : Statics -> Statics) (w : world) :
  f (Shader w) = Shader w -> with_Shader f w = w.
Proof. destruct w; unfold with_Shader; simpl. by intros ->. Qed.

Lemma use_spec (this : ref) (s : ShaderObj) (positions : option (list Q)) (w : world) :
  shaders w !! this = Some s ->
  use this positions w
  = Ret tt (used this s (default (positionOrder (Shader w)) positions) w).
Proof.
  intros Hs. unfold use, used, shader.
  destruct positions as [p|]; run; rewrite Hs; run; unfold compose;
    cbn [Shader with_calls default];
    destruct (decide (currentProgram (Shader w) = Some this)) as [E|E]; run.
  all: try (rewrite (with_Shader_same (set_currentProgram (Some this)) w)
              by (by apply set_currentProgram_same)).
  all: reflexivity.
Qed.

Lemma run_use {B} (this : ref) (s : ShaderObj) (positions : option (list Q))
    (k : unit -> M B) (w : world) :
  shaders w !! this = Some s ->
  bind (use this positions) k w
  = k tt (used this s (default (positionOrder (Shader w)) positions) w).
Proof. intros H. apply bind_Ret. by apply use_spec. Qed.

Lemma used_draw_calls (this : ref) (s : ShaderObj) (positions : list Q) (w : world) :
  draw_calls (calls (used this s positions w)) = draw_calls (calls w).
Proof. unfold used. proj. by case_decide. Qed.

Lemma draw_calls_cons (c : Call) (cs : list Call) :
  draw_calls (c :: cs) = if is_draw c then S (draw_calls cs) else draw_calls cs.
Proof. unfold draw_calls. rewrite filter_cons. by destruct (is_draw c). Qed.

Lemma unparseable_false (rcol g b : jsval) :
  unparseable rcol g b = false ->
  (exists c, instanceof_Color rcol = Some c)
  \/ (instanceof_Color rcol = None /\ defined g && defined b = true).
Proof.
  unfold unparseable. destruct (instanceof_Color rcol); [eauto|].
  intros H. right. split; [done|]. destruct (defined g), (defined b); done.
Qed.

Lemma unparseable_true (rcol g b : jsval) :
  unparseable rcol g b = true ->
  instanceof_Color rcol = None /\ defined g && defined b = false.
Proof.
  unfold unparseable. destruct (instanceof_Color rcol); [done|].
  intros H. split; [done|]. destruct (defined g), (defined b); done.
Qed.

Lemma preparePrimitive_spec (positions : list Q) (rcol g b a : jsval) (w : world) :
  primitive_ready w ->
  exists w',
    preparePrimitive positions rcol g b a w
    = (if unparseable rcol g b then Throw (DrawError rcol g b a) w' else Ret tt w')
    /\ draw_calls (calls w') = draw_calls (calls w)
    /\ primitive_ready w'.
Proof.
  intros (r & s & Hr & Hs).
  assert (Hready : forall c,
             primitive_ready (with_calls c (used r s positions w))).
  { intros c. exists r, s. by proj. }
  unfold preparePrimitive, the_primitiveShader. run. proj. rewrite Hr. run.
  rewrite (run_use r s _ _ w Hs). unfold shader. run. proj. rewrite Hs. run.
  cbn [default].
  destruct (unparseable rcol g b) eqn:U.
  - apply unparseable_true in U as [-> ->]. exists (used r s positions w).
    split; [reflexivity|]. split; [apply used_draw_calls|].
    exists r, s. by proj.
  - apply unparseable_false in U as [[c ->]|[-> ->]];
      (eexists; split; [reflexivity|]; split; [|apply Hready]);
      cbn [calls with_calls]; rewrite draw_calls_cons; apply used_draw_calls.
Qed.

Lemma draw_after_prepare (positions : list Q) (rcol g b a : jsval) (c : Call) (w : world) :
  primitive_ready w -> is_draw c = true ->
  exists w',
    bind (preparePrimitive positions rcol g b a) (fun _ => call c) w
    = (if unparseable rcol g b then Throw (DrawError rcol g b a) w' else Ret tt w')
    /\ draw_calls (calls w')
       = (if unparseable rcol g b then draw_calls (calls w) else S (draw_calls (calls w)))
    /\ primitive_ready w'.
Proof.
  intros Hw Hc.
  destruct (preparePrimitive_spec positions rcol g b a w Hw) as (w1 & E & Hd & Hr).
  unfold bind. rewrite E. destruct (unparseable rcol g b).
  - exists w1. auto.
  - exists (with_calls (cons c) w1). split; [reflexivity|]. split.
    + cbn [calls with_calls]. by rewrite draw_calls_cons, Hc, Hd.
    + destruct Hr as (r & s & ? & ?). by exists r, s.
Qed.

(** The loop of [drawCircle] ends, with positions that are finite. *)
Lemma circle_loop_total (h : Host) (x y radius : Q) (step : option Q) (w : world) :
  forall (n : nat) (t : Q) (positions : list Q),
    (step = None -> (n <= 1)%nat) ->
    exists ps, circle_loop h x y radius step n (Some t) positions w = Ret ps w.
Proof.
  induction n as [|n IH]; intros t positions Hn; simpl; [eauto|].
  unfold bind. simpl. destruct step as [d|]; simpl.
  - apply IH. discriminate.
  - assert (n = 0%nat) as -> by (specialize (Hn eq_refl); lia). simpl. eauto.
Qed.

Lemma circle_positions (x y radius : Q) (segments : Z) (w : world) :
  exists ps,
    circle_loop (host w) x y radius (js_div (h_PI (host w) * 2) (inject_Z segments))
      (Z.to_nat (segments + 1)) (Some 0) [x; y] w = Ret ps w.
Proof.
  apply circle_loop_total. unfold js_div.
  destruct (Qeq_bool (inject_Z segments) 0) eqn:E; [|discriminate].
  intros _. apply Qeq_bool_iff in E.
  assert (segments = 0%Z) as ->; [|simpl; lia].
  unfold Qeq, inject_Z in E. simpl in E. lia.
Qed.

(** C9. Once the primitive shader is set up, a [line], [rect], [circle] or
    [primitive] draw throws a [DrawError] exactly when its colour arguments
    cannot be parsed (the first is not a [Color], and green or blue is
    [undefined]).  Then no [drawArrays] has been issued; otherwise exactly
    one has, and the draw returns.  Either way the primitive shader is still
    set up, so the draws that follow are not affected. *)
Theorem primitive_draw_errors (p : primitive) (rcol g b a : jsval) (w : world) :
  primitive_ready w ->
  exists w',
    draw_primitive p rcol g b a w
    = (if unparseable rcol g b then Throw (DrawError rcol g b a) w' else Ret tt w')
    /\ draw_calls (calls w')
       = (if unparseable rcol g b then draw_calls (calls w) else S (draw_calls (calls w)))
    /\ primitive_ready w'.
Proof.
  intros Hw. destruct p as [x y x2 y2|x y x2 y2|x y radius segments|mode positions]; simpl.
  - by apply draw_after_prepare.
  - by apply draw_after_prepare.
  - unfold drawCircle. unfold bind at 1. simpl.
    destruct (circle_positions x y radius segments w) as [ps E].
    unfold bind at 1. rewrite E. by apply draw_after_prepare.
  - by apply draw_after_prepare.
Qed.

Lemma primitive_draw_errors_witness :
  exists w',
    draw_primitive (Line 0 0 10 10) (VNum 1) VUndefined (VNum 1) VUndefined example_world
    = (if unparseable (VNum 1) VUndefined (VNum 1)
       then Throw (DrawError (VNum 1) VUndefined (VNum 1) VUndefined) w' else Ret tt w')
    /\ draw_calls (calls w')
       = (if unparseable (VNum 1) VUndefined (VNum 1)
          then draw_calls (calls example_world) else S (draw_calls (calls example_world)))
    /\ primitive_ready w'.
Proof.
  apply (primitive_draw_errors (Line 0 0 10 10) (VNum 1) VUndefined (VNum 1) VUndefined
           example_world).
  vm_compute. eexists _, _. split; reflexivity.
Defined.

(** ** The frame timer *)

Lemma beginRender_spec (w : world) :
  image_ready w ->
  exists w',
    beginRender w = Ret tt w'
    /\ internalTimer (Shader w') = next_timer (internalTimer (Shader w))
    /\ image_ready w'.
Proof.
  intros (r & s & bg & Hr & Hs & Hbg).
  unfold beginRender. run. proj. rewrite Hbg. run. proj. rewrite Hr. run.
  erewrite run_use by (proj; exact Hs).
  unfold shader. run. proj. rewrite Hs. run. proj. unfold next_timer.
  destruct (4096 <? internalTimer (Shader w) + 1)%Z; run.
  - eexists. split; [reflexivity|]. split; [reflexivity|]. exists r, s, bg. by proj.
  - eexists. split; [reflexivity|]. split; [reflexivity|]. exists r, s, bg. by proj.
Qed.

Lemma next_timer_mod (t : Z) :
  (0 <= t <= 4096)%Z -> next_timer t = ((t + 1) mod 4097)%Z.
Proof.
  intros H. unfold next_timer. destruct (Z.ltb_spec 4096 (t + 1)).
  - assert (t = 4096%Z) as -> by lia. reflexivity.
  - rewrite Z.mod_small; lia.
Qed.

Lemma frames_spec (n : nat) : forall w : world,
  image_ready w -> (0 <= internalTimer (Shader w) <= 4096)%Z ->
  exists w',
    frames n w = Ret tt w'
    /\ internalTimer (Shader w') = ((internalTimer (Shader w) + Z.of_nat n) mod 4097)%Z
    /\ image_ready w'.
Proof.
  induction n as [|n IH]; intros w Hw Ht.
  - exists w. split; [done|]. split; [|done]. rewrite Z.add_0_r, Z.mod_small; lia.
  - destruct (beginRender_spec w Hw) as (w1 & E1 & Ht1 & Hw1).
    rewrite (next_timer_mod _ Ht) in Ht1.
    destruct (IH w1 Hw1) as (w' & E & Ht' & Hw').
    { rewrite Ht1. pose proof (Z.mod_pos_bound (internalTimer (Shader w) + 1) 4097). lia. }
    exists w'. split; [|split; [|done]].
    + simpl. unfold bind. by rewrite E1.
    + rewrite Ht', Ht1. rewrite Zplus_mod_idemp_l. f_equal. lia.
Qed.

(** C5. From a timer of 0, with the image shader set up: after any number
    [n] of frames the timer is [n mod 4097], so it lies between 0 and 4096
    and is never 4097; the next [beginRender] returns and leaves the timer
    incremented by one, or 0 if that exceeds 4096, so that the value after
    4096 is 0. *)
Theorem frame_timer_wraps (w : world) (n : nat) :
  image_ready w -> internalTimer (Shader w) = 0%Z ->
  exists w' w'',
    frames n w = Ret tt w'
    /\ (0 <= internalTimer (Shader w') <= 4096)%Z
    /\ internalTimer (Shader w') = (Z.of_nat n mod 4097)%Z
    /\ beginRender w' = Ret tt w''
    /\ internalTimer (Shader w'')
       = (if (4096 <? internalTimer (Shader w') + 1)%Z then 0
          else internalTimer (Shader w') + 1)%Z
    /\ (internalTimer (Shader w') = 4096%Z -> internalTimer (Shader w'') = 0%Z).
Proof.
  intros Hw Ht.
  destruct (frames_spec n w Hw ltac:(lia)) as (w' & E & Ht' & Hw').
  rewrite Ht, Z.add_0_l in Ht'.
  destruct (beginRender_spec w' Hw') as (w'' & E' & Ht'' & _).
  exists w', w''. split; [done|]. split.
  { rewrite Ht'. pose proof (Z.mod_pos_bound (Z.of_nat n) 4097). lia. }
  split; [done|]. split; [done|]. split; [done|].
  intros H. rewrite Ht''. unfold next_timer. by rewrite H.
Qed.

Lemma frame_timer_wraps_witness :
  exists w' w'',
    frames 5000 example_world = Ret tt w'
    /\ (0 <= internalTimer (Shader w') <= 4096)%Z
    /\ internalTimer (Shader w') = (Z.of_nat 5000 mod 4097)%Z
    /\ beginRender w' = Ret tt w''
    /\ internalTimer (Shader w'')
       = (if (4096 <? internalTimer (Shader w') + 1)%Z then 0
          else internalTimer (Shader w') + 1)%Z
    /\ (internalTimer (Shader w') = 4096%Z -> internalTimer (Shader w'') = 0%Z).
Proof.
  apply (frame_timer_wraps example_world 5000).
  - vm_compute. eexists _, _, _. repeat split; reflexivity.
  - vm_compute. reflexivity.
Defined.

(** ** Shader construction *)

Lemma createShader_spec (type : ShaderType) (source : string) (w : world) :
  h_createShader (host w) type = true ->
  h_COMPILE_STATUS (host w) {| sh_type := type; sh_source := source |} = true ->
  createShader type source w
  = Ret {| sh_type := type; sh_source := source |}
      (with_calls (fun cs => gl_compileShader {| sh_type := type; sh_source := source |}
                             :: gl_shaderSource {| sh_type := type; sh_source := source |}
                             :: cs) w).
Proof.
  intros H1 H2. unfold createShader. run. rewrite H1. cbn [negb]. run. proj.
  rewrite H2. reflexivity.
Qed.

Lemma getUniformLocation_None (h : Host) (p : WebGLProgram) (name : string) :
  h_hasUniform h p name = false -> getUniformLocation h p name = None.
Proof. unfold getUniformLocation. by intros ->. Qed.

Lemma getUniformLocation_Some (h : Host) (p : WebGLProgram) (name : string) :
  h_hasUniform h p name = true ->
  getUniformLocation h p name = Some {| ul_program := p; ul_name := name |}.
Proof. unfold getUniformLocation. by intros ->. Qed.

(** The constructor as far as the link. *)
Ltac construct opt V1 V2 F1 F2 P1 P2 :=
  unfold Shader_new; run;
  erewrite bind_Ret by (by apply createShader_spec);
  erewrite bind_Ret by (by apply createShader_spec);
  rewrite P1; cbn [negb]; run;
  change {| pr_vertex := {| sh_type := VERTEX_SHADER; sh_source := vertexSource opt |};
            pr_fragment := {| sh_type := FRAGMENT_SHADER;
                              sh_source := fragmentSource opt |} |}
    with (program_of opt);
  rewrite P2; cbn [negb].

(** A constructor that misses a name throws after the link, and which
    error it throws depends on the host and the options only. *)
Lemma Shader_new_missing (h : Host) (opt : ShaderOptions) :
  compiles_and_links h opt -> lacks_required_slot h opt ->
  exists msg : ShaderErrorMessage,
    not_found msg = true
    /\ forall w : world, host w = h ->
         Shader_new opt w = Throw (ShaderError msg) (linked opt w).
Proof.
  intros (V1 & V2 & F1 & F2 & P1 & P2) Hlacks.
  destruct (h_attribLocation h (program_of opt) (Names.positionAttribute (names opt))
            =? -1)%Z eqn:E1.
  { eexists. split; [|intros w <-; construct opt V1 V2 F1 F2 P1 P2; rewrite E1; reflexivity].
    reflexivity. }
  destruct (h_hasUniform h (program_of opt) (Names.positionUniform (names opt))) eqn:E2.
  2:{ eexists. split; [|intros w <-; construct opt V1 V2 F1 F2 P1 P2; rewrite E1;
                        rewrite (getUniformLocation_None _ _ _ E2); reflexivity].
      reflexivity. }
  destruct (h_hasUniform h (program_of opt) (Names.blendUniform (names opt))) eqn:E3.
  2:{ eexists. split; [|intros w <-; construct opt V1 V2 F1 F2 P1 P2; rewrite E1;
                        rewrite (getUniformLocation_Some _ _ _ E2);
                        rewrite (getUniformLocation_None _ _ _ E3); reflexivity].
      reflexivity. }
  destruct Hlacks as [H|[H|[H|[Htex H]]]].
  { apply Z.eqb_neq in E1. contradiction. }
  { congruence. }
  { congruence. }
  destruct (h_attribLocation h (program_of opt)
              (or_empty (Names.textureAttribute (names opt))) =? -1)%Z eqn:E4.
  { eexists. split; [|intros w <-; construct opt V1 V2 F1 F2 P1 P2; rewrite E1;
                      rewrite (getUniformLocation_Some _ _ _ E2);
                      rewrite (getUniformLocation_Some _ _ _ E3);
                      unfold texture_slots; rewrite Htex, E4; reflexivity].
    reflexivity. }
  destruct H as [H|H].
  { apply Z.eqb_neq in E4. contradiction. }
  eexists. split; [|intros w <-; construct opt V1 V2 F1 F2 P1 P2; rewrite E1;
                    rewrite (getUniformLocation_Some _ _ _ E2);
                    rewrite (getUniformLocation_Some _ _ _ E3);
                    unfold texture_slots; rewrite Htex, E4;
                    rewrite (getUniformLocation_None _ _ _ H); reflexivity].
  reflexivity.
Qed.

(** C10. When both shaders compile and the program links, but the program
    lacks a required name (the position attribute, the position-matrix
    uniform, the blend uniform or, for a shader that uses a texture, the
    texture attribute or the texture-matrix uniform), [new Shader(opt)]
    throws a [ShaderError] about a name that is not found.  Nothing but the
    compile and link commands has happened: no instance is in the store, no
    buffer was created, and the static properties are as before.
    [Shader.init] does not catch the error: it throws it in turn, with
    neither [Shader.imageShader] nor [Shader.primitiveShader] assigned. *)
Theorem missing_slot_is_fatal (opt : ShaderOptions) (w : world) :
  compiles_and_links (host w) opt -> lacks_required_slot (host w) opt ->
  exists msg : ShaderErrorMessage,
    not_found msg = true
    /\ Shader_new opt w = Throw (ShaderError msg) (linked opt w)
    /\ shaders (linked opt w) = shaders w
    /\ Shader (linked opt w) = Shader w
    /\ gl_fresh (linked opt w) = gl_fresh w
    /\ forall (vw vh : Q) (dw dh : option Q) (primitiveOptions : option ShaderOptions)
              (po to : option (list Q)),
         exists w',
           init vw vh dw dh (Some opt) primitiveOptions po to w = Throw (ShaderError msg) w'
           /\ shaders w' = shaders w
           /\ imageShader (Shader w') = imageShader (Shader w)
           /\ primitiveShader (Shader w') = primitiveShader (Shader w).
Proof.
  intros Hlinks Hlacks.
  destruct (Shader_new_missing (host w) opt Hlinks Hlacks) as (msg & Hmsg & Hnew).
  exists msg. split; [done|]. split; [by apply Hnew|].
  split; [done|]. split; [done|]. split; [done|].
  intros vw vh dw dh primitiveOptions po to. unfold init. run. cbn [default].
  erewrite bind_Throw by (apply Hnew; reflexivity).
  eexists. split; [reflexivity|]. by proj.
Qed.

Lemma missing_slot_is_fatal_witness :
  exists msg : ShaderErrorMessage,
    not_found msg = true
    /\ Shader_new defaultImageOptions (before_init blendless_host 850 500)
       = Throw (ShaderError msg) (linked defaultImageOptions (before_init blendless_host 850 500))
    /\ shaders (linked defaultImageOptions (before_init blendless_host 850 500))
       = shaders (before_init blendless_host 850 500)
    /\ Shader (linked defaultImageOptions (before_init blendless_host 850 500))
       = Shader (before_init blendless_host 850 500)
    /\ gl_fresh (linked defaultImageOptions (before_init blendless_host 850 500))
       = gl_fresh (before_init blendless_host 850 500)
    /\ forall (vw vh : Q) (dw dh : option Q) (primitiveOptions : option ShaderOptions)
              (po to : option (list Q)),
         exists w',
           init vw vh dw dh (Some defaultImageOptions) primitiveOptions po to
             (before_init blendless_host 850 500)
           = Throw (ShaderError msg) w'
           /\ shaders w' = shaders (before_init blendless_host 850 500)
           /\ imageShader (Shader w') = imageShader (Shader (before_init blendless_host 850 500))
           /\ primitiveShader (Shader w')
              = primitiveShader (Shader (before_init blendless_host 850 500)).
Proof.
  apply (missing_slot_is_fatal defaultImageOptions (before_init blendless_host 850 500)).
  - vm_compute. repeat split; reflexivity.
  - right. right. left. vm_compute. reflexivity.
Defined.

(** ** Responsive scaling *)

Lemma num_or_Some (a b : Q) : ~ a == 0 -> num_or (Some a) b = a.
Proof.
  intros H. unfold num_or. destruct (Qeq_bool a 0) eqn:E; [|done].
  apply Qeq_bool_iff in E. contradiction.
Qed.


Lemma Math_max_ge_1 (x : Q) : 1 <= Math_max x 1.
Proof.
  unfold Math_max. destruct (Qle_bool x 1) eqn:E; [apply Qle_refl|].
  destruct (Qlt_le_dec 1 x) as [H|H]; [by apply Qlt_le_weak|].
  apply Qle_bool_iff in H. congruence.
Qed.

Lemma Math_floor_ge_1 (x : Q) : 1 <= x -> 1 <= Math_floor x.
Proof.
  intros H. unfold Math_floor.
  change 1 with (inject_Z 1). rewrite <- Zle_Qle.
  change 1%Z with (Qfloor (inject_Z 1)). by apply Qfloor_resp_le.
Qed.

Lemma scale_factor_ge_1 (vw vh iw ih : Q) (perfect : bool) :
  1 <= scale_factor vw vh iw ih perfect.
Proof.
  unfold scale_factor. destruct perfect; [apply Math_floor_ge_1|]; apply Math_max_ge_1.
Qed.

Lemma scaled_nonzero (v f : Q) : 0 < v -> 1 <= f -> ~ v * f == 0.
Proof.
  intros Hv Hf E. assert (0 < v * f); [|rewrite E in *; discriminate].
  apply Qmult_lt_0_compat; [done|]. eapply Qlt_le_trans; [|exact Hf]. reflexivity.
Qed.




(** ** Doubles *)

(** Rounding moves a result by half the distance between the doubles
    around it at most, and keeps it on its side of 0 and of 1. *)

Lemma ulp_pos (q : Q) : 0 < ulp q.
Proof. unfold ulp. apply Qpower_0_lt. reflexivity. Qed.

Lemma round_half_even_bounds (q : Q) :
  (Qfloor q <= round_half_even q <= Qfloor q + 1)%Z.
Proof.
  unfold round_half_even. cbv zeta.
  destruct (Qcompare _ _); [destruct (Z.even _)| |]; lia.
Qed.

Lemma round_half_even_error (q : Q) :
  Qabs (inject_Z (round_half_even q) - q) <= 1 # 2.
Proof.
  pose proof (Qfloor_le q) as H1. pose proof (Qlt_floor q) as H2.
  rewrite inject_Z_plus in H2.
  unfold round_half_even. cbv zeta.
  destruct (Qcompare (q - inject_Z (Qfloor q)) (1 # 2)) eqn:E;
    [destruct (Z.even _)| |]; rewrite ?inject_Z_plus;
    revert H1 H2 E; generalize (inject_Z (Qfloor q)); intros f H1 H2 E;
    change (inject_Z 1) with 1 in *.
  - apply Qeq_alt in E. apply Qabs_Qle_condition; split; lra.
  - apply Qeq_alt in E. apply Qabs_Qle_condition; split; lra.
  - apply Qlt_alt in E. apply Qabs_Qle_condition; split; lra.
  - apply Qgt_alt in E. apply Qabs_Qle_condition; split; lra.
Qed.

Lemma round_half_even_nonneg (q : Q) : 0 <= q -> (0 <= round_half_even q)%Z.
Proof.
  intros H. pose proof (round_half_even_bounds q).
  assert (0 <= Qfloor q)%Z; [|lia].
  change 0%Z with (Qfloor 0). by apply Qfloor_resp_le.
Qed.

Lemma round_half_even_le (q : Q) (n : Z) : q <= inject_Z n -> (round_half_even q <= n)%Z.
Proof.
  intros H. pose proof (round_half_even_bounds q) as B.
  assert (Hf : (Qfloor q <= n)%Z).
  { rewrite <- (Qfloor_Z n). by apply Qfloor_resp_le. }
  destruct (Z.eq_dec (Qfloor q) n) as [E|]; [|lia].
  unfold round_half_even. cbv zeta.
  assert (Hlt : q - inject_Z (Qfloor q) < 1 # 2).
  { rewrite E. lra. }
  destruct (Qcompare (q - inject_Z (Qfloor q)) (1 # 2)) eqn:E2; [|lia|].
  - apply Qeq_alt in E2. rewrite E2 in Hlt. discriminate.
  - apply Qgt_alt in E2. lra.
Qed.

Lemma round_half_even_comp (q1 q2 : Q) :
  q1 == q2 -> round_half_even q1 = round_half_even q2.
Proof.
  intros H. unfold round_half_even. cbv zeta.
  rewrite (Qfloor_comp _ _ H).
  assert (E : q1 - inject_Z (Qfloor q2) == q2 - inject_Z (Qfloor q2))
    by (rewrite H; reflexivity).
  by rewrite (Qcompare_comp _ _ E _ _ (Qeq_refl (1 # 2))).
Qed.

Lemma to_double_Some (q p : Q) :
  to_double q = Some p ->
  p == inject_Z (round_half_even (q / ulp q)) * ulp q /\ Qabs p < 2 ^ 1024.
Proof.
  unfold to_double. destruct (Qeq_bool q 0) eqn:E.
  - intros [= <-]. apply Qeq_bool_iff in E. split; [|reflexivity].
    assert (E0 : q / ulp q == 0).
    { unfold Qdiv. generalize (/ ulp q). intros u. rewrite E. ring. }
    rewrite (round_half_even_comp _ _ E0). change (round_half_even 0) with 0%Z. ring.
  - cbv zeta. destruct (Qle_bool _ _) eqn:E2; [discriminate|]. intros [= <-].
    split; [apply Qred_correct|].
    apply Qnot_le_lt. intros H. apply Qle_bool_iff in H. congruence.
Qed.


Lemma to_double_error (q p : Q) :
  to_double q = Some p -> Qabs (p - q) <= ulp q / 2.
Proof.
  intros H. apply to_double_Some in H as [-> _].
  pose proof (ulp_pos q) as Hu.
  pose proof (round_half_even_error (q / ulp q)) as He.
  assert (E : inject_Z (round_half_even (q / ulp q)) * ulp q - q
              == (inject_Z (round_half_even (q / ulp q)) - q / ulp q) * ulp q).
  { field. lra. }
  rewrite E, Qabs_Qmult, (Qabs_pos (ulp q)) by lra.
  assert (E2 : ulp q / 2 == (1 # 2) * ulp q) by field. rewrite E2.
  apply Qmult_le_compat_r; [done|lra].
Qed.

Lemma binade_unit (q : Q) : Qabs q <= 1 -> (binade q <= 0)%Z.
Proof.
  intros H. unfold binade. cbv zeta.
  assert (Z.log2 (Z.abs (Qnum q)) <= Z.log2 (Z.pos (Qden q)))%Z.
  { apply Z.log2_le_mono. destruct q as [n d]. unfold Qabs, Qle in H. simpl in *. lia. }
  destruct (Qle_bool _ _); lia.
Qed.

Lemma ulp_unit (q : Q) :
  Qabs q <= 1 ->
  exists n : Z, (0 < n)%Z /\ ulp q * inject_Z n == 1 /\ ulp q <= 2 ^ (-52).
Proof.
  intros H. apply binade_unit in H. unfold ulp.
  set (E := Z.max (binade q) (-1022)). assert (HE : (E <= 0)%Z) by lia. clearbody E.
  exists (2 ^ (52 - E))%Z. split; [apply Z.pow_pos_nonneg; lia|]. split.
  - rewrite Zpower_Qpower by lia. change (inject_Z 2) with 2.
    rewrite <- Qpower_plus by discriminate.
    replace (E - 52 + (52 - E))%Z with 0%Z by lia. reflexivity.
  - destruct (Z.eq_dec E 0%Z) as [->|]; [apply Qle_refl|].
    apply Qlt_le_weak, Qpower_lt_compat_l; [lia|reflexivity].
Qed.

(** A number between 0 and 1 has a double between 0 and 1. *)
Lemma to_double_unit (q : Q) :
  0 <= q <= 1 ->
  exists p, to_double q = Some p /\ 0 <= p <= 1 /\ Qabs (p - q) <= 2 ^ (-53).
Proof.
  intros [H0 H1].
  assert (Ha : Qabs q <= 1) by (rewrite Qabs_pos; done).
  destruct (ulp_unit q Ha) as (n & Hn & Hun & Hu52).
  pose proof (ulp_pos q) as Hu.
  assert (Hr : inject_Z (round_half_even (q / ulp q)) * ulp q <= 1).
  { rewrite <- Hun, (Qmult_comm (ulp q)). apply Qmult_le_compat_r; [|lra].
    rewrite <- Zle_Qle. apply round_half_even_le.
    apply Qle_shift_div_r; [done|]. rewrite Qmult_comm, Hun. done. }
  assert (Hr0 : 0 <= inject_Z (round_half_even (q / ulp q)) * ulp q).
  { apply Qmult_le_0_compat; [|lra]. change 0 with (inject_Z 0). rewrite <- Zle_Qle.
    apply round_half_even_nonneg. apply Qle_shift_div_l; [done|]. lra. }
  assert (exists p, to_double q = Some p) as [p Hp].
  { unfold to_double. destruct (Qeq_bool q 0); [eauto|]. cbv zeta.
    destruct (Qle_bool _ _) eqn:E; [|eauto]. exfalso.
    apply Qle_bool_iff in E. rewrite Qred_correct, Qabs_pos in E by done.
    assert (1 < 2 ^ 1024) by reflexivity. lra. }
  exists p. split; [done|].
  pose proof (to_double_error q p Hp) as He.
  apply to_double_Some in Hp as [Hp _]. rewrite Hp. split; [done|].
  rewrite <- Hp. eapply Qle_trans; [exact He|].
  assert (E53 : (2 ^ (-53) == 2 ^ (-52) / 2)) by reflexivity. rewrite E53.
  apply Qmult_le_compat_r; [done|discriminate].
Qed.

(** ** The image of a sprite draw *)

Lemma Qfloor_unique (q : Q) (z : Z) :
  inject_Z z <= q -> q < inject_Z (z + 1) -> Qfloor q = z.
Proof.
  intros H1 H2.
  pose proof (Qfloor_le q) as H3. pose proof (Qlt_floor q) as H4.
  assert (Qfloor q < z + 1)%Z by (rewrite Zlt_Qlt; eapply Qle_lt_trans; eauto).
  assert (z < Qfloor q + 1)%Z by (rewrite Zlt_Qlt; eapply Qle_lt_trans; eauto).
  lia.
Qed.

Lemma Qtrunc_nonneg (q : Q) : 0 <= q -> Qtrunc q = Qfloor q.
Proof. intros H. unfold Qtrunc. apply Qle_bool_iff in H. by rewrite H. Qed.

Lemma Qfloor_div (x : Q) (k : Z) :
  0 <= x -> (0 < k)%Z -> Qfloor (x / inject_Z k) = (Qfloor x / k)%Z.
Proof.
  intros Hx Hk.
  assert (Hk' : 0 < inject_Z k) by (change 0 with (inject_Z 0); by rewrite <- Zlt_Qlt).
  pose proof (Qfloor_le x) as H1. pose proof (Qlt_floor x) as H2.
  pose proof (Z.div_mod (Qfloor x) k ltac:(lia)) as Hdm.
  pose proof (Z.mod_pos_bound (Qfloor x) k Hk) as Hr.
  apply Qfloor_unique.
  - apply Qle_shift_div_l; [done|]. rewrite <- inject_Z_mult.
    eapply Qle_trans; [|exact H1]. rewrite <- Zle_Qle. lia.
  - apply Qlt_shift_div_r; [done|]. rewrite <- inject_Z_mult.
    eapply Qlt_le_trans; [exact H2|]. rewrite <- Zle_Qle. lia.
Qed.

(** The floor of [x % k] is the floor of [x], modulo [k]. *)
Lemma floor_rem (x : Q) (k : Z) :
  0 <= x -> (0 < k)%Z ->
  exists r, js_rem x (inject_Z k) = Some r /\ Qfloor r = (Qfloor x mod k)%Z.
Proof.
  intros Hx Hk.
  assert (Hk' : 0 < inject_Z k) by (change 0 with (inject_Z 0); by rewrite <- Zlt_Qlt).
  unfold js_rem. destruct (Qeq_bool (inject_Z k) 0) eqn:E.
  { apply Qeq_bool_iff in E. rewrite E in Hk'. discriminate. }
  eexists. split; [reflexivity|].
  rewrite Qtrunc_nonneg by (apply Qle_shift_div_l; [done|]; by rewrite Qmult_0_l).
  rewrite Qfloor_div by done.
  pose proof (Qfloor_le x) as H1. pose proof (Qlt_floor x) as H2.
  pose proof (Z.div_mod (Qfloor x) k ltac:(lia)) as Hdm.
  rewrite <- inject_Z_mult.
  apply Qfloor_unique.
  - apply (Qplus_le_l _ _ (inject_Z (k * (Qfloor x / k)))).
    rewrite <- inject_Z_plus. 
    replace (Qfloor x mod k + k * (Qfloor x / k))%Z with (Qfloor x) by lia.
    eapply Qle_trans; [exact H1|]. apply Qle_lteq. right. ring.
  - apply (Qplus_lt_l _ _ (inject_Z (k * (Qfloor x / k)))).
    rewrite <- inject_Z_plus. 
    replace (Qfloor x mod k + 1 + k * (Qfloor x / k))%Z with (Qfloor x + 1)%Z by lia.
    eapply Qle_lt_trans; [|exact H2]. apply Qle_lteq. right. ring.
Qed.

Lemma js_index_inject_Z {A} (arr : list A) (z : Z) :
  (0 <= z)%Z -> js_index arr (inject_Z z) = arr !! Z.to_nat z.
Proof.
  intros Hz. unfold js_index. rewrite Qfloor_Z.
  assert (Qeq_bool (inject_Z z) (inject_Z z) = true) as -> by (by apply Qeq_bool_iff).
  apply Z.leb_le in Hz. by rewrite Hz.
Qed.

(** An integer within the range of the images is selected as it is. *)
Lemma limitImage_in_range (sprite : Sprite) (image : Q) (w : world) :
  (0 <= Qfloor image < Z.of_nat (length (images sprite)))%Z ->
  limitImage sprite image w = Ret (inject_Z (Qfloor image)) w.
Proof.
  intros H. unfold limitImage, Math_floor. rewrite js_index_inject_Z by lia.
  destruct (lookup_lt_is_Some_2 (images sprite) (Z.to_nat (Qfloor image))) as [i ->];
    [lia|reflexivity].
Qed.

Lemma bind_cong {A B} (m1 m2 : M A) (k : A -> M B) (w : world) :
  m1 w = m2 w -> bind m1 k w = bind m2 k w.
Proof. unfold bind. by intros ->. Qed.




(** An image that is not negative wraps: the draw selects the image
    [floor(image) mod k]. *)
Lemma limitImage_wraps (sprite : Sprite) (image : Q) (w : world) :
  (1 <= length (images sprite))%nat -> 0 <= image ->
  exists i,
    limitImage sprite image w = Ret i w
    /\ i == inject_Z (Qfloor image mod Z.of_nat (length (images sprite)))
    /\ js_index (images sprite) i
       = images sprite !! Z.to_nat (Qfloor image mod Z.of_nat (length (images sprite))).
Proof.
  intros Hk Himage.
  assert (Hz : (0 <= Qfloor image)%Z).
  { change 0%Z with (Qfloor (inject_Z 0)). by apply Qfloor_resp_le. }
  destruct (Z.lt_ge_cases (Qfloor image) (Z.of_nat (length (images sprite)))) as [Hlt|Hge].
  - exists (inject_Z (Qfloor image)). rewrite limitImage_in_range by lia.
    rewrite Z.mod_small by lia. split; [done|]. split; [reflexivity|].
    by rewrite js_index_inject_Z.
  - destruct (floor_rem (inject_Z (Qfloor image)) (Z.of_nat (length (images sprite))))
      as (r & Hr & Hfloor).
    { change 0 with (inject_Z 0). by rewrite <- Zle_Qle. }
    { lia. }
    rewrite Qfloor_Z in Hfloor.
    assert (Hint : r == inject_Z (Qfloor r)).
    { unfold js_rem in Hr. destruct (Qeq_bool _ 0); [done|]. injection Hr as <-.
      set (q := Qtrunc _).
      assert (E : inject_Z (Qfloor image)
                  - inject_Z (Z.of_nat (length (images sprite))) * inject_Z q
                  == inject_Z (Qfloor image - Z.of_nat (length (images sprite)) * q)).
      { unfold Qminus, Z.sub. by rewrite inject_Z_plus, inject_Z_opp, inject_Z_mult. }
      rewrite (Qfloor_comp _ _ E), Qfloor_Z. exact E. }
    exists r. split; [|split].
    + unfold limitImage, Math_floor. rewrite js_index_inject_Z by done.
      rewrite lookup_ge_None_2 by lia. unfold js_length. by rewrite Hr.
    + by rewrite <- Hfloor.
    + unfold js_index. apply Qeq_bool_iff in Hint. rewrite Hint, Hfloor.
      pose proof (Z.mod_pos_bound (Qfloor image) (Z.of_nat (length (images sprite)))
                    ltac:(lia)) as Hb.
      destruct (Z.leb_spec 0 (Qfloor image mod Z.of_nat (length (images sprite)))); [done|lia].
Qed.

(** C2 at the input -1, for the four images of [spr.mario]: the remainder
    keeps the sign of the index, so the index stays -1, no image is found
    there, and the draw ends in a [TypeError] before any [drawArrays];
    wrapping would have selected the image 3. *)
Theorem negative_image_throws :
  limitImage mario (-1) example_world = Ret (-1) example_world
  /\ js_index (images mario) (-1) = None
  /\ is_Some (images mario !! Z.to_nat ((-1) mod 4))
  /\ exists w',
       drawSprite mario (-1) 100 100 None VUndefined VUndefined VUndefined VUndefined
         example_world
       = Throw TypeError w'
       /\ draw_calls (calls w') = draw_calls (calls example_world).
Proof.
  vm_compute. split; [reflexivity|]. split; [reflexivity|]. split; [eauto|].
  eexists. split; reflexivity.
Qed.

(** * More properties of [build/main.js] *)

(** Replace the term [t] by a variable [x], in the goal and in the
    hypotheses. *)
Ltac forget t x :=
  repeat match goal with H : context [t] |- _ => revert H end;
  generalize t; intros x; intros.

(** ** [Matrix.copy] and chains *)

Lemma copy_spec (A : ref) (a : list Q) (w : world) :
  matrices w !! A = Some a ->
  Matrix.copy A w
  = Ret (fresh (dom (matrices w))) (with_matrices (insert (fresh (dom (matrices w))) a) w).
Proof.
  intros HA. unfold Matrix.copy, Matrix.values. run. rewrite HA. run. reflexivity.
Qed.

Lemma transformed_other (t : transformation) (A B : ref) (a b : list Q) (w : world) :
  matrices w !! A = Some a -> matrices w !! B = Some b -> A ≠ B ->
  matrices (transformed t A a w) !! B = Some b.
Proof.
  intros HA HB Hne. unfold transformed. cbn [matrices with_matrices].
  rewrite lookup_insert_ne by done. rewrite lookup_insert_ne; [done|].
  by eapply fresh_ne.
Qed.

(** A chain of transformations changes the matrix it is applied to, adds
    instances, and touches nothing else. *)
Lemma chain_frame (ts : list transformation) : forall (A : ref) (a : list Q) (w : world),
  matrices w !! A = Some a -> (9 <= length a)%nat ->
  exists w',
    chain A ts w = Ret A w'
    /\ matrices w' !! A = Some (chain_product (host w) ts a)
    /\ same_but_matrices w w'
    /\ forall (B : ref) (b : list Q),
         matrices w !! B = Some b -> A ≠ B -> matrices w' !! B = Some b.
Proof.
  induction ts as [|t ts IH]; intros A a w HA La; simpl.
  - exists w. repeat split; auto.
  - rewrite (bind_Ret _ _ _ _ _ (transform_spec t A a w HA La)).
    destruct (IH A (mat_product (elementary (host w) t) a) (transformed t A a w))
      as (w' & E & Hm & (F1 & F2 & F3 & F4 & F5) & Hother).
    + apply transformed_lookup.
    + by rewrite mat_product_length.
    + exists w'. split; [done|]. split; [done|]. split; [by repeat split|].
      intros B b HB Hne. apply Hother; [|done]. by apply transformed_other.
Qed.

(** X1. [m.copy()] is a new instance with the coefficients of [m]: a chain
    of [translate], [rotate] and [scale] calls on the copy gives the copy
    the product, and leaves [m] as it was. *)
Theorem copy_is_independent (A : ref) (a : list Q) (ts : list transformation) (w : world) :
  matrices w !! A = Some a -> (9 <= length a)%nat ->
  exists (c : ref) (w' : world),
    bind (Matrix.copy A) (fun c => chain c ts) w = Ret c w'
    /\ c ≠ A
    /\ matrices w !! c = None
    /\ matrices w' !! c = Some (chain_product (host w) ts a)
    /\ matrices w' !! A = Some a.
Proof.
  intros HA La.
  rewrite (bind_Ret _ _ _ _ _ (copy_spec A a w HA)).
  set (c := fresh (dom (matrices w))).
  assert (Hc : c ≠ A) by (by eapply fresh_ne).
  destruct (chain_frame ts c a (with_matrices (insert c a) w)) as (w' & E & Hm & _ & Hother).
  - cbn. by rewrite lookup_insert_eq.
  - done.
  - exists c, w'. split; [done|]. split; [done|]. split.
    + apply not_elem_of_dom. apply is_fresh.
    + split; [done|]. apply Hother; [|done]. cbn. by rewrite lookup_insert_ne.
Qed.

Lemma copy_is_independent_witness :
  exists (c : ref) (w' : world),
    bind (Matrix.copy 2%positive) (fun c => chain c [Scale 2 2; Rotate 1]) two_matrices
    = Ret c w'
    /\ c ≠ 2%positive
    /\ matrices two_matrices !! c = None
    /\ matrices w' !! c
       = Some (chain_product (host two_matrices) [Scale 2 2; Rotate 1] (Matrix.translation 2 3))
    /\ matrices w' !! 2%positive = Some (Matrix.translation 2 3).
Proof.
  apply (copy_is_independent 2%positive (Matrix.translation 2 3) [Scale 2 2; Rotate 1]
           two_matrices).
  - vm_compute. reflexivity.
  - vm_compute. lia.
Defined.

(** ** [Shader.use] *)

(** X2. [use] makes the instance current: used again, it fills its buffer
    again but does not call [gl.useProgram] again; another instance used
    after it does call [gl.useProgram], and becomes the current one. *)
Theorem use_binds_program_once (this other : ref) (s s' : ShaderObj)
    (p1 p2 p3 : option (list Q)) (w : world) :
  shaders w !! this = Some s -> shaders w !! other = Some s' -> this ≠ other ->
  exists w1 w2 w3 : world,
    use this p1 w = Ret tt w1 /\ use this p2 w1 = Ret tt w2 /\ use other p3 w2 = Ret tt w3
    /\ currentProgram (Shader w1) = Some this
    /\ calls w2
       = gl_vertexAttribPointer (positionAttribute s)
         :: gl_bufferData (default (positionOrder (Shader w)) p2) STATIC_DRAW
         :: gl_bindBuffer (buffer s) :: calls w1
    /\ program_binds (calls w2) = program_binds (calls w1)
    /\ calls w3
       = gl_useProgram (program s')
         :: gl_vertexAttribPointer (positionAttribute s')
         :: gl_bufferData (default (positionOrder (Shader w)) p3) STATIC_DRAW
         :: gl_bindBuffer (buffer s') :: calls w2
    /\ currentProgram (Shader w3) = Some other.
Proof.
  intros Hs Hs' Hne.
  exists (used this s (default (positionOrder (Shader w)) p1) w).
  exists (used this s (default (positionOrder (Shader w)) p2)
            (used this s (default (positionOrder (Shader w)) p1) w)).
  exists (used other s' (default (positionOrder (Shader w)) p3)
            (used this s (default (positionOrder (Shader w)) p2)
               (used this s (default (positionOrder (Shader w)) p1) w))).
  split; [by apply use_spec|].
  split; [by rewrite (use_spec this s p2) by done|].
  split; [by rewrite (use_spec other s' p3) by done|].
  split; [done|]. proj.
  rewrite decide_True by done.
  rewrite (decide_False (P := Some this = Some other)) by congruence.
  repeat split; done.
Qed.

Lemma use_binds_program_once_witness :
  exists w1 w2 w3 : world,
    use 1%positive None example_world = Ret tt w1
    /\ use 1%positive (Some [0; 0; 1; 1]) w1 = Ret tt w2
    /\ use 2%positive None w2 = Ret tt w3
    /\ currentProgram (Shader w1) = Some 1%positive
    /\ calls w2
       = gl_vertexAttribPointer (positionAttribute example_image)
         :: gl_bufferData (default (positionOrder (Shader example_world)) (Some [0; 0; 1; 1]))
              STATIC_DRAW
         :: gl_bindBuffer (buffer example_image) :: calls w1
    /\ program_binds (calls w2) = program_binds (calls w1)
    /\ calls w3
       = gl_useProgram (program example_primitive)
         :: gl_vertexAttribPointer (positionAttribute example_primitive)
         :: gl_bufferData (default (positionOrder (Shader example_world)) None) STATIC_DRAW
         :: gl_bindBuffer (buffer example_primitive) :: calls w2
    /\ currentProgram (Shader w3) = Some 2%positive.
Proof.
  apply (use_binds_program_once 1%positive 2%positive example_image example_primitive
           None (Some [0; 0; 1; 1]) None example_world).
  - vm_compute. reflexivity.
  - vm_compute. reflexivity.
  - discriminate.
Defined.

(** ** [new Shader] and [Shader.createShader] *)

Lemma createShader_fail_create (type : ShaderType) (source : string) (w : world) :
  h_createShader (host w) type = false ->
  createShader type source w = Throw (ShaderError FailedToCreateShader) w.
Proof. intros H. unfold createShader. run. rewrite H. reflexivity. Qed.

Lemma createShader_fail_compile (type : ShaderType) (source : string) (w : world) :
  h_createShader (host w) type = true ->
  h_COMPILE_STATUS (host w) {| sh_type := type; sh_source := source |} = false ->
  createShader type source w
  = Throw (ShaderError (FailedToCompileShader
             (h_shaderInfoLog (host w) {| sh_type := type; sh_source := source |})))
      (with_calls (fun cs => gl_deleteShader {| sh_type := type; sh_source := source |}
                             :: gl_compileShader {| sh_type := type; sh_source := source |}
                             :: gl_shaderSource {| sh_type := type; sh_source := source |}
                             :: cs) w).
Proof.
  intros H1 H2. unfold createShader. run. rewrite H1. cbn [negb]. run.
  rewrite H2. cbn [negb]. run. reflexivity.
Qed.

Lemma Shader_new_constructed (opt : ShaderOptions) (w : world) :
  constructible (host w) opt ->
  Shader_new opt w = Ret (fresh (dom (shaders w))) (constructed opt w).
Proof.
  intros ((V1 & V2 & F1 & F2 & P1 & P2) & NL & B).
  unfold lacks_required_slot in NL. cbv zeta in NL.
  construct opt V1 V2 F1 F2 P1 P2.
  destruct (h_attribLocation (host w) (program_of opt) (Names.positionAttribute (names opt))
            =? -1)%Z eqn:EA; [exfalso; apply NL; left; lia|].
  destruct (h_hasUniform (host w) (program_of opt) (Names.positionUniform (names opt))) eqn:EU;
    [|exfalso; apply NL; auto].
  destruct (h_hasUniform (host w) (program_of opt) (Names.blendUniform (names opt))) eqn:EB;
    [|exfalso; apply NL; auto].
  rewrite !getUniformLocation_Some by done.
  unfold texture_slots, constructed, shader_object. cbn [textureAttribute positionAttribute].
  destruct (useTexture opt) eqn:ET.
  - destruct (h_attribLocation (host w) (program_of opt)
                (or_empty (Names.textureAttribute (names opt))) =? -1)%Z eqn:ETA;
      [exfalso; apply NL; right; right; right; split; [done|left; lia]|].
    destruct (h_hasUniform (host w) (program_of opt)
                (or_empty (Names.textureUniform (names opt)))) eqn:ETU;
      [|exfalso; apply NL; right; right; right; split; [done|by right]].
    rewrite getUniformLocation_Some by done. run. rewrite B. cbn [negb].
    unfold gl_create at 1. rewrite bind_Ret with (a := gl_fresh w)
      (w' := with_gl_fresh Pos.succ (linked opt w)) by reflexivity.
    run.
    destruct (h_attribLocation (host w) (program_of opt)
                (or_empty (Names.textureAttribute (names opt))) =? 0)%Z; run; reflexivity.
  - run. rewrite B. cbn [negb].
    unfold gl_create at 1. rewrite bind_Ret with (a := gl_fresh w)
      (w' := with_gl_fresh Pos.succ (linked opt w)) by reflexivity.
    run. reflexivity.
Qed.

Lemma constructed_frame (opt : ShaderOptions) (w : world) :
  shaders w !! fresh (dom (shaders w)) = None
  /\ shaders (constructed opt w)
     = <[fresh (dom (shaders w)) := shader_object (host w) opt (gl_fresh w)]> (shaders w)
  /\ Shader (constructed opt w) = Shader w
  /\ matrices (constructed opt w) = matrices w
  /\ host (constructed opt w) = host w
  /\ gl_fresh (constructed opt w) = Pos.succ (gl_fresh w).
Proof.
  split; [apply not_elem_of_dom, is_fresh|]. repeat split; reflexivity.
Qed.

Ltac not_constructible :=
  let H := fresh "NL" in
  intros ((?&?&?&?&?&?) & H & ?);
  first [ congruence
        | apply H; unfold lacks_required_slot; cbv zeta;
          first [ left; lia
                | right; left; congruence
                | right; right; left; congruence
                | right; right; right; split; [done|left; lia]
                | right; right; right; split; [done|right; congruence] ] ].

(** X3. [new Shader(opt)] either returns a new instance or throws a
    [ShaderError], and nothing else.  It returns exactly when the host
    compiles and links the program, the program has every required name and
    a buffer can be created; the instance is then new in the store, with
    the locations the host gave.  When it throws, no instance has entered
    the store, no buffer was created and the statics are untouched. *)
Theorem Shader_new_outcome (opt : ShaderOptions) (w : world) :
  match Shader_new opt w with
  | Ret r w' =>
      constructible (host w) opt
      /\ shaders w !! r = None
      /\ shaders w' = <[r := shader_object (host w) opt (gl_fresh w)]> (shaders w)
      /\ Shader w' = Shader w
  | Throw (ShaderError _) w' =>
      ~ constructible (host w) opt
      /\ shaders w' = shaders w /\ Shader w' = Shader w /\ gl_fresh w' = gl_fresh w
  | Throw _ _ | NonFinite _ => False
  end.
Proof.
  destruct (h_createShader (host w) VERTEX_SHADER) eqn:V1; cycle 1.
  { unfold Shader_new. run.
    erewrite bind_Throw by (by apply createShader_fail_create).
    split; [not_constructible|done]. }
  destruct (h_COMPILE_STATUS (host w) (pr_vertex (program_of opt))) eqn:V2; cycle 1.
  { unfold Shader_new. run.
    erewrite bind_Throw by (by apply createShader_fail_compile).
    split; [not_constructible|done]. }
  destruct (h_createShader (host w) FRAGMENT_SHADER) eqn:F1; cycle 1.
  { unfold Shader_new. run.
    erewrite bind_Ret by (by apply createShader_spec).
    erewrite bind_Throw by (by apply createShader_fail_create).
    split; [not_constructible|done]. }
  destruct (h_COMPILE_STATUS (host w) (pr_fragment (program_of opt))) eqn:F2; cycle 1.
  { unfold Shader_new. run.
    erewrite bind_Ret by (by apply createShader_spec).
    erewrite bind_Throw by (by apply createShader_fail_compile).
    split; [not_constructible|done]. }
  destruct (h_createProgram (host w)) eqn:P1; cycle 1.
  { unfold Shader_new. run.
    erewrite bind_Ret by (by apply createShader_spec).
    erewrite bind_Ret by (by apply createShader_spec).
    rewrite P1. cbn [negb]. split; [not_constructible|done]. }
  destruct (h_LINK_STATUS (host w) (program_of opt)) eqn:P2; cycle 1.
  { construct opt V1 V2 F1 F2 P1 P2. run. split; [not_constructible|done]. }
  destruct (h_attribLocation (host w) (program_of opt) (Names.positionAttribute (names opt))
            =? -1)%Z eqn:EA.
  { construct opt V1 V2 F1 F2 P1 P2. rewrite EA. split; [not_constructible|done]. }
  destruct (h_hasUniform (host w) (program_of opt) (Names.positionUniform (names opt))) eqn:EU;
    cycle 1.
  { construct opt V1 V2 F1 F2 P1 P2. rewrite EA.
    rewrite getUniformLocation_None by done. split; [not_constructible|done]. }
  destruct (h_hasUniform (host w) (program_of opt) (Names.blendUniform (names opt))) eqn:EB;
    cycle 1.
  { construct opt V1 V2 F1 F2 P1 P2. rewrite EA.
    rewrite getUniformLocation_Some by done.
    rewrite getUniformLocation_None by done. split; [not_constructible|done]. }
  assert (Htex : useTexture opt = false
                 \/ useTexture opt = true
                    /\ (h_attribLocation (host w) (program_of opt)
                          (or_empty (Names.textureAttribute (names opt))) =? -1)%Z = false
                    /\ h_hasUniform (host w) (program_of opt)
                         (or_empty (Names.textureUniform (names opt))) = true
                 \/ useTexture opt = true
                    /\ ((h_attribLocation (host w) (program_of opt)
                          (or_empty (Names.textureAttribute (names opt))) =? -1)%Z = true
                        \/ (h_attribLocation (host w) (program_of opt)
                              (or_empty (Names.textureAttribute (names opt))) =? -1)%Z = false
                           /\ h_hasUniform (host w) (program_of opt)
                                (or_empty (Names.textureUniform (names opt))) = false)).
  { destruct (useTexture opt); [|by left]. right.
    destruct (h_attribLocation (host w) (program_of opt)
                (or_empty (Names.textureAttribute (names opt))) =? -1)%Z;
      [right; split; [done|by left]|].
    destruct (h_hasUniform (host w) (program_of opt)
                (or_empty (Names.textureUniform (names opt))));
      [left; repeat split; done|].
    right. split; [done|]. right. split; done. }
  destruct Htex as [ET | [(ET & ETA & ETU) | (ET & Hbad)]]; cycle 2.
  { construct opt V1 V2 F1 F2 P1 P2. rewrite EA.
    rewrite !getUniformLocation_Some by done.
    unfold texture_slots. rewrite ET.
    destruct Hbad as [ETA | (ETA & ETU)]; rewrite ETA.
    - run. split; [not_constructible|done].
    - rewrite getUniformLocation_None by done. run. split; [not_constructible|done]. }
  all: destruct (h_createBuffer (host w)) eqn:B.
  all: try (rewrite Shader_new_constructed;
            [ split;
              [ split; [done|]; split; [|done]; unfold lacks_required_slot; cbv zeta;
                intros [?|[?|[?|(?&[?|?])]]]; first [congruence | lia]
              | destruct (constructed_frame opt w) as (?&?&?&?&?&?); done ]
            | split; [done|]; split; [|done]; unfold lacks_required_slot; cbv zeta;
              intros [?|[?|[?|(?&[?|?])]]]; first [congruence | lia] ]).
  - construct opt V1 V2 F1 F2 P1 P2. rewrite EA.
    rewrite !getUniformLocation_Some by done.
    unfold texture_slots. rewrite ET. run. rewrite B. cbn [negb].
    split; [not_constructible|done].
  - construct opt V1 V2 F1 F2 P1 P2. rewrite EA.
    rewrite !getUniformLocation_Some by done.
    unfold texture_slots. rewrite ET, ETA. rewrite getUniformLocation_Some by done.
    run. rewrite B. cbn [negb]. split; [not_constructible|done].
Qed.

(** ** [Shader.setProjection] and [Shader.init] *)

Lemma setProjection_projected (vw vh : Q) (dw dh : option Q) (prim : ref) (s : ShaderObj)
    (w : world) :
  primitiveShader (Shader w) = Some prim -> shaders w !! prim = Some s ->
  ~ vw == 0 -> ~ vh == 0 ->
  setProjection vw vh dw dh w = Ret tt (projected vw vh dw dh prim s w).
Proof.
  intros Hprim Hs Hvw Hvh. unfold setProjection. run.
  rewrite (bind_Ret _ _ _ _ _ (projection_spec vw vh _ Hvw Hvh)). run. proj.
  rewrite Hprim. run. erewrite run_use by (proj; exact Hs). cbn [default].
  unfold shader. run. proj. rewrite Hs. run.
  unfold Matrix.values. run. proj. rewrite lookup_insert_eq. run. proj.
  rewrite !js_div_Some by done. run. unfold projected. cbv zeta. proj.
  reflexivity.
Qed.

Lemma run_gl_create {B} (k : WebGLObject -> M B) (w : world) :
  bind gl_create k w = k (gl_fresh w) (with_gl_fresh Pos.succ w).
Proof. reflexivity. Qed.

Lemma call_Ret (c : Call) (w : world) : call c w = Ret tt (with_calls (cons c) w).
Proof. reflexivity. Qed.

(** What [Shader.setProjection] changes, and what it keeps. *)
Lemma projected_facts (vw vh : Q) (dw dh : option Q) (prim : ref) (s : ShaderObj) (w : world) :
  let w' := projected vw vh dw dh prim s w in
  (viewWidth (Shader w') = vw /\ viewHeight (Shader w') = vh
   /\ displayWidth (Shader w') = num_or dw vw /\ displayHeight (Shader w') = num_or dh vh
   /\ cv_width w' = num_or dw vw /\ cv_height w' = num_or dh vh)
  /\ (projection (Shader w') = Some (fresh (dom (matrices w)))
      /\ matrices w' = <[fresh (dom (matrices w)) := [2 / vw; 0; 0; 0; -2 / vh; 0; -1; 1; 1]]>
                         (matrices w)
      /\ currentProgram (Shader w') = Some prim)
  /\ (shaders w' = shaders w /\ host w' = host w /\ gl_fresh w' = gl_fresh w
      /\ innerWidth w' = innerWidth w /\ innerHeight w' = innerHeight w)
  /\ (imageShader (Shader w') = imageShader (Shader w)
      /\ primitiveShader (Shader w') = primitiveShader (Shader w)
      /\ internalTimer (Shader w') = internalTimer (Shader w)
      /\ positionOrder (Shader w') = positionOrder (Shader w)
      /\ backgroundColor (Shader w') = backgroundColor (Shader w))
  /\ (responsive (Shader w') = responsive (Shader w)
      /\ maintainAspectRatio (Shader w') = maintainAspectRatio (Shader w)
      /\ scalePerfectly (Shader w') = scalePerfectly (Shader w)).
Proof. repeat split; reflexivity. Qed.

(** X4. [Shader.setProjection] sets the logical size, and the display size
    and the size of the canvases to the display size given, or to the
    logical size where none or 0 is given.  The projection is a new matrix
    instance (the matrices there were are untouched); the primitive shader
    is made current and receives the coefficients of the projection as its
    position matrix; the 2D context is scaled by display size over logical
    size. *)
Theorem setProjection_sizes (vw vh : Q) (dw dh : option Q) (prim : ref) (s : ShaderObj)
    (w : world) :
  primitiveShader (Shader w) = Some prim -> shaders w !! prim = Some s ->
  ~ vw == 0 -> ~ vh == 0 ->
  exists (w' : world) (p : ref),
    setProjection vw vh dw dh w = Ret tt w'
    /\ viewWidth (Shader w') = vw /\ viewHeight (Shader w') = vh
    /\ cv_width w' = displayWidth (Shader w') /\ cv_height w' = displayHeight (Shader w')
    /\ (dw = None \/ (exists d, dw = Some d /\ d == 0) -> displayWidth (Shader w') = vw)
    /\ (dh = None \/ (exists d, dh = Some d /\ d == 0) -> displayHeight (Shader w') = vh)
    /\ (forall d, dw = Some d -> ~ d == 0 -> displayWidth (Shader w') = d)
    /\ (forall d, dh = Some d -> ~ d == 0 -> displayHeight (Shader w') = d)
    /\ projection (Shader w') = Some p
    /\ matrices w !! p = None
    /\ matrices w' !! p = Some [2 / vw; 0; 0; 0; -2 / vh; 0; -1; 1; 1]
    /\ (forall m vs, matrices w !! m = Some vs -> matrices w' !! m = Some vs)
    /\ currentProgram (Shader w') = Some prim
    /\ gl_uniformMatrix3fv (Some (positionMatrix s)) [2 / vw; 0; 0; 0; -2 / vh; 0; -1; 1; 1]
       ∈ calls w'
    /\ calls w' !! 0%nat
       = Some (ctx_scale (displayWidth (Shader w') / vw) (displayHeight (Shader w') / vh)).
Proof.
  intros Hprim Hs Hvw Hvh.
  exists (projected vw vh dw dh prim s w), (fresh (dom (matrices w))).
  split; [by apply setProjection_projected|].
  destruct (projected_facts vw vh dw dh prim s w)
    as ((V1 & V2 & V3 & V4 & V5 & V6) & (Q1 & Q2 & Q3) & _).
  assert (Hfresh : matrices w !! fresh (dom (matrices w)) = None)
    by apply not_elem_of_dom, is_fresh.
  rewrite V1, V2, V3, V4, V5, V6, Q1, Q2, Q3, lookup_insert_eq.
  repeat (split; [done|]).
  assert (Hzero : forall d v : Q, d == 0 -> num_or (Some d) v = v).
  { intros d v Hd. unfold num_or. apply Qeq_bool_iff in Hd. by rewrite Hd. }
  split; [intros [-> | (d & -> & Hd)]; [done|by apply Hzero]|].
  split; [intros [-> | (d & -> & Hd)]; [done|by apply Hzero]|].
  split; [intros d -> Hd; by apply num_or_Some|].
  split; [intros d -> Hd; by apply num_or_Some|].
  repeat (split; [done|]).
  split.
  { intros m vs Hm. rewrite lookup_insert_ne; [done|]. intros <-. congruence. }
  split; [done|]. split; [|done].
  unfold projected. cbv zeta. proj. set_solver.
Qed.

Lemma setProjection_sizes_witness :
  exists (w' : world) (p : ref),
    setProjection 320 200 (Some 0) None example_world = Ret tt w'
    /\ viewWidth (Shader w') = 320 /\ viewHeight (Shader w') = 200
    /\ cv_width w' = displayWidth (Shader w') /\ cv_height w' = displayHeight (Shader w')
    /\ (Some 0 = None \/ (exists d, Some 0 = Some d /\ d == 0) ->
        displayWidth (Shader w') = 320)
    /\ (@None Q = None \/ (exists d, @None Q = Some d /\ d == 0) ->
        displayHeight (Shader w') = 200)
    /\ (forall d, Some 0 = Some d -> ~ d == 0 -> displayWidth (Shader w') = d)
    /\ (forall d, @None Q = Some d -> ~ d == 0 -> displayHeight (Shader w') = d)
    /\ projection (Shader w') = Some p
    /\ matrices example_world !! p = None
    /\ matrices w' !! p = Some [2 / 320; 0; 0; 0; -2 / 200; 0; -1; 1; 1]
    /\ (forall m vs, matrices example_world !! m = Some vs -> matrices w' !! m = Some vs)
    /\ currentProgram (Shader w') = Some 2%positive
    /\ gl_uniformMatrix3fv (Some (positionMatrix example_primitive))
         [2 / 320; 0; 0; 0; -2 / 200; 0; -1; 1; 1]
       ∈ calls w'
    /\ calls w' !! 0%nat
       = Some (ctx_scale (displayWidth (Shader w') / 320) (displayHeight (Shader w') / 200)).
Proof.
  apply (setProjection_sizes 320 200 (Some 0) None 2%positive example_primitive
           example_world).
  - vm_compute. reflexivity.
  - vm_compute. reflexivity.
  - vm_compute. discriminate.
  - vm_compute. discriminate.
Defined.

(** X5. On a host on which both shader programs can be constructed and
    the texture and the framebuffer can be created, [Shader.init] returns
    for every logical size other than 0, and leaves everything in place
    for drawing: two distinct shader instances, a frame timer of 0, the
    logical and display sizes of [setProjection], the projection matrix of
    the logical size, and the primitive shader as the current program. *)
Theorem init_makes_ready (vw vh : Q) (dw dh : option Q) (io po : option ShaderOptions)
    (pos tri : option (list Q)) (w : world) :
  constructible (host w) (default defaultImageOptions io) ->
  constructible (host w) (default defaultPrimitiveOptions po) ->
  h_createTexture (host w) = true -> h_createFramebuffer (host w) = true ->
  ~ vw == 0 -> ~ vh == 0 ->
  exists (w' : world) (img prim p : ref),
    init vw vh dw dh io po pos tri w = Ret tt w'
    /\ imageShader (Shader w') = Some img /\ primitiveShader (Shader w') = Some prim
    /\ img ≠ prim
    /\ shaders w' !! img
       = Some (shader_object (host w) (default defaultImageOptions io) (gl_fresh w))
    /\ shaders w' !! prim
       = Some (shader_object (host w) (default defaultPrimitiveOptions po)
                 (Pos.succ (gl_fresh w)))
    /\ internalTimer (Shader w') = 0%Z
    /\ currentProgram (Shader w') = Some prim
    /\ viewWidth (Shader w') = vw /\ viewHeight (Shader w') = vh
    /\ displayWidth (Shader w') = num_or dw vw /\ displayHeight (Shader w') = num_or dh vh
    /\ cv_width w' = num_or dw vw /\ cv_height w' = num_or dh vh
    /\ projection (Shader w') = Some p
    /\ matrices w' !! p = Some [2 / vw; 0; 0; 0; -2 / vh; 0; -1; 1; 1]
    /\ positionOrder (Shader w') = default defaultPositionOrder pos
    /\ sprite_ready w' /\ primitive_ready w'.
Proof.
  intros CI CP HT HF Hvw Hvh. unfold init. run.
  (* the statics are reset *)
  match goal with |- context [bind (Shader_new _) _ ?w0'] =>
    assert (T0 : internalTimer (Shader w0') = 0%Z) by reflexivity;
    assert (O0 : positionOrder (Shader w0') = default defaultPositionOrder pos) by reflexivity;
    change (host w) with (host w0') in *;
    change (gl_fresh w) with (gl_fresh w0');
    forget w0' w0
  end.
  clear w.
  (* the image shader *)
  rewrite (bind_Ret _ _ _ _ _ (Shader_new_constructed _ w0 CI)). run.
  destruct (constructed_frame (default defaultImageOptions io) w0)
    as (I1 & I2 & I3 & I4 & I5 & I6).
  forget (fresh (dom (shaders w0))) img.
  forget (constructed (default defaultImageOptions io) w0) wA.
  match goal with |- context [bind (Shader_new _) _ ?w1'] =>
    assert (H1 : host w1' = host w0) by (proj; done);
    assert (G1 : gl_fresh w1' = Pos.succ (gl_fresh w0)) by (proj; done);
    assert (S1 : shaders w1' = shaders wA) by reflexivity;
    assert (T1 : internalTimer (Shader w1') = 0%Z) by (proj; by rewrite I3);
    assert (O1 : positionOrder (Shader w1') = default defaultPositionOrder pos)
      by (proj; by rewrite I3);
    assert (M1 : imageShader (Shader w1') = Some img) by reflexivity;
    forget w1' w1
  end.
  (* the primitive shader *)
  rewrite <- H1 in CP.
  rewrite (bind_Ret _ _ _ _ _ (Shader_new_constructed _ w1 CP)). run.
  destruct (constructed_frame (default defaultPrimitiveOptions po) w1)
    as (P1 & P2 & P3 & P4 & P5 & P6).
  forget (fresh (dom (shaders w1))) prim.
  forget (constructed (default defaultPrimitiveOptions po) w1) wB.
  assert (Hne : img ≠ prim).
  { intros ->. rewrite S1, I2, lookup_insert_eq in P1. done. }
  change (host (with_calls _ _)) with (host wB). rewrite P5, H1, HT. cbn [negb].
  rewrite run_gl_create. run.
  (* the projection *)
  match goal with |- context [bind (setProjection vw vh dw dh) _ ?w3'] =>
    assert (Hprim : primitiveShader (Shader w3') = Some prim) by reflexivity;
    assert (Himg : imageShader (Shader w3') = Some img) by (proj; by rewrite P3);
    assert (Htimer : internalTimer (Shader w3') = 0%Z) by (proj; by rewrite P3);
    assert (Hpos : positionOrder (Shader w3') = default defaultPositionOrder pos)
      by (proj; by rewrite P3);
    assert (Hs : shaders w3' !! prim
                 = Some (shader_object (host w0) (default defaultPrimitiveOptions po)
                           (Pos.succ (gl_fresh w0))))
      by (proj; by rewrite P2, lookup_insert_eq, H1, G1);
    assert (HsI : shaders w3' !! img
                  = Some (shader_object (host w0) (default defaultImageOptions io)
                            (gl_fresh w0)))
      by (proj; rewrite P2, lookup_insert_ne by done; by rewrite S1, I2, lookup_insert_eq);
    forget w3' w3
  end.
  rewrite (bind_Ret _ _ _ _ _ (setProjection_projected vw vh dw dh prim _ w3
                                 Hprim Hs Hvw Hvh)).
  run.
  destruct (projected_facts vw vh dw dh prim
              (shader_object (host w0) (default defaultPrimitiveOptions po)
                 (Pos.succ (gl_fresh w0))) w3)
    as ((V1 & V2 & V3 & V4 & V5 & V6) & (Q1 & Q2 & Q3) & (K1 & K2 & K3 & K4 & K5)
        & (Z1 & Z2 & Z3 & Z4 & Z5) & _).
  forget (projected vw vh dw dh prim
            (shader_object (host w0) (default defaultPrimitiveOptions po)
               (Pos.succ (gl_fresh w0))) w3) w4.
  rewrite HF. cbn [negb]. rewrite run_gl_create. run.
  rewrite call_Ret.
  eexists _, img, prim, (fresh (dom (matrices w3))). split; [reflexivity|]. proj.
  rewrite Z1, Z2, Z3, Z4, K1, V1, V2, V3, V4, V5, V6, Q1, Q2, Q3, lookup_insert_eq.
  rewrite Himg, Hprim, Htimer, Hpos, Hs, HsI.
  repeat (split; [done|]).
  split.
  - exists img, (shader_object (host w0) (default defaultImageOptions io) (gl_fresh w0)),
      (fresh (dom (matrices w3))). eexists. proj.
    rewrite Z1, K1, Q1, Q2, lookup_insert_eq, Himg, HsI. repeat split; done.
  - exists prim. eexists. proj. rewrite Z2, K1, Hprim, Hs. split; done.
Qed.

Lemma init_makes_ready_witness :
  exists (w' : world) (img prim p : ref),
    init 400 240 None None None None None None (before_init example_host 850 500) = Ret tt w'
    /\ imageShader (Shader w') = Some img /\ primitiveShader (Shader w') = Some prim
    /\ img ≠ prim
    /\ shaders w' !! img
       = Some (shader_object (host (before_init example_host 850 500))
                 (default defaultImageOptions None)
                 (gl_fresh (before_init example_host 850 500)))
    /\ shaders w' !! prim
       = Some (shader_object (host (before_init example_host 850 500))
                 (default defaultPrimitiveOptions None)
                 (Pos.succ (gl_fresh (before_init example_host 850 500))))
    /\ internalTimer (Shader w') = 0%Z
    /\ currentProgram (Shader w') = Some prim
    /\ viewWidth (Shader w') = 400 /\ viewHeight (Shader w') = 240
    /\ displayWidth (Shader w') = num_or None 400 /\ displayHeight (Shader w') = num_or None 240
    /\ cv_width w' = num_or None 400 /\ cv_height w' = num_or None 240
    /\ projection (Shader w') = Some p
    /\ matrices w' !! p = Some [2 / 400; 0; 0; 0; -2 / 240; 0; -1; 1; 1]
    /\ positionOrder (Shader w') = default defaultPositionOrder None
    /\ sprite_ready w' /\ primitive_ready w'.
Proof.
  apply (init_makes_ready 400 240 None None None None None None
           (before_init example_host 850 500)).
  - split; [vm_compute; repeat split; reflexivity|]. split; [|reflexivity].
    vm_compute. intros [H|[H|[H|[H' [H|H]]]]]; discriminate.
  - split; [vm_compute; repeat split; reflexivity|]. split; [|reflexivity].
    vm_compute. intros [H|[H|[H|[H' [H|H]]]]]; discriminate.
  - reflexivity.
  - reflexivity.
  - vm_compute. discriminate.
  - vm_compute. discriminate.
Defined.

(** ** [resizeCanvas] *)

Lemma Qle_bool_false (a b : Q) : Qle_bool a b = false -> b < a.
Proof.
  intros H. apply Qnot_le_lt. intros Hle. apply Qle_bool_iff in Hle. congruence.
Qed.

Lemma Qpos_nonzero (q : Q) : 0 < q -> ~ q == 0.
Proof. intros H E. rewrite E in H. by apply Qlt_irrefl in H. Qed.

Lemma resized_view_pos (r : Responsive) (aspect : bool) (vw vh iw ih : Q) :
  0 < vw -> 0 < vh -> 0 < iw -> 0 < ih ->
  0 < (resized_view r aspect vw vh iw ih).1 /\ 0 < (resized_view r aspect vw vh iw ih).2.
Proof.
  intros Hvw Hvh Hiw Hih.
  assert (Hr : 0 < vw / vh) by (apply Qlt_shift_div_l; [done|]; by rewrite Qmult_0_l).
  unfold resized_view. destruct r; [done| |done].
  destruct aspect; [|done].
  destruct (Qle_bool iw ih); cbn [negb fst snd]; split; try done.
  - apply Qlt_shift_div_l; [done|]. by rewrite Qmult_0_l.
  - by apply Qmult_lt_0_compat.
Qed.

(** [resizeCanvas], for a window and a logical size that are positive. *)
Lemma resizeCanvas_spec (prim : ref) (s : ShaderObj) (w : world) :
  primitiveShader (Shader w) = Some prim -> shaders w !! prim = Some s ->
  0 < viewWidth (Shader w) -> 0 < viewHeight (Shader w) ->
  0 < innerWidth w -> 0 < innerHeight w ->
  exists w' : world,
    resizeCanvas w = Ret tt w'
    /\ (viewWidth (Shader w'), viewHeight (Shader w'))
       = resized_view (responsive (Shader w)) (maintainAspectRatio (Shader w))
           (viewWidth (Shader w)) (viewHeight (Shader w)) (innerWidth w) (innerHeight w)
    /\ (displayWidth (Shader w'), displayHeight (Shader w'))
       = resized_display (responsive (Shader w)) (maintainAspectRatio (Shader w))
           (scalePerfectly (Shader w))
           (viewWidth (Shader w)) (viewHeight (Shader w)) (innerWidth w) (innerHeight w)
           (displayWidth (Shader w)) (displayHeight (Shader w))
    /\ (responsive (Shader w) ≠ responsive_static ->
        cv_width w' = displayWidth (Shader w') /\ cv_height w' = displayHeight (Shader w'))
    /\ (responsive (Shader w') = responsive (Shader w)
        /\ maintainAspectRatio (Shader w') = maintainAspectRatio (Shader w)
        /\ scalePerfectly (Shader w') = scalePerfectly (Shader w)
        /\ innerWidth w' = innerWidth w /\ innerHeight w' = innerHeight w)
    /\ primitiveShader (Shader w') = Some prim /\ shaders w' !! prim = Some s.
Proof.
  intros Hprim Hs Hvw Hvh Hiw Hih.
  pose proof (resized_view_pos (responsive (Shader w)) (maintainAspectRatio (Shader w))
                _ _ _ _ Hvw Hvh Hiw Hih) as [Pw Ph].
  pose proof (Qpos_nonzero _ Hvw) as Hvw0. pose proof (Qpos_nonzero _ Hvh) as Hvh0.
  pose proof (Qpos_nonzero _ Hiw) as Hiw0. pose proof (Qpos_nonzero _ Hih) as Hih0.
  assert (Hr0 : ~ viewWidth (Shader w) / viewHeight (Shader w) == 0).
  { apply Qpos_nonzero. apply Qlt_shift_div_l; [done|]. by rewrite Qmult_0_l. }
  unfold resizeCanvas. run. unfold compose.
  unfold resized_view, resized_display, resized_view in *.
  destruct (responsive (Shader w)) eqn:ER.
  - exists w. rewrite ER. repeat split; done.
  - destruct (maintainAspectRatio (Shader w)) eqn:EA.
    + rewrite (js_div_Some _ _ Hvh0). run.
      destruct (Qle_bool (innerWidth w) (innerHeight w)) eqn:EC; cbn [negb fst snd] in *.
      * rewrite (js_div_Some _ _ Hr0). run.
        pose proof (Qpos_nonzero _ Ph) as Hn.
        rewrite (setProjection_projected _ _ _ _ prim s w Hprim Hs Hiw0 Hn).
        eexists. split; [reflexivity|].
        destruct (projected_facts (innerWidth w)
                    (innerWidth w / (viewWidth (Shader w) / viewHeight (Shader w)))
                    None None prim s w)
          as ((V1 & V2 & V3 & V4 & V5 & V6) & _ & (K1 & K2 & K3 & K4 & K5)
              & (Z1 & Z2 & Z3 & Z4 & Z5) & (R1 & R2 & R3)).
        rewrite V1, V2, V3, V4, V5, V6, K1, K4, K5, Z2, R1, R2, R3, ER, EA.
        repeat split; done.
      * pose proof (Qpos_nonzero _ Pw) as Hn.
        rewrite (setProjection_projected _ _ _ _ prim s w Hprim Hs Hn Hih0).
        eexists. split; [reflexivity|].
        destruct (projected_facts
                    (innerHeight w * (viewWidth (Shader w) / viewHeight (Shader w)))
                    (innerHeight w) None None prim s w)
          as ((V1 & V2 & V3 & V4 & V5 & V6) & _ & (K1 & K2 & K3 & K4 & K5)
              & (Z1 & Z2 & Z3 & Z4 & Z5) & (R1 & R2 & R3)).
        rewrite V1, V2, V3, V4, V5, V6, K1, K4, K5, Z2, R1, R2, R3, ER, EA.
        repeat split; done.
    + rewrite (setProjection_projected _ _ _ _ prim s w Hprim Hs Hiw0 Hih0).
      eexists. split; [reflexivity|].
      destruct (projected_facts (innerWidth w) (innerHeight w) None None prim s w)
        as ((V1 & V2 & V3 & V4 & V5 & V6) & _ & (K1 & K2 & K3 & K4 & K5)
            & (Z1 & Z2 & Z3 & Z4 & Z5) & (R1 & R2 & R3)).
      rewrite V1, V2, V3, V4, V5, V6, K1, K4, K5, Z2, R1, R2, R3, ER, EA.
      repeat split; done.
  - destruct (maintainAspectRatio (Shader w)) eqn:EA.
    + assert (Hscale : (if negb (Qle_bool (innerHeight w) (innerWidth w))
                        then finite (js_div (innerWidth w) (viewWidth (Shader w)))
                        else finite (js_div (innerHeight w) (viewHeight (Shader w))))
                       = finite (Some (if negb (Qle_bool (innerHeight w) (innerWidth w))
                                       then innerWidth w / viewWidth (Shader w)
                                       else innerHeight w / viewHeight (Shader w)))).
      { destruct (negb _); by rewrite js_div_Some. }
      rewrite Hscale. run.
      fold (scale_factor (viewWidth (Shader w)) (viewHeight (Shader w))
              (innerWidth w) (innerHeight w) (scalePerfectly (Shader w))).
      pose proof (scale_factor_ge_1 (viewWidth (Shader w)) (viewHeight (Shader w))
                    (innerWidth w) (innerHeight w) (scalePerfectly (Shader w))) as Hf.
      rewrite (setProjection_projected _ _ _ _ prim s w Hprim Hs Hvw0 Hvh0).
      eexists. split; [reflexivity|].
      destruct (projected_facts (viewWidth (Shader w)) (viewHeight (Shader w))
                  (Some (viewWidth (Shader w) * scale_factor (viewWidth (Shader w))
                           (viewHeight (Shader w)) (innerWidth w) (innerHeight w)
                           (scalePerfectly (Shader w))))
                  (Some (viewHeight (Shader w) * scale_factor (viewWidth (Shader w))
                           (viewHeight (Shader w)) (innerWidth w) (innerHeight w)
                           (scalePerfectly (Shader w)))) prim s w)
        as ((V1 & V2 & V3 & V4 & V5 & V6) & _ & (K1 & K2 & K3 & K4 & K5)
            & (Z1 & Z2 & Z3 & Z4 & Z5) & (R1 & R2 & R3)).
      rewrite V1, V2, V3, V4, V5, V6, K1, K4, K5, Z2, R1, R2, R3, ER, EA.
      rewrite !num_or_Some by (by apply scaled_nonzero).
      repeat split; done.
    + rewrite (setProjection_projected _ _ _ _ prim s w Hprim Hs Hvw0 Hvh0).
      eexists. split; [reflexivity|].
      destruct (projected_facts (viewWidth (Shader w)) (viewHeight (Shader w))
                  (Some (innerWidth w)) (Some (innerHeight w)) prim s w)
        as ((V1 & V2 & V3 & V4 & V5 & V6) & _ & (K1 & K2 & K3 & K4 & K5)
            & (Z1 & Z2 & Z3 & Z4 & Z5) & (R1 & R2 & R3)).
      rewrite V1, V2, V3, V4, V5, V6, K1, K4, K5, Z2, R1, R2, R3, ER, EA.
      rewrite !num_or_Some by done.
      repeat split; done.
Qed.

(** X6. The [stretch] strategy changes the logical size itself, and makes
    the display size and the canvases equal to it.  With the aspect ratio
    kept, the new logical size has the ratio of the old one; its height is
    the height of the window when the window is wider than tall, and its
    width is the width of the window otherwise.  Without, the new logical
    size is the size of the window. *)
Theorem stretch_changes_logical_size (prim : ref) (s : ShaderObj) (w : world) :
  responsive (Shader w) = responsive_stretch ->
  primitiveShader (Shader w) = Some prim -> shaders w !! prim = Some s ->
  0 < viewWidth (Shader w) -> 0 < viewHeight (Shader w) ->
  0 < innerWidth w -> 0 < innerHeight w ->
  exists w' : world,
    resizeCanvas w = Ret tt w'
    /\ displayWidth (Shader w') = viewWidth (Shader w')
    /\ displayHeight (Shader w') = viewHeight (Shader w')
    /\ cv_width w' = viewWidth (Shader w') /\ cv_height w' = viewHeight (Shader w')
    /\ (maintainAspectRatio (Shader w) = true ->
        viewWidth (Shader w') * viewHeight (Shader w)
        == viewHeight (Shader w') * viewWidth (Shader w)
        /\ (innerHeight w < innerWidth w -> viewHeight (Shader w') = innerHeight w)
        /\ (innerWidth w <= innerHeight w -> viewWidth (Shader w') = innerWidth w))
    /\ (maintainAspectRatio (Shader w) = false ->
        viewWidth (Shader w') = innerWidth w /\ viewHeight (Shader w') = innerHeight w).
Proof.
  intros ER Hprim Hs Hvw Hvh Hiw Hih.
  destruct (resizeCanvas_spec prim s w Hprim Hs Hvw Hvh Hiw Hih)
    as (w' & E & Ev & Ed & Hcv & _).
  rewrite ER in *. destruct (Hcv ltac:(done)) as [C1 C2].
  cbn [resized_display] in Ed. rewrite <- Ev in Ed. injection Ed as D1 D2.
  exists w'. split; [done|]. rewrite C1, C2, D1, D2. repeat (split; [done|]).
  pose proof (Qpos_nonzero _ Hvw) as Hvw0. pose proof (Qpos_nonzero _ Hvh) as Hvh0.
  unfold resized_view in Ev. split; intros EA; rewrite EA in Ev.
  - destruct (Qle_bool (innerWidth w) (innerHeight w)) eqn:EC; cbn [negb] in Ev;
      injection Ev as -> ->.
    + apply Qle_bool_iff in EC. split; [field; done|]. split; [|done].
      intros Hlt. exfalso. by apply (Qlt_not_le _ _ Hlt).
    + apply Qle_bool_false in EC. split; [field; done|]. split; [done|].
      intros Hle. exfalso. by apply (Qlt_not_le _ _ EC).
  - by injection Ev as -> ->.
Qed.

Lemma stretch_changes_logical_size_witness :
  exists w' : world,
    resizeCanvas (with_Shader (set_responsive responsive_stretch true) example_world)
    = Ret tt w'
    /\ displayWidth (Shader w') = viewWidth (Shader w')
    /\ displayHeight (Shader w') = viewHeight (Shader w')
    /\ cv_width w' = viewWidth (Shader w') /\ cv_height w' = viewHeight (Shader w')
    /\ (maintainAspectRatio
          (Shader (with_Shader (set_responsive responsive_stretch true) example_world)) = true ->
        viewWidth (Shader w')
        * viewHeight (Shader (with_Shader (set_responsive responsive_stretch true)
                                example_world))
        == viewHeight (Shader w')
           * viewWidth (Shader (with_Shader (set_responsive responsive_stretch true)
                                  example_world))
        /\ (innerHeight (with_Shader (set_responsive responsive_stretch true) example_world)
            < innerWidth (with_Shader (set_responsive responsive_stretch true) example_world) ->
            viewHeight (Shader w')
            = innerHeight (with_Shader (set_responsive responsive_stretch true) example_world))
        /\ (innerWidth (with_Shader (set_responsive responsive_stretch true) example_world)
            <= innerHeight (with_Shader (set_responsive responsive_stretch true) example_world) ->
            viewWidth (Shader w')
            = innerWidth (with_Shader (set_responsive responsive_stretch true) example_world)))
    /\ (maintainAspectRatio
          (Shader (with_Shader (set_responsive responsive_stretch true) example_world)) = false ->
        viewWidth (Shader w')
        = innerWidth (with_Shader (set_responsive responsive_stretch true) example_world)
        /\ viewHeight (Shader w')
           = innerHeight (with_Shader (set_responsive responsive_stretch true) example_world)).
Proof.
  apply (stretch_changes_logical_size 2%positive example_primitive
           (with_Shader (set_responsive responsive_stretch true) example_world)).
  - vm_compute. reflexivity.
  - vm_compute. reflexivity.
  - vm_compute. reflexivity.
  - vm_compute. reflexivity.
  - vm_compute. reflexivity.
  - vm_compute. reflexivity.
  - vm_compute. reflexivity.
Defined.

(** X7. The [scale] strategy without the aspect ratio kept makes the
    display size and the canvases the size of the window, and leaves the
    logical size as it is. *)
Theorem scale_without_aspect_fills_window (prim : ref) (s : ShaderObj) (w : world) :
  responsive (Shader w) = responsive_scale -> maintainAspectRatio (Shader w) = false ->
  primitiveShader (Shader w) = Some prim -> shaders w !! prim = Some s ->
  0 < viewWidth (Shader w) -> 0 < viewHeight (Shader w) ->
  0 < innerWidth w -> 0 < innerHeight w ->
  exists w' : world,
    resizeCanvas w = Ret tt w'
    /\ displayWidth (Shader w') = innerWidth w /\ displayHeight (Shader w') = innerHeight w
    /\ cv_width w' = innerWidth w /\ cv_height w' = innerHeight w
    /\ viewWidth (Shader w') = viewWidth (Shader w)
    /\ viewHeight (Shader w') = viewHeight (Shader w).
Proof.
  intros ER EA Hprim Hs Hvw Hvh Hiw Hih.
  destruct (resizeCanvas_spec prim s w Hprim Hs Hvw Hvh Hiw Hih)
    as (w' & E & Ev & Ed & Hcv & _).
  rewrite ER, EA in *. destruct (Hcv ltac:(done)) as [C1 C2].
  cbn [resized_display resized_view] in Ed, Ev.
  injection Ed as D1 D2. injection Ev as V1 V2.
  exists w'. rewrite C1, C2, D1, D2, V1, V2. repeat split; done.
Qed.

Lemma scale_without_aspect_fills_window_witness :
  exists w' : world,
    resizeCanvas (with_Shader (set_responsive responsive_scale false) example_world)
    = Ret tt w'
    /\ displayWidth (Shader w')
       = innerWidth (with_Shader (set_responsive responsive_scale false) example_world)
    /\ displayHeight (Shader w')
       = innerHeight (with_Shader (set_responsive responsive_scale false) example_world)
    /\ cv_width w'
       = innerWidth (with_Shader (set_responsive responsive_scale false) example_world)
    /\ cv_height w'
       = innerHeight (with_Shader (set_responsive responsive_scale false) example_world)
    /\ viewWidth (Shader w')
       = viewWidth (Shader (with_Shader (set_responsive responsive_scale false) example_world))
    /\ viewHeight (Shader w')
       = viewHeight (Shader (with_Shader (set_responsive responsive_scale false)
                               example_world)).
Proof.
  apply (scale_without_aspect_fills_window 2%positive example_primitive
           (with_Shader (set_responsive responsive_scale false) example_world)).
  - vm_compute. reflexivity.
  - vm_compute. reflexivity.
  - vm_compute. reflexivity.
  - vm_compute. reflexivity.
  - vm_compute. reflexivity.
  - vm_compute. reflexivity.
  - vm_compute. reflexivity.
  - vm_compute. reflexivity.
Defined.

Lemma point_eq_refl (p : Q * Q) : point_eq p p.
Proof. split; reflexivity. Qed.

Lemma point_eq_trans (p q r : Q * Q) : point_eq p q -> point_eq q r -> point_eq p r.
Proof. intros [A B] [C D]. split; [by rewrite A | by rewrite B]. Qed.

Lemma resized_view_idem (r : Responsive) (aspect : bool) (vw vh iw ih : Q) :
  0 < vw -> 0 < vh -> 0 < iw -> 0 < ih ->
  point_eq (resized_view r aspect (resized_view r aspect vw vh iw ih).1
              (resized_view r aspect vw vh iw ih).2 iw ih)
           (resized_view r aspect vw vh iw ih).
Proof.
  intros Hvw Hvh Hiw Hih.
  pose proof (Qpos_nonzero _ Hvw) as Hvw0. pose proof (Qpos_nonzero _ Hvh) as Hvh0.
  pose proof (Qpos_nonzero _ Hiw) as Hiw0. pose proof (Qpos_nonzero _ Hih) as Hih0.
  unfold resized_view. destruct r; try apply point_eq_refl.
  destruct aspect; [|apply point_eq_refl].
  destruct (Qle_bool iw ih); cbn [negb fst snd]; split; cbn [fst snd]; try reflexivity.
  - field. repeat split; done.
  - field. repeat split; done.
Qed.

(** X8. [resizeCanvas] called again in a window that has not changed
    leaves the logical size and the display size as the first call set
    them, whatever the strategy (the sizes are equal as numbers). *)
Theorem resizeCanvas_idempotent (prim : ref) (s : ShaderObj) (w : world) :
  primitiveShader (Shader w) = Some prim -> shaders w !! prim = Some s ->
  0 < viewWidth (Shader w) -> 0 < viewHeight (Shader w) ->
  0 < innerWidth w -> 0 < innerHeight w ->
  exists w1 w2 : world,
    resizeCanvas w = Ret tt w1 /\ resizeCanvas w1 = Ret tt w2
    /\ viewWidth (Shader w2) == viewWidth (Shader w1)
    /\ viewHeight (Shader w2) == viewHeight (Shader w1)
    /\ displayWidth (Shader w2) == displayWidth (Shader w1)
    /\ displayHeight (Shader w2) == displayHeight (Shader w1).
Proof.
  intros Hprim Hs Hvw Hvh Hiw Hih.
  destruct (resizeCanvas_spec prim s w Hprim Hs Hvw Hvh Hiw Hih)
    as (w1 & E1 & Ev1 & Ed1 & Hcv1 & (R1 & A1 & F1 & I1 & J1) & Hprim1 & Hs1).
  pose proof (resized_view_pos (responsive (Shader w)) (maintainAspectRatio (Shader w))
                _ _ _ _ Hvw Hvh Hiw Hih) as [Pw Ph].
  rewrite <- Ev1 in Pw, Ph. cbn [fst snd] in Pw, Ph.
  rewrite <- I1 in Hiw. rewrite <- J1 in Hih.
  destruct (resizeCanvas_spec prim s w1 Hprim1 Hs1 Pw Ph Hiw Hih)
    as (w2 & E2 & Ev2 & Ed2 & _).
  exists w1, w2. split; [done|]. split; [done|].
  rewrite R1, A1, I1, J1 in Ev2. rewrite R1, A1, F1, I1, J1 in Ed2.
  rewrite I1 in Hiw. rewrite J1 in Hih.
  pose proof (resized_view_idem (responsive (Shader w)) (maintainAspectRatio (Shader w))
                _ _ _ _ Hvw Hvh Hiw Hih) as [X1 X2].
  rewrite <- Ev1 in X1, X2. cbn [fst snd] in X1, X2. rewrite <- Ev2 in X1, X2.
  cbn [fst snd] in X1, X2. split; [done|]. split; [done|].
  destruct (responsive (Shader w)) eqn:ER; cbn [resized_display] in Ed1, Ed2.
  - injection Ed2 as -> ->. split; reflexivity.
  - rewrite <- Ev2 in Ed2. rewrite <- Ev1 in Ed1.
    injection Ed2 as -> ->. injection Ed1 as -> ->. split; done.
  - cbn [resized_view] in Ev1. injection Ev1 as V1 V2. rewrite V1, V2 in Ed2.
    rewrite <- Ed1 in Ed2. injection Ed2 as -> ->. split; reflexivity.
Qed.

Lemma resizeCanvas_idempotent_witness :
  exists w1 w2 : world,
    resizeCanvas (with_Shader (set_responsive responsive_stretch true) example_world)
    = Ret tt w1
    /\ resizeCanvas w1 = Ret tt w2
    /\ viewWidth (Shader w2) == viewWidth (Shader w1)
    /\ viewHeight (Shader w2) == viewHeight (Shader w1)
    /\ displayWidth (Shader w2) == displayWidth (Shader w1)
    /\ displayHeight (Shader w2) == displayHeight (Shader w1).
Proof.
  apply (resizeCanvas_idempotent 2%positive example_primitive
           (with_Shader (set_responsive responsive_stretch true) example_world)).
  - vm_compute. reflexivity.
  - vm_compute. reflexivity.
  - vm_compute. reflexivity.
  - vm_compute. reflexivity.
  - vm_compute. reflexivity.
  - vm_compute. reflexivity.
Defined.

(** ** [drawSprite] *)

Lemma callback_chain (ts : option (list transformation)) (mat : ref) (w : world) :
  match option_map callback ts with Some f => f mat | None => ret mat end w
  = chain mat (default [] ts) w.
Proof. by destruct ts. Qed.

Lemma chain_product_length (h : Host) (ts : list transformation) : forall a : list Q,
  (9 <= length a)%nat -> (9 <= length (chain_product h ts a))%nat.
Proof.
  induction ts as [|t ts IH]; intros a La; simpl; [done|].
  apply IH. by rewrite mat_product_length.
Qed.

(** A sprite draw that selects an image: what it sends, and what it
    keeps. *)
Lemma drawSprite_spec (sprite : Sprite) (image x y : Q) (ts : option (list transformation))
    (rcol g b a : jsval) (w : world) (r : ref) (s : ShaderObj) (p : ref) (vs : list Q) :
  imageShader (Shader w) = Some r -> shaders w !! r = Some s ->
  projection (Shader w) = Some p -> matrices w !! p = Some vs -> (9 <= length vs)%nat ->
  (1 <= length (images sprite))%nat -> 0 <= image ->
  ~ width sprite == 0 -> ~ height sprite == 0 ->
  exists (w' : world) (img : Image),
    drawSprite sprite image x y (option_map callback ts) rcol g b a w = Ret tt w'
    /\ images sprite !! Z.to_nat (Qfloor image mod Z.of_nat (length (images sprite))) = Some img
    /\ calls w'
       = gl_drawArrays TRIANGLES 0 6
         :: gl_uniform4f (blendUniform s) (sprite_blend rcol g b a).1.1.1
              (sprite_blend rcol g b a).1.1.2 (sprite_blend rcol g b a).1.2
              (sprite_blend rcol g b a).2
         :: gl_uniformMatrix3fv (textureMatrix s) (img_t img)
         :: gl_uniformMatrix3fv (Some (positionMatrix s))
              (sprite_matrix (host w) sprite x y (default [] ts) vs)
         :: calls (used r s (positionOrder (Shader w)) w)
    /\ matrices w' !! p = Some vs
    /\ shaders w' = shaders w
    /\ Shader w' = Shader (used r s (positionOrder (Shader w)) w)
    /\ host w' = host w.
Proof.
  intros Himg Hs Hproj Hp Lvs Hk Hi Hw Hh.
  unfold drawSprite, the_imageShader. run. proj. rewrite Himg. run.
  rewrite (run_use _ _ _ _ _ Hs). cbn [default].
  set (w1 := used r s (positionOrder (Shader w)) w).
  destruct (limitImage_wraps sprite image w1 Hk Hi) as (i & Ei & Hi1 & Hi2).
  rewrite (bind_Ret _ _ _ _ _ Ei). run.
  assert (Hproj1 : projection (Shader w1) = Some p) by (subst w1; proj; done).
  rewrite Hproj1. run.
  assert (Hp1 : matrices w1 !! p = Some vs) by (subst w1; proj; done).
  rewrite (bind_Ret _ _ _ _ _ (copy_spec p vs w1 Hp1)).
  set (c := fresh (dom (matrices w1))).
  assert (Hcp : c ≠ p) by (by eapply fresh_ne).
  set (w2 := with_matrices (insert c vs) w1).
  assert (Hc2 : matrices w2 !! c = Some vs) by (subst w2; cbn; by rewrite lookup_insert_eq).
  change (Matrix.translate c x y) with (transform (Translate x y) c).
  rewrite (bind_Ret _ _ _ _ _ (transform_spec _ c vs w2 Hc2 Lvs)).
  set (w3 := transformed (Translate x y) c vs w2).
  change (Matrix.scale c (width sprite) (height sprite))
    with (transform (Scale (width sprite) (height sprite)) c).
  pose proof (transformed_lookup (Translate x y) c vs w2) as Hc3. fold w3 in Hc3.
  assert (L3 : (9 <= length (mat_product (elementary (host w2) (Translate x y)) vs))%nat)
    by (by rewrite mat_product_length).
  rewrite (bind_Ret _ _ _ _ _ (transform_spec _ c _ w3 Hc3 L3)).
  set (w4 := transformed (Scale (width sprite) (height sprite)) c _ w3).
  pose proof (transformed_lookup (Scale (width sprite) (height sprite)) c
                (mat_product (elementary (host w2) (Translate x y)) vs) w3) as Hc4.
  fold w4 in Hc4.
  assert (Hp2 : matrices w2 !! p = Some vs)
    by (subst w2; cbn; by rewrite lookup_insert_ne).
  assert (Hp3 : matrices w3 !! p = Some vs) by (by eapply transformed_other).
  assert (Hp4 : matrices w4 !! p = Some vs) by (by eapply transformed_other).
  assert (L4 : (9 <= length (mat_product (elementary (host w3) (Scale (width sprite)
            (height sprite))) (mat_product (elementary (host w2) (Translate x y)) vs)))%nat)
    by (by rewrite mat_product_length).
  erewrite bind_cong by apply callback_chain.
  destruct (chain_frame (default [] ts) c _ w4 Hc4 L4)
    as (w5 & E5 & Hc5 & (F1 & F2 & F3 & F4 & F5) & Hother).
  rewrite (bind_Ret _ _ _ _ _ E5).
  assert (Hp5 : matrices w5 !! p = Some vs) by (by apply Hother).
  assert (Hhost : host w4 = host w) by reflexivity.
  assert (Hcalls : calls w4 = calls w1) by reflexivity.
  assert (Hsh : shaders w4 = shaders w) by reflexivity.
  assert (HSh : Shader w4 = Shader w1) by reflexivity.
  change (host w3) with (host w) in *. change (host w2) with (host w) in *.
  rewrite Hhost in *.
  cbn [elementary] in Hc5.
  assert (L5 : (9 <= length (chain_product (host w) (default [] ts)
      (mat_product (Matrix.scaling (width sprite) (height sprite))
         (mat_product (Matrix.translation x y) vs))))%nat).
  { apply chain_product_length. by rewrite mat_product_length. }
  assert (Hidx : exists img, images sprite !! Z.to_nat (Qfloor image mod
                   Z.of_nat (length (images sprite))) = Some img).
  { apply lookup_lt_is_Some_2.
    pose proof (Z.mod_pos_bound (Qfloor image) (Z.of_nat (length (images sprite)))
                  ltac:(lia)). lia. }
  destruct Hidx as (img & Hidx). rewrite Hidx in Hi2.
  set (m5 := chain_product (host w) (default [] ts)
               (mat_product (Matrix.scaling (width sprite) (height sprite))
                  (mat_product (Matrix.translation x y) vs))) in *.
  unfold sprite_matrix. fold (has_origin sprite).
  destruct (has_origin sprite) eqn:Ho.
  - rewrite (js_div_Some _ _ Hw), (js_div_Some _ _ Hh). run.
    change (Matrix.translate c ?tx ?ty) with (transform (Translate tx ty) c).
    rewrite (bind_Ret _ _ _ _ _ (transform_spec _ c _ w5 Hc5 L5)). run.
    set (w6 := transformed _ c _ w5).
    pose proof (transformed_lookup (Translate (- originX sprite / width sprite)
                  (- originY sprite / height sprite)) c m5 w5) as Hc6.
    fold w6 in Hc6. rewrite F1 in Hc6. cbn [elementary] in Hc6.
    unfold shader. run.
    change (shaders w6) with (shaders w5). rewrite F4, Hsh, Hs. run.
    unfold Matrix.values. run. rewrite Hc6. run. rewrite Hi2. run.
    assert (Hp6 : matrices w6 !! p = Some vs) by (by eapply transformed_other).
    unfold sprite_blend.
    destruct (instanceof_Color rcol) as [col|]; [|destruct (defined rcol && defined g && defined b)];
      run; eexists _, img; (split; [reflexivity|]); (split; [done|]);
      proj; change (calls w6) with (calls w5); change (Shader w6) with (Shader w5);
      change (host w6) with (host w5);
      rewrite F1, F2, F5, Hcalls, HSh; repeat split; done.
  - run. unfold shader. run. rewrite F4, Hsh, Hs. run.
    unfold Matrix.values. run. rewrite Hc5. run. rewrite Hi2. run.
    unfold sprite_blend.
    destruct (instanceof_Color rcol) as [col|]; [|destruct (defined rcol && defined g && defined b)];
      run; eexists _, img; (split; [reflexivity|]); (split; [done|]);
      proj; rewrite F1, F2, F4, F5, Hcalls, HSh; repeat split; done.
Qed.

(** ** [drawSpriteSpeed] *)




Lemma shader_position_proper (a : list Q) (p q : Q * Q) :
  point_eq p q -> point_eq (shader_position a p) (shader_position a q).
Proof.
  destruct p as [px py], q as [qx qy]. intros [A B]. cbn in A, B.
  split; cbn; rewrite A, B; reflexivity.
Qed.

Lemma chain_shader_proper (h : Host) (ts : list transformation) (p q : Q * Q) :
  point_eq p q -> point_eq (chain_shader h ts p) (chain_shader h ts q).
Proof.
  intros E. induction ts as [|t ts IH]; simpl; [done|]. by apply shader_position_proper.
Qed.

(** The shader reads the product of a chain as the chain acting on the
    point, the transformation written last first. *)
Lemma chain_product_shader (h : Host) (ts : list transformation) : forall (a : list Q) (q : Q * Q),
  (9 <= length a)%nat ->
  point_eq (shader_position (chain_product h ts a) q)
           (shader_position a (chain_shader h ts q)).
Proof.
  induction ts as [|t ts IH]; intros a q La; simpl.
  - apply point_eq_refl.
  - eapply point_eq_trans.
    + apply IH. by rewrite mat_product_length.
    + apply shader_position_product; [apply affine_elementary | done].
Qed.

Lemma has_origin_false (sprite : Sprite) :
  has_origin sprite = false -> originX sprite == 0 /\ originY sprite == 0.
Proof.
  unfold has_origin. intros H. apply orb_false_elim in H as [A B].
  apply negb_false_iff in A, B. by split; apply Qeq_bool_eq.
Qed.

Lemma sprite_matrix_position (h : Host) (sprite : Sprite) (x y : Q)
    (ts : list transformation) (vs : list Q) (u v : Q) :
  (9 <= length vs)%nat -> ~ width sprite == 0 -> ~ height sprite == 0 ->
  point_eq (shader_position (sprite_matrix h sprite x y ts vs) (u, v))
    (shader_position vs
       (x + width sprite
            * (chain_shader h ts (u - originX sprite / width sprite,
                                  v - originY sprite / height sprite)).1,
        y + height sprite
            * (chain_shader h ts (u - originX sprite / width sprite,
                                  v - originY sprite / height sprite)).2)).
Proof.
  intros Lvs Hw Hh.
  set (q := (u - originX sprite / width sprite, v - originY sprite / height sprite)).
  assert (Hinner : forall q' : Q * Q, point_eq q' q ->
    point_eq (shader_position (chain_product h ts
                (mat_product (Matrix.scaling (width sprite) (height sprite))
                   (mat_product (Matrix.translation x y) vs))) q')
             (shader_position vs (x + width sprite * (chain_shader h ts q).1,
                                  y + height sprite * (chain_shader h ts q).2))).
  { intros q' Hq.
    eapply point_eq_trans; [apply chain_product_shader; by rewrite mat_product_length|].
    eapply point_eq_trans;
      [apply (shader_position_product _ _ _ (affine_elementary h (Scale _ _)));
       by rewrite mat_product_length|].
    eapply point_eq_trans;
      [apply (shader_position_product _ _ _ (affine_elementary h (Translate _ _)) Lvs)|].
    apply shader_position_proper.
    pose proof (chain_shader_proper h ts q' q Hq) as [A B].
    destruct (chain_shader h ts q') as [X' Y'], (chain_shader h ts q) as [X Y].
    cbn in A, B. split; cbn; rewrite A, B; ring. }
  unfold sprite_matrix. destruct (has_origin sprite) eqn:Ho.
  - eapply point_eq_trans.
    + apply (shader_position_product _ _ _ (affine_elementary h (Translate _ _))).
      apply chain_product_length. by rewrite mat_product_length.
    + apply Hinner. subst q. split; cbn; field; done.
  - apply Hinner. apply has_origin_false in Ho as [A B].
    subst q. split; cbn; rewrite A || rewrite B; field; done.
Qed.

(** X9. [drawSprite] without a callback, for an image index that is not
    negative and a sprite of a size other than 0, returns after exactly
    one [drawArrays(TRIANGLES, 0, 6)], and the position matrix it uploads
    places the unit quad on the rectangle of the sprite: the shader sends
    the point (u, v) where the projection sends
    (x - originX + width * u, y - originY + height * v). *)
Theorem drawSprite_covers_rectangle (sprite : Sprite) (image x y : Q) (rcol g b a : jsval)
    (w : world) (r : ref) (s : ShaderObj) (p : ref) (vs : list Q) :
  imageShader (Shader w) = Some r -> shaders w !! r = Some s ->
  projection (Shader w) = Some p -> matrices w !! p = Some vs -> (9 <= length vs)%nat ->
  (1 <= length (images sprite))%nat -> 0 <= image ->
  ~ width sprite == 0 -> ~ height sprite == 0 ->
  exists (w' : world) (vs' : list Q) (cs : list Call),
    drawSprite sprite image x y None rcol g b a w = Ret tt w'
    /\ calls w' = gl_drawArrays TRIANGLES 0 6 :: cs
    /\ draw_calls cs = draw_calls (calls w)
    /\ gl_uniformMatrix3fv (Some (positionMatrix s)) vs' ∈ cs
    /\ forall u v : Q,
         point_eq (shader_position vs' (u, v))
                  (shader_position vs (x - originX sprite + width sprite * u,
                                       y - originY sprite + height sprite * v)).
Proof.
  intros Himg Hs Hproj Hp Lvs Hk Hi Hw Hh.
  destruct (drawSprite_spec sprite image x y None rcol g b a w r s p vs
              Himg Hs Hproj Hp Lvs Hk Hi Hw Hh)
    as (w' & img & E & Hidx & Hcalls & _).
  exists w', (sprite_matrix (host w) sprite x y [] vs). eexists.
  split; [exact E|]. split; [exact Hcalls|]. split; [|split].
  - rewrite !draw_calls_cons. cbn [is_draw]. apply used_draw_calls.
  - set_solver.
  - intros u v. eapply point_eq_trans; [by apply sprite_matrix_position|].
    apply shader_position_proper. split; cbn; field; done.
Qed.

Lemma drawSprite_covers_rectangle_witness :
  exists (w' : world) (vs' : list Q) (cs : list Call),
    drawSprite mario 0 140 80 None VUndefined VUndefined VUndefined VUndefined example_world
    = Ret tt w'
    /\ calls w' = gl_drawArrays TRIANGLES 0 6 :: cs
    /\ draw_calls cs = draw_calls (calls example_world)
    /\ gl_uniformMatrix3fv (Some (positionMatrix example_image)) vs' ∈ cs
    /\ forall u v : Q,
         point_eq (shader_position vs' (u, v))
                  (shader_position example_projection
                     (140 - originX mario + width mario * u,
                      80 - originY mario + height mario * v)).
Proof.
  apply (drawSprite_covers_rectangle mario 0 140 80 VUndefined VUndefined VUndefined
           VUndefined example_world 1%positive example_image 1%positive example_projection).
  - vm_compute. reflexivity.
  - vm_compute. reflexivity.
  - vm_compute. reflexivity.
  - vm_compute. reflexivity.
  - vm_compute. lia.
  - vm_compute. lia.
  - vm_compute. discriminate.
  - vm_compute. discriminate.
  - vm_compute. discriminate.
Defined.

(** X10. With a callback that chains [translate], [rotate] and [scale],
    the position matrix that [drawSprite] uploads sends the point (u, v)
    of the unit quad where the projection sends
    (x + width * X, y + height * Y), for (X, Y) the point
    (u - originX / width, v - originY / height) moved by the
    transformations of the callback, the one written last first: the
    callback works in units of the size of the sprite. *)
Theorem drawSprite_transformed (sprite : Sprite) (image x y : Q) (ts : list transformation)
    (rcol g b a : jsval) (w : world) (r : ref) (s : ShaderObj) (p : ref) (vs : list Q) :
  imageShader (Shader w) = Some r -> shaders w !! r = Some s ->
  projection (Shader w) = Some p -> matrices w !! p = Some vs -> (9 <= length vs)%nat ->
  (1 <= length (images sprite))%nat -> 0 <= image ->
  ~ width sprite == 0 -> ~ height sprite == 0 ->
  exists (w' : world) (vs' : list Q) (cs : list Call),
    drawSprite sprite image x y (Some (callback ts)) rcol g b a w = Ret tt w'
    /\ calls w' = gl_drawArrays TRIANGLES 0 6 :: cs
    /\ gl_uniformMatrix3fv (Some (positionMatrix s)) vs' ∈ cs
    /\ forall u v : Q,
         point_eq (shader_position vs' (u, v))
           (shader_position vs
              (x + width sprite
                   * (chain_shader (host w) ts
                        (u - originX sprite / width sprite,
                         v - originY sprite / height sprite)).1,
               y + height sprite
                   * (chain_shader (host w) ts
                        (u - originX sprite / width sprite,
                         v - originY sprite / height sprite)).2)).
Proof.
  intros Himg Hs Hproj Hp Lvs Hk Hi Hw Hh.
  destruct (drawSprite_spec sprite image x y (Some ts) rcol g b a w r s p vs
              Himg Hs Hproj Hp Lvs Hk Hi Hw Hh)
    as (w' & img & E & Hidx & Hcalls & _).
  exists w', (sprite_matrix (host w) sprite x y ts vs). eexists.
  split; [exact E|]. split; [exact Hcalls|]. split.
  - set_solver.
  - intros u v. by apply sprite_matrix_position.
Qed.

Lemma drawSprite_transformed_witness :
  exists (w' : world) (vs' : list Q) (cs : list Call),
    drawSprite bowser 0 186 90 (Some (callback [Rotate 1; Translate 1 0]))
      VUndefined VUndefined VUndefined VUndefined example_world
    = Ret tt w'
    /\ calls w' = gl_drawArrays TRIANGLES 0 6 :: cs
    /\ gl_uniformMatrix3fv (Some (positionMatrix example_image)) vs' ∈ cs
    /\ forall u v : Q,
         point_eq (shader_position vs' (u, v))
           (shader_position example_projection
              (186 + width bowser
                   * (chain_shader (host example_world) [Rotate 1; Translate 1 0]
                        (u - originX bowser / width bowser,
                         v - originY bowser / height bowser)).1,
               90 + height bowser
                   * (chain_shader (host example_world) [Rotate 1; Translate 1 0]
                        (u - originX bowser / width bowser,
                         v - originY bowser / height bowser)).2)).
Proof.
  apply (drawSprite_transformed bowser 0 186 90 [Rotate 1; Translate 1 0]
           VUndefined VUndefined VUndefined VUndefined example_world
           1%positive example_image 1%positive example_projection).
  - vm_compute. reflexivity.
  - vm_compute. reflexivity.
  - vm_compute. reflexivity.
  - vm_compute. reflexivity.
  - vm_compute. lia.
  - vm_compute. lia.
  - vm_compute. discriminate.
  - vm_compute. discriminate.
  - vm_compute. discriminate.
Defined.

(** X11. The callback of [main] that spins the sprite,
    [m => m.translate(0.5, 0.5).rotate(n).scale(k, k).translate(-0.5, -0.5)],
    keeps the centre of a sprite without origin in place: for every
    angle and scale, and whatever [Math.cos] and [Math.sin] give, the
    centre (1/2, 1/2) of the unit quad goes where the projection sends
    (x + width / 2, y + height / 2). *)
Theorem spin_keeps_centre (sprite : Sprite) (image x y n k : Q)
    (rcol g b a : jsval) (w : world) (r : ref) (s : ShaderObj) (p : ref) (vs : list Q) :
  imageShader (Shader w) = Some r -> shaders w !! r = Some s ->
  projection (Shader w) = Some p -> matrices w !! p = Some vs -> (9 <= length vs)%nat ->
  (1 <= length (images sprite))%nat -> 0 <= image ->
  ~ width sprite == 0 -> ~ height sprite == 0 ->
  originX sprite == 0 -> originY sprite == 0 ->
  exists (w' : world) (vs' : list Q) (cs : list Call),
    drawSprite sprite image x y (Some (callback (spin_about_centre n k))) rcol g b a w
    = Ret tt w'
    /\ calls w' = gl_drawArrays TRIANGLES 0 6 :: cs
    /\ gl_uniformMatrix3fv (Some (positionMatrix s)) vs' ∈ cs
    /\ point_eq (shader_position vs' (1 # 2, 1 # 2))
                (shader_position vs (x + width sprite / 2, y + height sprite / 2)).
Proof.
  intros Himg Hs Hproj Hp Lvs Hk Hi Hw Hh Hox Hoy.
  destruct (drawSprite_spec sprite image x y (Some (spin_about_centre n k)) rcol g b a w
              r s p vs Himg Hs Hproj Hp Lvs Hk Hi Hw Hh)
    as (w' & img & E & Hidx & Hcalls & _).
  exists w', (sprite_matrix (host w) sprite x y (spin_about_centre n k) vs). eexists.
  split; [exact E|]. split; [exact Hcalls|]. split.
  - set_solver.
  - eapply point_eq_trans; [by apply sprite_matrix_position|].
    apply shader_position_proper. split; cbn; rewrite Hox, Hoy; field; done.
Qed.

Lemma spin_keeps_centre_witness :
  exists (w' : world) (vs' : list Q) (cs : list Call),
    drawSprite bowser 0 186 90 (Some (callback (spin_about_centre (1 # 3) (5 # 4))))
      VUndefined VUndefined VUndefined VUndefined example_world
    = Ret tt w'
    /\ calls w' = gl_drawArrays TRIANGLES 0 6 :: cs
    /\ gl_uniformMatrix3fv (Some (positionMatrix example_image)) vs' ∈ cs
    /\ point_eq (shader_position vs' (1 # 2, 1 # 2))
                (shader_position example_projection
                   (186 + width bowser / 2, 90 + height bowser / 2)).
Proof.
  apply (spin_keeps_centre bowser 0 186 90 (1 # 3) (5 # 4)
           VUndefined VUndefined VUndefined VUndefined example_world
           1%positive example_image 1%positive example_projection).
  - vm_compute. reflexivity.
  - vm_compute. reflexivity.
  - vm_compute. reflexivity.
  - vm_compute. reflexivity.
  - vm_compute. lia.
  - vm_compute. lia.
  - vm_compute. discriminate.
  - vm_compute. discriminate.
  - vm_compute. discriminate.
  - vm_compute. reflexivity.
  - vm_compute. reflexivity.
Defined.

(** X12. The callback of [main] that flips the sprite,
    [mat => mat.scale(-1, 1)], mirrors it about the vertical line through
    (x, y): the point (u, v) of the unit quad goes where the projection
    sends (x + originX - width * u, y - originY + height * v). *)
Theorem flip_mirrors_about_origin (sprite : Sprite) (image x y : Q)
    (rcol g b a : jsval) (w : world) (r : ref) (s : ShaderObj) (p : ref) (vs : list Q) :
  imageShader (Shader w) = Some r -> shaders w !! r = Some s ->
  projection (Shader w) = Some p -> matrices w !! p = Some vs -> (9 <= length vs)%nat ->
  (1 <= length (images sprite))%nat -> 0 <= image ->
  ~ width sprite == 0 -> ~ height sprite == 0 ->
  exists (w' : world) (vs' : list Q) (cs : list Call),
    drawSprite sprite image x y (Some (callback flip_horizontally)) rcol g b a w = Ret tt w'
    /\ calls w' = gl_drawArrays TRIANGLES 0 6 :: cs
    /\ gl_uniformMatrix3fv (Some (positionMatrix s)) vs' ∈ cs
    /\ forall u v : Q,
         point_eq (shader_position vs' (u, v))
                  (shader_position vs (x + originX sprite - width sprite * u,
                                       y - originY sprite + height sprite * v)).
Proof.
  intros Himg Hs Hproj Hp Lvs Hk Hi Hw Hh.
  destruct (drawSprite_spec sprite image x y (Some flip_horizontally) rcol g b a w
              r s p vs Himg Hs Hproj Hp Lvs Hk Hi Hw Hh)
    as (w' & img & E & Hidx & Hcalls & _).
  exists w', (sprite_matrix (host w) sprite x y flip_horizontally vs). eexists.
  split; [exact E|]. split; [exact Hcalls|]. split.
  - set_solver.
  - intros u v. eapply point_eq_trans; [by apply sprite_matrix_position|].
    apply shader_position_proper. split; cbn; field; done.
Qed.

Lemma flip_mirrors_about_origin_witness :
  exists (w' : world) (vs' : list Q) (cs : list Call),
    drawSprite mario 0 260 80 (Some (callback flip_horizontally))
      VUndefined VUndefined VUndefined VUndefined example_world
    = Ret tt w'
    /\ calls w' = gl_drawArrays TRIANGLES 0 6 :: cs
    /\ gl_uniformMatrix3fv (Some (positionMatrix example_image)) vs' ∈ cs
    /\ forall u v : Q,
         point_eq (shader_position vs' (u, v))
                  (shader_position example_projection
                     (260 + originX mario - width mario * u,
                      80 - originY mario + height mario * v)).
Proof.
  apply (flip_mirrors_about_origin mario 0 260 80
           VUndefined VUndefined VUndefined VUndefined example_world
           1%positive example_image 1%positive example_projection).
  - vm_compute. reflexivity.
  - vm_compute. reflexivity.
  - vm_compute. reflexivity.
  - vm_compute. reflexivity.
  - vm_compute. lia.
  - vm_compute. lia.
  - vm_compute. discriminate.
  - vm_compute. discriminate.
  - vm_compute. discriminate.
Defined.

(** X13. [drawSprite] works on a copy of the projection: after the draw,
    with or without a callback, [Shader.projection] is the same instance
    with the same coefficients, the image shader is still in place and is
    the current program, the frame timer is unchanged, and exactly one
    more [drawArrays] has been issued. *)
Theorem drawSprite_keeps_projection (sprite : Sprite) (image x y : Q)
    (ts : option (list transformation)) (rcol g b a : jsval)
    (w : world) (r : ref) (s : ShaderObj) (p : ref) (vs : list Q) :
  imageShader (Shader w) = Some r -> shaders w !! r = Some s ->
  projection (Shader w) = Some p -> matrices w !! p = Some vs -> (9 <= length vs)%nat ->
  (1 <= length (images sprite))%nat -> 0 <= image ->
  ~ width sprite == 0 -> ~ height sprite == 0 ->
  exists w' : world,
    drawSprite sprite image x y (option_map callback ts) rcol g b a w = Ret tt w'
    /\ projection (Shader w') = Some p /\ matrices w' !! p = Some vs
    /\ imageShader (Shader w') = Some r /\ shaders w' !! r = Some s
    /\ currentProgram (Shader w') = Some r
    /\ internalTimer (Shader w') = internalTimer (Shader w)
    /\ draw_calls (calls w') = S (draw_calls (calls w)).
Proof.
  intros Himg Hs Hproj Hp Lvs Hk Hi Hw Hh.
  destruct (drawSprite_spec sprite image x y ts rcol g b a w r s p vs
              Himg Hs Hproj Hp Lvs Hk Hi Hw Hh)
    as (w' & img & E & Hidx & Hcalls & Hp' & Hsh & HSh & Hhost).
  exists w'. split; [exact E|]. rewrite HSh, Hsh, Hcalls. proj.
  repeat split; try done.
  rewrite !draw_calls_cons. cbn [is_draw]. f_equal. apply used_draw_calls.
Qed.

Lemma drawSprite_keeps_projection_witness :
  exists w' : world,
    drawSprite mario 5 140 80 (option_map callback (Some [Scale 2 2; Rotate 1]))
      VUndefined VUndefined VUndefined VUndefined example_world
    = Ret tt w'
    /\ projection (Shader w') = Some 1%positive
    /\ matrices w' !! 1%positive = Some example_projection
    /\ imageShader (Shader w') = Some 1%positive
    /\ shaders w' !! 1%positive = Some example_image
    /\ currentProgram (Shader w') = Some 1%positive
    /\ internalTimer (Shader w') = internalTimer (Shader example_world)
    /\ draw_calls (calls w') = S (draw_calls (calls example_world)).
Proof.
  apply (drawSprite_keeps_projection mario 5 140 80 (Some [Scale 2 2; Rotate 1])
           VUndefined VUndefined VUndefined VUndefined example_world
           1%positive example_image 1%positive example_projection).
  - vm_compute. reflexivity.
  - vm_compute. reflexivity.
  - vm_compute. reflexivity.
  - vm_compute. reflexivity.
  - vm_compute. lia.
  - vm_compute. lia.
  - vm_compute. discriminate.
  - vm_compute. discriminate.
  - vm_compute. discriminate.
Defined.

(** X14. [drawSprite] never rejects its colour arguments.  The blend it
    sets, right before the [drawArrays], is the channels of a [Color]; or
    the three numbers given, with an alpha of 1 unless one is given; or
    opaque white when one of the three is [undefined], where the primitive
    draws throw a [DrawError]. *)
Theorem drawSprite_blend_fallback (sprite : Sprite) (image x y : Q)
    (ts : option (list transformation)) (rcol g b a : jsval)
    (w : world) (r : ref) (s : ShaderObj) (p : ref) (vs : list Q) :
  imageShader (Shader w) = Some r -> shaders w !! r = Some s ->
  projection (Shader w) = Some p -> matrices w !! p = Some vs -> (9 <= length vs)%nat ->
  (1 <= length (images sprite))%nat -> 0 <= image ->
  ~ width sprite == 0 -> ~ height sprite == 0 ->
  exists w' : world,
    drawSprite sprite image x y (option_map callback ts) rcol g b a w = Ret tt w'
    /\ calls w' !! 0%nat = Some (gl_drawArrays TRIANGLES 0 6)
    /\ (instanceof_Color rcol = None ->
        defined rcol && defined g && defined b = false ->
        calls w' !! 1%nat
        = Some (gl_uniform4f (blendUniform s) (VNum 1) (VNum 1) (VNum 1) (VNum 1)))
    /\ (instanceof_Color rcol = None ->
        defined rcol && defined g && defined b = true ->
        calls w' !! 1%nat = Some (gl_uniform4f (blendUniform s) rcol g b (alpha_or_1 a)))
    /\ (forall c : Color, rcol = VColor c ->
        calls w' !! 1%nat
        = Some (gl_uniform4f (blendUniform s)
                  (VNum (red c)) (VNum (green c)) (VNum (blue c)) (VNum (alpha c)))).
Proof.
  intros Himg Hs Hproj Hp Lvs Hk Hi Hw Hh.
  destruct (drawSprite_spec sprite image x y ts rcol g b a w r s p vs
              Himg Hs Hproj Hp Lvs Hk Hi Hw Hh)
    as (w' & img & E & Hidx & Hcalls & _).
  exists w'. split; [exact E|]. rewrite Hcalls. split; [done|].
  unfold sprite_blend. repeat split.
  - intros -> ->. done.
  - intros -> ->. done.
  - intros c ->. done.
Qed.

Lemma drawSprite_blend_fallback_witness :
  exists w' : world,
    drawSprite mario 0 140 80 (option_map callback None)
      (VNum 1) VUndefined (VNum 1) VUndefined example_world
    = Ret tt w'
    /\ calls w' !! 0%nat = Some (gl_drawArrays TRIANGLES 0 6)
    /\ (instanceof_Color (VNum 1) = None ->
        defined (VNum 1) && defined VUndefined && defined (VNum 1) = false ->
        calls w' !! 1%nat
        = Some (gl_uniform4f (blendUniform example_image) (VNum 1) (VNum 1) (VNum 1) (VNum 1)))
    /\ (instanceof_Color (VNum 1) = None ->
        defined (VNum 1) && defined VUndefined && defined (VNum 1) = true ->
        calls w' !! 1%nat
        = Some (gl_uniform4f (blendUniform example_image) (VNum 1) VUndefined (VNum 1)
                  (alpha_or_1 VUndefined)))
    /\ (forall c : Color, VNum 1 = VColor c ->
        calls w' !! 1%nat
        = Some (gl_uniform4f (blendUniform example_image)
                  (VNum (red c)) (VNum (green c)) (VNum (blue c)) (VNum (alpha c)))).
Proof.
  apply (drawSprite_blend_fallback mario 0 140 80 None
           (VNum 1) VUndefined (VNum 1) VUndefined example_world
           1%positive example_image 1%positive example_projection).
  - vm_compute. reflexivity.
  - vm_compute. reflexivity.
  - vm_compute. reflexivity.
  - vm_compute. reflexivity.
  - vm_compute. lia.
  - vm_compute. lia.
  - vm_compute. discriminate.
  - vm_compute. discriminate.
  - vm_compute. discriminate.
Defined.

(** ** [drawCircle] and [Ball.step] *)

Lemma preparePrimitive_used (positions : list Q) (rcol g b a : jsval) (r : ref) (s : ShaderObj)
    (w : world) :
  primitiveShader (Shader w) = Some r -> shaders w !! r = Some s ->
  unparseable rcol g b = false ->
  exists c1 c2 c3 c4 : jsval,
    preparePrimitive positions rcol g b a w
    = Ret tt (with_calls (cons (gl_uniform4f (blendUniform s) c1 c2 c3 c4))
                (used r s positions w)).
Proof.
  intros Hr Hs U.
  unfold preparePrimitive, the_primitiveShader. run. proj. rewrite Hr. run.
  rewrite (run_use r s _ _ w Hs). unfold shader. run. proj. rewrite Hs. run.
  cbn [default].
  apply unparseable_false in U as [[c ->]|[-> ->]]; eexists _, _, _, _; reflexivity.
Qed.

(** Every round of the loop of [drawCircle] adds one vertex, and the first
    is at the angle the loop starts from. *)
Lemma circle_loop_shape (h : Host) (x y radius : Q) (step : option Q) (w : world) :
  forall (n : nat) (theta : option Q) (positions ps : list Q) (w' : world),
    circle_loop h x y radius step n theta positions w = Ret ps w' ->
    length ps = (length positions + 2 * n)%nat
    /\ (exists tail, ps = positions ++ tail)
    /\ (forall t, (1 <= n)%nat -> theta = Some t ->
          exists tail, ps = positions ++ [x + radius * h_cos h t; y + radius * h_sin h t] ++ tail).
Proof.
  induction n as [|n IH]; intros theta positions ps w' E; simpl in E.
  - injection E as <- <-. split; [lia|]. split; [exists []; by rewrite app_nil_r|].
    intros; lia.
  - destruct theta as [t|]; [|discriminate]. rewrite run_finite in E.
    apply IH in E as (L & (tail & Htail) & _).
    rewrite !length_app in L. cbn [length] in L. split; [lia|].
    rewrite <- !app_assoc in Htail. split; [by eexists|].
    intros t' _ [= <-]. exists tail. exact Htail.
Qed.

Lemma drawCircle_spec (x y radius : Q) (segments : Z) (rcol g b a : jsval)
    (r : ref) (s : ShaderObj) (w : world) :
  primitiveShader (Shader w) = Some r -> shaders w !! r = Some s ->
  unparseable rcol g b = false ->
  exists (ps : list Q) (c1 c2 c3 c4 : jsval),
    drawCircle x y radius segments rcol g b a w
    = Ret tt (with_calls (cons (gl_drawArrays TRIANGLE_FAN 0 (inject_Z segments + 2)))
                (with_calls (cons (gl_uniform4f (blendUniform s) c1 c2 c3 c4))
                   (used r s ps w)))
    /\ circle_loop (host w) x y radius (js_div (h_PI (host w) * 2) (inject_Z segments))
         (Z.to_nat (segments + 1)) (Some 0) [x; y] w = Ret ps w.
Proof.
  intros Hr Hs U. destruct (circle_positions x y radius segments w) as (ps & Eps).
  unfold drawCircle. run. rewrite (bind_Ret _ _ _ _ _ Eps).
  destruct (preparePrimitive_used ps rcol g b a r s w Hr Hs U) as (c1 & c2 & c3 & c4 & E).
  rewrite (bind_Ret _ _ _ _ _ E). exists ps, c1, c2, c3, c4. split; [reflexivity|done].
Qed.

Lemma used_bufferData (r : ref) (s : ShaderObj) (ps : list Q) (w : world) :
  gl_bufferData ps STATIC_DRAW ∈ calls (used r s ps w).
Proof.
  unfold used. proj. apply elem_of_app. right. apply list_elem_of_further, list_elem_of_here.
Qed.

(** X15. A circle with [segments] segments, none or more, and colours
    that can be parsed: [drawCircle] fills the buffer with exactly
    [segments + 2] vertices, the number it then passes to [drawArrays]:
    the centre, then the point of the rim at the angle 0, and one more
    point for every segment. *)
Theorem drawCircle_vertices (x y radius : Q) (segments : Z) (rcol g b a : jsval)
    (r : ref) (s : ShaderObj) (w : world) :
  primitiveShader (Shader w) = Some r -> shaders w !! r = Some s ->
  unparseable rcol g b = false -> (0 <= segments)%Z ->
  exists (w' : world) (ps : list Q) (cs : list Call),
    drawCircle x y radius segments rcol g b a w = Ret tt w'
    /\ calls w' = gl_drawArrays TRIANGLE_FAN 0 (inject_Z segments + 2) :: cs
    /\ gl_bufferData ps STATIC_DRAW ∈ cs
    /\ draw_calls cs = draw_calls (calls w)
    /\ js_length ps == 2 * (inject_Z segments + 2)
    /\ ps !! 0%nat = Some x /\ ps !! 1%nat = Some y
    /\ ps !! 2%nat = Some (x + radius * h_cos (host w) 0)
    /\ ps !! 3%nat = Some (y + radius * h_sin (host w) 0).
Proof.
  intros Hr Hs U Hseg.
  destruct (drawCircle_spec x y radius segments rcol g b a r s w Hr Hs U)
    as (ps & c1 & c2 & c3 & c4 & E & Eps).
  apply circle_loop_shape in Eps as (L & _ & Hfirst).
  destruct (Hfirst 0 ltac:(lia) eq_refl) as (tail & Hps).
  eexists _, ps, _. split; [exact E|]. split; [reflexivity|].
  split; [apply list_elem_of_further, used_bufferData|]. split.
  { cbn [calls with_calls]. rewrite draw_calls_cons. cbn [is_draw]. apply used_draw_calls. }
  split; [|by rewrite Hps].
  assert (HL : Z.of_nat (length ps) = (2 * (segments + 2))%Z)
    by (rewrite L; cbn [length]; lia).
  unfold js_length. rewrite HL, inject_Z_mult, inject_Z_plus. reflexivity.
Qed.

Lemma drawCircle_vertices_witness :
  exists (w' : world) (ps : list Q) (cs : list Call),
    drawCircle 100 120 12 20 (VNum 1) (VNum 0) (VNum 0) VUndefined example_world = Ret tt w'
    /\ calls w' = gl_drawArrays TRIANGLE_FAN 0 (inject_Z 20 + 2) :: cs
    /\ gl_bufferData ps STATIC_DRAW ∈ cs
    /\ draw_calls cs = draw_calls (calls example_world)
    /\ js_length ps == 2 * (inject_Z 20 + 2)
    /\ ps !! 0%nat = Some 100 /\ ps !! 1%nat = Some 120
    /\ ps !! 2%nat = Some (100 + 12 * h_cos (host example_world) 0)
    /\ ps !! 3%nat = Some (120 + 12 * h_sin (host example_world) 0).
Proof.
  apply (drawCircle_vertices 100 120 12 20 (VNum 1) (VNum 0) (VNum 0) VUndefined
           2%positive example_primitive example_world).
  - vm_compute. reflexivity.
  - vm_compute. reflexivity.
  - reflexivity.
  - lia.
Defined.




(** ** [Shader.setBackgroundColor] and [Shader.beginRender] *)

(** X17. With the image shader set up, [beginRender] after
    [setBackgroundColor(r, g, b)] returns and clears with the colour
    (r, g, b, 1); where no background colour was ever set, [beginRender]
    throws a [TypeError] after binding the framebuffer and setting the
    viewport, with the statics, the frame timer among them, untouched. *)
Theorem background_colour_is_cleared (r g b : Q) (img : ref) (s : ShaderObj) (w : world) :
  imageShader (Shader w) = Some img -> shaders w !! img = Some s ->
  (exists w' : world,
      bind (setBackgroundColor r g b) (fun _ => beginRender) w = Ret tt w'
      /\ gl_clearColor r g b 1 ∈ calls w'
      /\ backgroundColor (Shader w') = Some {| bg_red := r; bg_green := g; bg_blue := b |}
      /\ internalTimer (Shader w') = next_timer (internalTimer (Shader w))
      /\ currentProgram (Shader w') = Some img)
  /\ (backgroundColor (Shader w) = None ->
      exists w' : world,
        beginRender w = Throw TypeError w'
        /\ calls w'
           = gl_viewport 0 0 (viewWidth (Shader w)) (viewHeight (Shader w))
             :: gl_bindFramebuffer (frameBuffer (Shader w)) :: calls w
        /\ Shader w' = Shader w).
Proof.
  intros Hr Hs. split.
  - unfold setBackgroundColor. run. unfold beginRender. run. proj. run. proj.
    rewrite Hr. run.
    erewrite run_use by (proj; exact Hs).
    unfold shader. run. proj. rewrite Hs. run. proj. unfold next_timer.
    destruct (4096 <? internalTimer (Shader w) + 1)%Z; run;
      (eexists; split; [reflexivity|]; proj; split; [|done]);
      repeat (apply list_elem_of_further);
      (destruct (decide (currentProgram (Shader w) = Some img)); cbn [app];
       repeat (first [apply list_elem_of_here | apply list_elem_of_further])).
  - intros Hbg. unfold beginRender. run. proj. rewrite Hbg. run.
    eexists. split; [reflexivity|]. proj. split; done.
Qed.

Lemma background_colour_is_cleared_witness :
  (exists w' : world,
      bind (setBackgroundColor (1 # 5) (2 # 5) (3 # 5)) (fun _ => beginRender) example_world
      = Ret tt w'
      /\ gl_clearColor (1 # 5) (2 # 5) (3 # 5) 1 ∈ calls w'
      /\ backgroundColor (Shader w')
         = Some {| bg_red := 1 # 5; bg_green := 2 # 5; bg_blue := 3 # 5 |}
      /\ internalTimer (Shader w') = next_timer (internalTimer (Shader example_world))
      /\ currentProgram (Shader w') = Some 1%positive)
  /\ (backgroundColor (Shader example_world) = None ->
      exists w' : world,
        beginRender example_world = Throw TypeError w'
        /\ calls w'
           = gl_viewport 0 0 (viewWidth (Shader example_world))
               (viewHeight (Shader example_world))
             :: gl_bindFramebuffer (frameBuffer (Shader example_world))
             :: calls example_world
        /\ Shader w' = Shader example_world).
Proof.
  apply (background_colour_is_cleared (1 # 5) (2 # 5) (3 # 5) 1%positive example_image
           example_world).
  - vm_compute. reflexivity.
  - vm_compute. reflexivity.
Defined.

(** ** [Color] *)

(** One channel, inverted and inverted again. *)
Lemma invert_channel (x : Q) :
  0 <= x <= 1 ->
  exists a b : Q,
    js_sub 1 x = Some a /\ js_sub 1 a = Some b
    /\ 0 <= a <= 1 /\ 0 <= b <= 1 /\ Qabs (b - x) <= 2 ^ (-52).
Proof.
  intros Hx. unfold js_sub.
  destruct (to_double_unit (1 - x)) as (a & Ea & Ha & Da); [lra|].
  destruct (to_double_unit (1 - a)) as (b & Eb & Hb & Db); [lra|].
  exists a, b. repeat (split; [done|]).
  assert (E : 2 ^ (-52) == 2 * 2 ^ (-53)) by reflexivity.
  revert Da Db E. generalize (2 ^ (-52)) (2 ^ (-53)). intros e52 e53 Da Db E.
  apply Qabs_Qle_condition in Da as [Da1 Da2]. apply Qabs_Qle_condition in Db as [Db1 Db2].
  apply Qabs_Qle_condition. split; lra.
Qed.

(** X18. [invert] keeps a colour whose channels lie between 0 and 1 such a
    colour, and keeps its alpha.  Inverting twice gives back the red, the
    green and the blue within 2^-52 of what they were, but not the numbers
    themselves: each difference is rounded, and the red 0.1 comes back as
    0.09999999999999998. *)
Theorem invert_round_trip :
  (forall c : Color, in_gamut c ->
     exists c1 c2 : Color,
       invert c = Some c1 /\ invert c1 = Some c2
       /\ in_gamut c1 /\ in_gamut c2
       /\ alpha c1 = alpha c /\ alpha c2 = alpha c
       /\ Qabs (red c2 - red c) <= 2 ^ (-52)
       /\ Qabs (green c2 - green c) <= 2 ^ (-52)
       /\ Qabs (blue c2 - blue c) <= 2 ^ (-52))
  /\ (exists c c1 c2 : Color,
        in_gamut c /\ red c = literal (1 # 10)
        /\ invert c = Some c1 /\ invert c1 = Some c2
        /\ red c2 = literal (9999999999999998 # 100000000000000000)
        /\ ~ red c2 == red c).
Proof.
  split.
  - intros [r g b al] (Hr & Hg & Hb & Ha). cbn [red green blue alpha] in *.
    destruct (invert_channel r Hr) as (r1 & r2 & Er1 & Er2 & Hr1 & Hr2 & Dr).
    destruct (invert_channel g Hg) as (g1 & g2 & Eg1 & Eg2 & Hg1 & Hg2 & Dg).
    destruct (invert_channel b Hb) as (b1 & b2 & Eb1 & Eb2 & Hb1 & Hb2 & Db).
    exists (Color_new r1 g1 b1 (Some al)), (Color_new r2 g2 b2 (Some al)).
    unfold invert, in_gamut. cbn [red green blue alpha Color_new].
    rewrite Er1, Eg1, Eb1, Er2, Eg2, Eb2. repeat split; first [done | tauto].
  - exists (Color_new (literal (1 # 10)) (1 # 2) 1 None). eexists _, _.
    split; [vm_compute; repeat split; discriminate|].
    split; [reflexivity|]. split; [vm_compute; reflexivity|].
    split; [vm_compute; reflexivity|]. split; [vm_compute; reflexivity|].
    vm_compute. discriminate.
Qed.

Lemma invert_round_trip_witness :
  exists c1 c2 : Color,
    invert (Color_new (literal (3 # 10)) (1 # 2) 1 None) = Some c1 /\ invert c1 = Some c2
    /\ in_gamut c1 /\ in_gamut c2
    /\ alpha c1 = alpha (Color_new (literal (3 # 10)) (1 # 2) 1 None)
    /\ alpha c2 = alpha (Color_new (literal (3 # 10)) (1 # 2) 1 None)
    /\ Qabs (red c2 - red (Color_new (literal (3 # 10)) (1 # 2) 1 None)) <= 2 ^ (-52)
    /\ Qabs (green c2 - green (Color_new (literal (3 # 10)) (1 # 2) 1 None)) <= 2 ^ (-52)
    /\ Qabs (blue c2 - blue (Color_new (literal (3 # 10)) (1 # 2) 1 None)) <= 2 ^ (-52).
Proof.
  apply (proj1 invert_round_trip (Color_new (literal (3 # 10)) (1 # 2) 1 None)).
  vm_compute. repeat split; discriminate.
Defined.

Ltac bounds :=
  repeat match goal with
         | H : (_ && _) = true |- _ => apply andb_prop in H as [? ?]
         | H : (_ <=? _)%Z = true |- _ => apply Z.leb_le in H
         end.

Lemma hex_digit_range (c : ascii) (v : Z) : hex_digit c = Some v -> (0 <= v <= 15)%Z.
Proof.
  unfold hex_digit. cbv zeta.
  destruct ((48 <=? _)%Z && _) eqn:E1; [intros E; injection E as <-; bounds; lia|].
  destruct ((97 <=? _)%Z && _) eqn:E2; [intros E; injection E as <-; bounds; lia|].
  destruct ((65 <=? _)%Z && _) eqn:E3; [intros E; injection E as <-; bounds; lia|].
  discriminate.
Qed.

(** A digit is neither white space, nor a sign, nor [x], nor [#]. *)
Lemma hex_digit_plain (c : ascii) (v : Z) :
  hex_digit c = Some v ->
  is_whitespace c = false /\ Ascii.eqb c "-" = false /\ Ascii.eqb c "+" = false
  /\ Ascii.eqb c "x" = false /\ Ascii.eqb c "X" = false /\ Ascii.eqb c "#" = false.
Proof.
  intros H.
  assert (Hn : let n := Z.of_N (N_of_ascii c) in
               (48 <= n <= 57 \/ 97 <= n <= 102 \/ 65 <= n <= 70)%Z).
  { revert H. unfold hex_digit. cbv zeta.
    destruct ((48 <=? _)%Z && _) eqn:E1; [intros _; bounds; lia|].
    destruct ((97 <=? _)%Z && _) eqn:E2; [intros _; bounds; lia|].
    destruct ((65 <=? _)%Z && _) eqn:E3; [intros _; bounds; lia|].
    discriminate. }
  cbv zeta in Hn.
  assert (Hne : forall d : ascii, Z.of_N (N_of_ascii c) ≠ Z.of_N (N_of_ascii d) ->
                                  Ascii.eqb c d = false).
  { intros d Hd. destruct (Ascii.eqb_spec c d) as [->|]; [done|done]. }
  split.
  { unfold is_whitespace. cbv zeta.
    apply orb_false_iff. split; [apply orb_false_iff; split|].
    - apply andb_false_iff. destruct Hn as [?|[?|?]]; right; apply Z.leb_gt; lia.
    - apply Z.eqb_neq. lia.
    - apply Z.eqb_neq. lia. }
  repeat split; apply Hne; cbn; lia.
Qed.

Lemma parseInt16_digits (c0 c1 : ascii) (v0 v1 : Z) :
  hex_digit c0 = Some v0 -> hex_digit c1 = Some v1 ->
  parseInt16 (String c0 (String c1 EmptyString)) = Some (16 * v0 + v1)%Z.
Proof.
  intros H0 H1.
  destruct (hex_digit_plain c0 v0 H0) as (W0 & M0 & P0 & _).
  destruct (hex_digit_plain c1 v1 H1) as (_ & _ & _ & X1 & X1' & _).
  unfold parseInt16. cbn [skip_whitespace]. rewrite W0, M0, P0, X1, X1'.
  rewrite andb_false_r. cbn [hex_prefix]. rewrite H0, H1. cbn [fold_left]. f_equal. lia.
Qed.

Lemma remove_first_hash_length (hex : string) :
  String.length (remove_first_hash hex) = 6%nat ->
  exists h0 h1 h2 h3 h4 h5,
    remove_first_hash hex
    = String h0 (String h1 (String h2 (String h3 (String h4 (String h5 EmptyString))))).
Proof.
  intros H. destruct (remove_first_hash hex) as [|h0 [|h1 [|h2 [|h3 [|h4 [|h5 [|]]]]]]];
    try discriminate. by eexists _, _, _, _, _, _.
Qed.

Lemma channel_range (v0 v1 : Z) :
  (0 <= v0 <= 15)%Z -> (0 <= v1 <= 15)%Z ->
  0 <= inject_Z (16 * v0 + v1) / 255 <= 1.
Proof.
  intros H0 H1. split.
  - apply Qle_shift_div_l; [reflexivity|]. rewrite Qmult_0_l.
    change 0 with (inject_Z 0). rewrite <- Zle_Qle. lia.
  - apply Qle_shift_div_r; [reflexivity|]. rewrite Qmult_1_l.
    change 255 with (inject_Z 255). rewrite <- Zle_Qle. lia.
Qed.

(** X19. [Color.fromHex] throws its [ColorError] exactly when the string,
    with its first [#] removed, is not six characters long.  For six
    digits of radix 16, with or without a [#] in front, it returns the
    colour whose red, green and blue are the values of the three pairs of
    digits divided by 255, each between 0 and 1, with the alpha given, or
    1. *)
Theorem fromHex_six_digits (hex : string) (a : option Q) :
  (fromHex hex a = FromHex_ColorError
   <-> String.length (remove_first_hash hex) ≠ 6%nat)
  /\ forall (c0 c1 c2 c3 c4 c5 : ascii) (v0 v1 v2 v3 v4 v5 : Z),
       hex_digit c0 = Some v0 -> hex_digit c1 = Some v1 -> hex_digit c2 = Some v2 ->
       hex_digit c3 = Some v3 -> hex_digit c4 = Some v4 -> hex_digit c5 = Some v5 ->
       exists c : Color,
         fromHex (String c0 (String c1 (String c2 (String c3 (String c4 (String c5 ""))))))
           a = FromHex c
         /\ fromHex (String "#" (String c0 (String c1 (String c2 (String c3
                      (String c4 (String c5 ""))))))) a = FromHex c
         /\ red c = inject_Z (16 * v0 + v1) / 255
         /\ green c = inject_Z (16 * v2 + v3) / 255
         /\ blue c = inject_Z (16 * v4 + v5) / 255
         /\ alpha c = default 1 a
         /\ 0 <= red c <= 1 /\ 0 <= green c <= 1 /\ 0 <= blue c <= 1.
Proof.
  split.
  - unfold fromHex. split.
    + intros H L. apply remove_first_hash_length in L as (h0 & h1 & h2 & h3 & h4 & h5 & E).
      rewrite E in H.
      destruct (parseInt16 _); [|discriminate].
      destruct (parseInt16 _); [|discriminate].
      destruct (parseInt16 _); discriminate.
    + intros L.
      destruct (remove_first_hash hex) as [|h0 [|h1 [|h2 [|h3 [|h4 [|h5 [|]]]]]]];
        try reflexivity. done.
  - intros c0 c1 c2 c3 c4 c5 v0 v1 v2 v3 v4 v5 H0 H1 H2 H3 H4 H5.
    assert (Hash : forall c v, hex_digit c = Some v -> Ascii.eqb c "#" = false).
    { intros c v H. by destruct (hex_digit_plain c v H) as (_ & _ & _ & _ & _ & ?). }
    exists (Color_new (inject_Z (16 * v0 + v1) / 255) (inject_Z (16 * v2 + v3) / 255)
              (inject_Z (16 * v4 + v5) / 255) a).
    assert (E : fromHex (String c0 (String c1 (String c2 (String c3 (String c4
                  (String c5 ""))))))
                  a
                = FromHex (Color_new (inject_Z (16 * v0 + v1) / 255)
                             (inject_Z (16 * v2 + v3) / 255)
                             (inject_Z (16 * v4 + v5) / 255) a)).
    { unfold fromHex. cbn [remove_first_hash].
      rewrite (Hash _ _ H0), (Hash _ _ H1), (Hash _ _ H2), (Hash _ _ H3), (Hash _ _ H4),
        (Hash _ _ H5).
      by rewrite (parseInt16_digits _ _ _ _ H0 H1), (parseInt16_digits _ _ _ _ H2 H3),
        (parseInt16_digits _ _ _ _ H4 H5). }
    split; [exact E|]. split.
    { unfold fromHex.
      change (remove_first_hash (String "#" ?s)) with s. cbv beta zeta iota.
      by rewrite (parseInt16_digits _ _ _ _ H0 H1), (parseInt16_digits _ _ _ _ H2 H3),
        (parseInt16_digits _ _ _ _ H4 H5). }
    cbn [red green blue alpha Color_new].
    pose proof (hex_digit_range _ _ H0). pose proof (hex_digit_range _ _ H1).
    pose proof (hex_digit_range _ _ H2). pose proof (hex_digit_range _ _ H3).
    pose proof (hex_digit_range _ _ H4). pose proof (hex_digit_range _ _ H5).
    repeat split; try reflexivity; try (by destruct a); by apply channel_range.
Qed.

Lemma fromHex_six_digits_witness :
  exists c : Color,
    fromHex "ff8000" None = FromHex c
    /\ fromHex "#ff8000" None = FromHex c
    /\ red c = inject_Z (16 * 15 + 15) / 255
    /\ green c = inject_Z (16 * 8 + 0) / 255
    /\ blue c = inject_Z (16 * 0 + 0) / 255
    /\ alpha c = default 1 None
    /\ 0 <= red c <= 1 /\ 0 <= green c <= 1 /\ 0 <= blue c <= 1.
Proof.
  apply (proj2 (fromHex_six_digits "" None)
           "f"%char "f"%char "8"%char "0"%char "0"%char "0"%char 15 15 8 0 0 0)%Z;
    reflexivity.
Defined.

(** ** [drawTextWrap] *)

Lemma wrap_loop_lines (measureText : string -> Q) (opt : option TextOptions) (width : Q)
    (text : string) : forall (current : string) (lines : list string),
  wrap_loop measureText opt width text current lines
  = lines ++ wrap_loop measureText opt width text current [].
Proof.
  induction text as [|c text IH]; intros current lines; simpl; [done|].
  destruct (_ && _).
  - rewrite IH. rewrite (IH _ [_]). by rewrite <- app_assoc.
  - apply IH.
Qed.

Lemma string_app_empty (s : string) : s +:+ "" = s.
Proof.
  induction s as [|c s IH]; [done|].
  change (String c (s +:+ "") = String c s). by rewrite IH.
Qed.

Lemma string_app_char (s t : string) (c : ascii) :
  (s +:+ String c "") +:+ t = s +:+ String c t.
Proof.
  induction s as [|d s IH]; [done|].
  change (String d ((s +:+ String c "") +:+ t) = String d (s +:+ String c t)).
  by rewrite IH.
Qed.

Lemma wrap_loop_unbroken (measureText : string -> Q) (opt : option TextOptions) (width : Q)
    (text : string) : forall current : string,
  (forall c s, c ∈ String.list_ascii_of_string text ->
     Qle_bool (measureText s) width = true \/ is_break opt c = false) ->
  wrap_loop measureText opt width text current [] = [current +:+ text].
Proof.
  induction text as [|c text IH]; intros current H; simpl.
  - by rewrite string_app_empty.
  - assert (negb (Qle_bool (measureText current) width) && is_break opt c = false) as ->.
    { destruct (H c current) as [-> | ->]; [apply list_elem_of_here|done|].
      by rewrite andb_false_r. }
    rewrite IH.
    + by rewrite string_app_char.
    + intros c' s Hc'. apply H. simpl. by apply list_elem_of_further.
Qed.

Lemma wrap_loop_nonempty (measureText : string -> Q) (opt : option TextOptions) (width : Q)
    (text : string) : forall (current : string) (lines : list string),
  (1 <= length (wrap_loop measureText opt width text current lines))%nat.
Proof.
  induction text as [|c text IH]; intros current lines; simpl.
  - rewrite length_app. simpl. lia.
  - destruct (_ && _); apply IH.
Qed.

(** The lines, with the spaces dropped at their ends put back, are the
    text. *)
Lemma wrap_loop_restore (measureText : string -> Q) (opt : option TextOptions) (width : Q)
    (text : string) : forall current : string,
  exists dropped : list bool,
    restore (wrap_loop measureText opt width text current []) dropped = current +:+ text
    /\ Forall2 (line_end measureText opt width)
         (removelast (wrap_loop measureText opt width text current [])) dropped.
Proof.
  induction text as [|c text IH]; intros current.
  - exists []. split; [reflexivity|constructor].
  - cbn [wrap_loop].
    destruct (negb (Qle_bool (measureText current) width)) eqn:Ew;
      [destruct (is_break opt c) eqn:Eb|]; cbn [andb].
    + destruct (IH "") as (dropped & Hr & Hd).
      pose proof (wrap_loop_nonempty measureText opt width text "" []) as L.
      apply negb_true_iff, Qle_bool_false in Ew.
      rewrite wrap_loop_lines. cbn [app].
      exists (Ascii.eqb c " " :: dropped). split.
      * cbn [restore]. rewrite Hr.
        destruct (Ascii.eqb_spec c " ") as [->|Hc]; [reflexivity|].
        change ("" +:+ "" +:+ text) with text. apply string_app_char.
      * destruct (wrap_loop measureText opt width text "" []) as [|l ls] eqn:El;
          [simpl in L; lia|].
        change (removelast (?x :: l :: ls)) with (x :: removelast (l :: ls)).
        constructor; [|done]. unfold line_end.
        destruct (Ascii.eqb_spec c " ") as [->|Hc]; [done|].
        by exists current, c.
    + destruct (IH (current +:+ String c "")) as (dropped & Hr & Hd).
      exists dropped. split; [|done]. rewrite Hr. apply string_app_char.
    + destruct (IH (current +:+ String c "")) as (dropped & Hr & Hd).
      exists dropped. split; [|done]. rewrite Hr. apply string_app_char.
Qed.

(** X20. The lines that [drawTextWrap] makes of a text are the text cut
    into pieces: put one after the other, with a space put back after each
    line that was ended at a space, they are the text again, so that the
    only characters dropped are spaces at which a line is broken, one for
    each such line.  A line that was ended at another breaking character
    keeps it as its last character, and every line but the last was ended
    after it had measured wider than [width].  There is always at least
    one line; a text without breaking characters, and a text in a width
    that no line measures beyond, stay in one line, as they are. *)
Theorem wrap_keeps_characters (measureText : string -> Q) (opt : option TextOptions)
    (width : Q) (text : string) :
  (exists dropped : list bool,
      restore (wrap_loop measureText opt width text "" []) dropped = text
      /\ Forall2 (line_end measureText opt width)
           (removelast (wrap_loop measureText opt width text "" [])) dropped)
  /\ (1 <= length (wrap_loop measureText opt width text "" []))%nat
  /\ ((forall c, c ∈ String.list_ascii_of_string text -> is_break opt c = false) ->
      wrap_loop measureText opt width text "" [] = [text])
  /\ ((forall s, measureText s <= width) ->
      wrap_loop measureText opt width text "" [] = [text]).
Proof.
  split; [apply (wrap_loop_restore measureText opt width text "")|].
  split; [apply wrap_loop_nonempty|]. split.
  - intros H. apply (wrap_loop_unbroken _ _ _ _ ""). intros c s Hc. right. by apply H.
  - intros H. apply (wrap_loop_unbroken _ _ _ _ ""). intros c s Hc. left.
    by apply Qle_bool_iff.
Qed.

Lemma wrap_keeps_characters_witness :
  (exists dropped : list bool,
      restore (wrap_loop example_measure None 20 "one two-three four" "" []) dropped
      = "one two-three four"
      /\ Forall2 (line_end example_measure None 20)
           (removelast (wrap_loop example_measure None 20 "one two-three four" "" []))
           dropped)
  /\ (1 <= length (wrap_loop example_measure None 20 "one two-three four" "" []))%nat
  /\ ((forall c, c ∈ String.list_ascii_of_string "one two-three four" ->
         is_break None c = false) ->
      wrap_loop example_measure None 20 "one two-three four" "" [] = ["one two-three four"])
  /\ ((forall s, example_measure s <= 20) ->
      wrap_loop example_measure None 20 "one two-three four" "" [] = ["one two-three four"]).
Proof.
  apply (wrap_keeps_characters example_measure None 20 "one two-three four").
Defined.

Lemma wrap_loop_broken (measureText : string -> Q) (opt : option TextOptions) (width : Q)
    (text : string) : forall current : string,
  Forall (broken_after measureText opt width)
    (removelast (wrap_loop measureText opt width text current [])).
Proof.
  induction text as [|c text IH]; intros current; simpl; [constructor|].
  destruct (negb (Qle_bool (measureText current) width)) eqn:Ew;
    [destruct (is_break opt c) eqn:Eb|]; cbn [andb]; try apply IH.
  rewrite wrap_loop_lines. rewrite removelast_app.
  - apply Forall_app. split; [|apply IH]. constructor; [|constructor].
    exists current. split.
    + apply negb_true_iff in Ew. by apply Qle_bool_false.
    + destruct (Ascii.eqb c " "); [by left|]. right. by exists c.
  - intros E. pose proof (wrap_loop_nonempty measureText opt width text "" []) as L.
    rewrite E in L. simpl in L. lia.
Qed.

(** X21. [drawTextWrap] breaks a line only after the line has exceeded the
    width: every line but the last is, or is up to its final breaking
    character, a text that measured wider than [width]. *)
Theorem wrap_breaks_only_after_width (measureText : string -> Q) (opt : option TextOptions)
    (width : Q) (text : string) :
  Forall (broken_after measureText opt width)
    (removelast (wrap_loop measureText opt width text "" [])).
Proof. apply wrap_loop_broken. Qed.

Lemma line_positions_length (y : Q) (lines : list string) (opt : option TextOptions) :
  length (line_positions y lines opt) = length lines.
Proof. unfold line_positions. by rewrite length_imap. Qed.

Lemma line_layout (y : Q) (lines : list string) (opt : option TextOptions)
    (first last_ : string) (y0 yn : Q) :
  line_positions y lines opt !! 0%nat = Some (y0, first) ->
  line_positions y lines opt !! pred (length lines) = Some (yn, last_) ->
  map snd (line_positions y lines opt) = lines
  /\ (forall (l : nat) (y1 y2 : Q) (t1 t2 : string),
        line_positions y lines opt !! l = Some (y1, t1) ->
        line_positions y lines opt !! S l = Some (y2, t2) ->
        y2 - y1 == num_or (opt_field lineSeparation opt) 16)
  /\ (opt_field vAlign opt = Some "middle" -> y0 + yn == 2 * y)
  /\ (opt_field vAlign opt = Some "bottom" -> yn == y)
  /\ (opt_field vAlign opt ≠ Some "middle" -> opt_field vAlign opt ≠ Some "bottom" ->
      y0 == y).
Proof.
  unfold line_positions. cbv zeta.
  set (sep := num_or (opt_field lineSeparation opt) 16).
  set (startY := match opt_field vAlign opt with Some v => _ | None => y end).
  rewrite !list_lookup_imap. intros H0 Hn.
  destruct (lines !! 0%nat) as [t0|] eqn:E0; [|done].
  destruct (lines !! pred (length lines)) as [tn|] eqn:En; [|done].
  cbn in H0, Hn. injection H0 as <- <-. injection Hn as <- <-.
  assert (Hlen : (1 <= length lines)%nat).
  { apply lookup_lt_Some in E0. lia. }
  assert (Hn : inject_Z (Z.of_nat (pred (length lines))) == js_length lines - 1).
  { unfold js_length. rewrite Nat2Z.inj_pred by lia. unfold Z.pred.
    rewrite inject_Z_plus. unfold Qminus. reflexivity. }
  split.
  { clear.
    assert (G : forall (f : nat -> string -> Q * string),
               (forall i t, (f i t).2 = t) -> map snd (imap f lines) = lines).
    { induction lines as [|t ts IH]; intros f Hf; simpl; [done|].
      rewrite Hf. f_equal. apply IH. intros i t'. apply Hf. }
    apply G. done. }
  split.
  { intros l y1 y2 t1 t2. rewrite !list_lookup_imap.
    destruct (lines !! l); [|done]. destruct (lines !! S l); [|done].
    cbn. intros [= <- <-] [= <- <-]. rewrite Nat2Z.inj_succ. unfold Z.succ.
    rewrite inject_Z_plus. ring. }
  rewrite Hn. subst startY.
  split; [intros ->; cbn; field|].
  split; [intros ->; cbn; ring|].
  intros Hm Hb. destruct (opt_field vAlign opt) as [v|]; [|ring].
  destruct (String.eqb_spec v "middle") as [->|_]; [done|].
  destruct (String.eqb_spec v "bottom") as [->|_]; [done|]. ring.
Qed.

(** X22. [drawTextWrap] draws its lines by [drawText], in their order, one
    line separation (16 unless given) below the other.  Aligned to the
    middle, the first and the last line are at equal distances above and
    below [y]; aligned to the bottom, the last line is at [y]; otherwise
    the first line is at [y]. *)
Theorem wrapped_lines_layout (measureText : string -> Q) (x y : Q) (text : string) (width : Q)
    (opt : option TextOptions) :
  exists (lines : list string) (first last_ : string) (y0 yn : Q),
    lines = wrap_loop measureText opt width text "" []
    /\ drawTextWrap measureText x y text width opt
       = flat_map (fun '(yl, line) => drawText x yl line opt) (line_positions y lines opt)
    /\ map snd (line_positions y lines opt) = lines
    /\ line_positions y lines opt !! 0%nat = Some (y0, first)
    /\ line_positions y lines opt !! pred (length lines) = Some (yn, last_)
    /\ (forall (l : nat) (y1 y2 : Q) (t1 t2 : string),
          line_positions y lines opt !! l = Some (y1, t1) ->
          line_positions y lines opt !! S l = Some (y2, t2) ->
          y2 - y1 == num_or (opt_field lineSeparation opt) 16)
    /\ (opt_field vAlign opt = Some "middle" -> y0 + yn == 2 * y)
    /\ (opt_field vAlign opt = Some "bottom" -> yn == y)
    /\ (opt_field vAlign opt ≠ Some "middle" -> opt_field vAlign opt ≠ Some "bottom" ->
        y0 == y).
Proof.
  pose proof (wrap_loop_nonempty measureText opt width text "" []) as L.
  set (lines := wrap_loop measureText opt width text "" []) in *.
  destruct (lookup_lt_is_Some_2 (line_positions y lines opt) 0) as ([y0 first] & E0).
  { rewrite line_positions_length. lia. }
  destruct (lookup_lt_is_Some_2 (line_positions y lines opt) (pred (length lines)))
    as ([yn last_] & En).
  { rewrite line_positions_length. lia. }
  destruct (line_layout y lines opt first last_ y0 yn E0 En) as (A & B & C & D & F).
  exists lines, first, last_, y0, yn. repeat split; done.
Qed.

Lemma wrapped_lines_layout_witness :
  exists (lines : list string) (first last_ : string) (y0 yn : Q),
    lines = wrap_loop example_measure None 30 "one two-three four" "" []
    /\ drawTextWrap example_measure 200 32 "one two-three four" 30 None
       = flat_map (fun '(yl, line) => drawText 200 yl line None) (line_positions 32 lines None)
    /\ map snd (line_positions 32 lines None) = lines
    /\ line_positions 32 lines None !! 0%nat = Some (y0, first)
    /\ line_positions 32 lines None !! pred (length lines) = Some (yn, last_)
    /\ (forall (l : nat) (y1 y2 : Q) (t1 t2 : string),
          line_positions 32 lines None !! l = Some (y1, t1) ->
          line_positions 32 lines None !! S l = Some (y2, t2) ->
          y2 - y1 == num_or (opt_field lineSeparation None) 16)
    /\ (opt_field vAlign None = Some "middle" -> y0 + yn == 2 * 32)
    /\ (opt_field vAlign None = Some "bottom" -> yn == 32)
    /\ (opt_field vAlign None ≠ Some "middle" -> opt_field vAlign None ≠ Some "bottom" ->
        y0 == 32).
Proof.
  apply (wrapped_lines_layout example_measure 200 32 "one two-three four" 30 None).
Defined.
